(** * SensorBee: topology builder, BQL box and BQL topology builder

    A shallow embedding of
    - the static topology builder of package [core]
      ([defaultStaticTopologyBuilder], its declarers and its cycle check),
    - the BQL box of package [bql] ([bqlBox]: [Process], [timeEmitter],
      [Terminate]),
    - the statement-driven [TopologyBuilder.AddStmt] of package [bql],
    together with the properties the specification states about them. *)

From stdpp Require Import gmap strings list pretty.
From Stdlib Require Import ZArith Lia.

Local Open Scope Z_scope.

(** ** 64-bit signed integers ([int64]) *)

Definition int64_min : Z := - 2 ^ 63.
Definition int64_max : Z := 2 ^ 63 - 1.

(** Two's complement wrap-around of Go's [int64] arithmetic. *)
Definition wrap64 (z : Z) : Z := (z + 2 ^ 63) mod 2 ^ 64 - 2 ^ 63.

Definition in_int64 (z : Z) : Prop := int64_min <= z <= int64_max.

(** ** Package core: the static topology builder *)

Module Core.

(** The three node interfaces.  A [Source] and a [Sink] are opaque to the
    builder; of a [Box] the builder only calls [InputConstraints]. *)
Record Source := { source_id : nat }.
Record Sink := { sink_id : nat }.

Inductive error :=
| ErrAlreadyBuilt
    (* "this topology builder has already built the topology" *)
| ErrSourceExists (name : string)  (* "there is already a source called '%s'" *)
| ErrBoxExists (name : string)     (* "there is already a box called '%s'" *)
| ErrSinkExists (name : string)    (* "there is already a sink called '%s'" *)
| ErrNoSource                      (* "there must be at least one source" *)
| ErrCycle (path : list string)    (* "the topology has a cycle: %v" *)
| ErrNoSuchRef (refname : string)  (* "there is no box or source named '%s'" *)
| ErrInputName (inputName : string)
    (* "you cannot use %s as an input name with input constraints %v" *)
| ErrAlreadyConnected (name refname : string)
    (* "box '%s' is already connected to '%s'" *)
| ErrBox (msg : string).           (* an error returned by the box itself *)

#[global] Instance error_eq_dec : EqDecision error.
Proof. solve_decision. Defined.

(** [*BoxInputConstraints]: the [Schema] map may be nil; its values are
    (possibly nil) schema pointers, of which only the keys are inspected. *)
Record BoxInputConstraints := { Schema : option (gmap string (option string)) }.

(** A box as the builder sees it: the result of [InputConstraints()], a
    possibly nil constraints pointer or an error.  [Box] is an interface in
    the source, and a value of an interface type may be nil: where the
    source holds a [Box], the model holds an [option Box], [None] being the
    nil interface. *)
Record Box := { InputConstraints : option BoxInputConstraints + error }.

Record dataflowEdge := { From : string; To : string; InputName : string }.

#[global] Instance dataflowEdge_eq_dec : EqDecision dataflowEdge.
Proof. solve_decision. Defined.

(** [boxpointers] is keyed by the address of the parameter of each [AddBox]
    call, a fresh address every time, and is never read: it is kept as the
    number of its entries. *)
Record defaultStaticTopologyBuilder := {
  sources : gmap string Source;
  boxes : gmap string (option Box);
  boxpointers : nat;
  sinks : gmap string Sink;
  Edges : list dataflowEdge;
  builtFlag : bool
}.

Definition NewDefaultStaticTopologyBuilder : defaultStaticTopologyBuilder :=
  {| sources := ∅; boxes := ∅; boxpointers := 0%nat; sinks := ∅;
     Edges := []; builtFlag := false |}.

Definition set_sources (tb : defaultStaticTopologyBuilder) v :=
  {| sources := v; boxes := boxes tb; boxpointers := boxpointers tb;
     sinks := sinks tb; Edges := Edges tb; builtFlag := builtFlag tb |}.
Definition set_boxes (tb : defaultStaticTopologyBuilder) v n :=
  {| sources := sources tb; boxes := v; boxpointers := n;
     sinks := sinks tb; Edges := Edges tb; builtFlag := builtFlag tb |}.
Definition set_sinks (tb : defaultStaticTopologyBuilder) v :=
  {| sources := sources tb; boxes := boxes tb; boxpointers := boxpointers tb;
     sinks := v; Edges := Edges tb; builtFlag := builtFlag tb |}.
Definition set_Edges (tb : defaultStaticTopologyBuilder) v :=
  {| sources := sources tb; boxes := boxes tb; boxpointers := boxpointers tb;
     sinks := sinks tb; Edges := v; builtFlag := builtFlag tb |}.
Definition set_builtFlag (tb : defaultStaticTopologyBuilder) v :=
  {| sources := sources tb; boxes := boxes tb; boxpointers := boxpointers tb;
     sinks := sinks tb; Edges := Edges tb; builtFlag := v |}.

(** [checkName]: nil ([None]) when the name is not used yet. *)
Definition checkName (tb : defaultStaticTopologyBuilder) (name : string)
  : option error :=
  if bool_decide (is_Some (sources tb !! name)) then Some (ErrSourceExists name)
  else if bool_decide (is_Some (boxes tb !! name)) then Some (ErrBoxExists name)
  else if bool_decide (is_Some (sinks tb !! name)) then Some (ErrSinkExists name)
  else None.

Definition IsValidOutputReference (tb : defaultStaticTopologyBuilder)
  (name : string) : bool :=
  bool_decide (is_Some (sources tb !! name))
  || bool_decide (is_Some (boxes tb !! name)).

(** *** Declarers

    Every declarer made by a successful [Add*] call holds a pointer to the
    one builder, so all of them share it: the builder is threaded through
    the calls explicitly.  The declarers made on the error paths have a nil
    builder and a nil box or sink, and a non-nil [err].  [AddBox] does not
    look at its [box] parameter: a nil box is stored under the name like
    any other, and the declarer returned for it has a nil [box] and a nil
    [err]. *)

Record defaultSourceDeclarer := { srcd_err : option error }.

Record defaultBoxDeclarer := {
  bd_name : string;
  bd_box : option Box;
  bd_err : option error
}.

Record defaultSinkDeclarer := {
  sd_name : string;
  sd_sink : option Sink;
  sd_err : option error
}.

Definition AddSource (tb : defaultStaticTopologyBuilder) (name : string)
  (source : Source) : defaultStaticTopologyBuilder * defaultSourceDeclarer :=
  if builtFlag tb then (tb, {| srcd_err := Some ErrAlreadyBuilt |})
  else match checkName tb name with
       | Some nameErr => (tb, {| srcd_err := Some nameErr |})
       | None => (set_sources tb (<[name := source]> (sources tb)),
                  {| srcd_err := None |})
       end.

Definition AddBox (tb : defaultStaticTopologyBuilder) (name : string)
  (box : option Box) : defaultStaticTopologyBuilder * defaultBoxDeclarer :=
  if builtFlag tb
  then (tb, {| bd_name := ""; bd_box := None; bd_err := Some ErrAlreadyBuilt |})
  else match checkName tb name with
       | Some nameErr =>
           (tb, {| bd_name := ""; bd_box := None; bd_err := Some nameErr |})
       | None =>
           (set_boxes tb (<[name := box]> (boxes tb)) (S (boxpointers tb)),
            {| bd_name := name; bd_box := box; bd_err := None |})
       end.

Definition AddSink (tb : defaultStaticTopologyBuilder) (name : string)
  (sink : Sink) : defaultStaticTopologyBuilder * defaultSinkDeclarer :=
  if builtFlag tb
  then (tb, {| sd_name := ""; sd_sink := None; sd_err := Some ErrAlreadyBuilt |})
  else match checkName tb name with
       | Some nameErr =>
           (tb, {| sd_name := ""; sd_sink := None; sd_err := Some nameErr |})
       | None =>
           (set_sinks tb (<[name := sink]> (sinks tb)),
            {| sd_name := name; sd_sink := Some sink; sd_err := None |})
       end.

Definition bd_fail (bd : defaultBoxDeclarer) (e : error) : defaultBoxDeclarer :=
  {| bd_name := bd_name bd; bd_box := bd_box bd; bd_err := Some e |}.

Definition sd_fail (sd : defaultSinkDeclarer) (e : error) : defaultSinkDeclarer :=
  {| sd_name := sd_name sd; sd_sink := sd_sink sd; sd_err := Some e |}.

(** The loop that "checks if this edge already exists":
<<
    edgeAlreadyExists := false
    for _, e := range tb.Edges {
        edgeAlreadyExists = edge == e
        break
    }
>>
    The [break] ends the loop after its first iteration. *)
Definition edgeAlreadyExists (edges : list dataflowEdge) (edge : dataflowEdge)
  : bool :=
  match edges with
  | [] => false
  | e :: _ => bool_decide (edge = e)
  end.

(** The input-name check of [NamedInput]. *)
Definition inputNameOk (inputConstraints : option BoxInputConstraints)
  (inputName : string) : bool :=
  match inputConstraints with
  | None => true
  | Some ic =>
      match Schema ic with
      | None => true
      | Some schema =>
          if bool_decide (is_Some (schema !! inputName)) then true
          else if bool_decide (is_Some (schema !! "*")) then true
          else false
      end
  end.

(** [NamedInput] returns the builder and the declarer after the call;
    [None] stands for the panic of [bd.box.InputConstraints()] on a
    declarer that has neither an error nor a box, which is the declarer
    [AddBox] returns for a nil box. *)
Definition NamedInput (tb : defaultStaticTopologyBuilder)
  (bd : defaultBoxDeclarer) (refname inputName : string)
  : option (defaultStaticTopologyBuilder * defaultBoxDeclarer) :=
  match bd_err bd with
  | Some _ => Some (tb, bd)
  | None =>
      if negb (IsValidOutputReference tb refname)
      then Some (tb, bd_fail bd (ErrNoSuchRef refname))
      else
        match bd_box bd with
        | None => None
        | Some box =>
            match InputConstraints box with
            | inr err => Some (tb, bd_fail bd err)
            | inl inputConstraints =>
                if negb (inputNameOk inputConstraints inputName)
                then Some (tb, bd_fail bd (ErrInputName inputName))
                else
                  let edge := {| From := refname; To := bd_name bd;
                                 InputName := inputName |} in
                  if edgeAlreadyExists (Edges tb) edge
                  then Some (tb, bd_fail bd
                                   (ErrAlreadyConnected (bd_name bd) refname))
                  else Some (set_Edges tb (Edges tb ++ [edge]), bd)
            end
        end
  end.

Definition Input (tb : defaultStaticTopologyBuilder) (bd : defaultBoxDeclarer)
  (refname : string) := NamedInput tb bd refname "*".

Definition BoxErr (bd : defaultBoxDeclarer) : option error := bd_err bd.

Definition SinkInput (tb : defaultStaticTopologyBuilder)
  (sd : defaultSinkDeclarer) (refname : string)
  : defaultStaticTopologyBuilder * defaultSinkDeclarer :=
  match sd_err sd with
  | Some _ => (tb, sd)
  | None =>
      if negb (IsValidOutputReference tb refname)
      then (tb, sd_fail sd (ErrNoSuchRef refname))
      else
        let edge := {| From := refname; To := sd_name sd;
                       InputName := "output" |} in
        if edgeAlreadyExists (Edges tb) edge
        then (tb, sd_fail sd (ErrAlreadyConnected (sd_name sd) refname))
        else (set_Edges tb (Edges tb ++ [edge]), sd)
  end.

Definition SinkErr (sd : defaultSinkDeclarer) : option error := sd_err sd.

(** A sequence of [NamedInput] calls, and of [Input] calls, on one
    declarer. *)
Fixpoint NamedInputs (tb : defaultStaticTopologyBuilder)
  (bd : defaultBoxDeclarer) (calls : list (string * string))
  : option (defaultStaticTopologyBuilder * defaultBoxDeclarer) :=
  match calls with
  | [] => Some (tb, bd)
  | (refname, inputName) :: rest =>
      match NamedInput tb bd refname inputName with
      | None => None
      | Some (tb', bd') => NamedInputs tb' bd' rest
      end
  end.

Fixpoint SinkInputs (tb : defaultStaticTopologyBuilder)
  (sd : defaultSinkDeclarer) (refnames : list string)
  : defaultStaticTopologyBuilder * defaultSinkDeclarer :=
  match refnames with
  | [] => (tb, sd)
  | refname :: rest =>
      let '(tb', sd') := SinkInput tb sd refname in SinkInputs tb' sd' rest
  end.

(** *** Cycle detection *)

(** [visited[node]]: a missing key reads as [0]
    (0: not yet, 1: visiting, 2: visited). *)
Definition color (visited : gmap string nat) (node : string) : nat :=
  default 0%nat (visited !! node).

(** [adj[node]]: a missing key reads as the nil slice. *)
Definition adjOf (adj : gmap string (list string)) (node : string)
  : list string := default [] (adj !! node).

(** [adj[e.From] = append(adj[e.From], e.To)] for every edge, in order. *)
Definition mkAdj (edges : list dataflowEdge) : gmap string (list string) :=
  foldl (fun adj e => <[From e := adjOf adj (From e) ++ [To e]]> adj) ∅ edges.

(** [len(path) > 1 && path[0] == path[len(path)-1]] *)
Definition closedPath (path : list string) : bool :=
  bool_decide (1 < length path)%nat && bool_decide (head path = last path).

(** The loop of [detectCycle] over [adj[node]]; [rec] is the recursive call.
    A nil path is the empty list: every non-nil slice the function returns
    has at least one element. *)
Definition detectCycleLoop
  (rec : string -> gmap string nat -> option (list string * gmap string nat))
  (node : string)
  : list string -> gmap string nat -> option (list string * gmap string nat) :=
  fix loop ns visited :=
    match ns with
    | [] => Some ([], <[node := 2%nat]> visited)
    | n :: ns' =>
        match rec n visited with
        | None => None
        | Some ([], visited') => loop ns' visited'
        | Some (path, visited') =>
            if closedPath path then Some (path, visited')
            else Some (path ++ [node], visited')
        end
    end.

(** [detectCycle] returns the path found (in reverse order) and the
    [visited] map it has updated in place.  The recursion is bounded by
    [fuel]; [None] means the bound was too small. *)
Fixpoint detectCycle (fuel : nat) (node : string)
  (adj : gmap string (list string)) (visited : gmap string nat)
  : option (list string * gmap string nat) :=
  match fuel with
  | O => None
  | S fuel' =>
      match color visited node with
      | 0%nat =>
          detectCycleLoop (fun n v => detectCycle fuel' n adj v) node
            (adjOf adj node) (<[node := 1%nat]> visited)
      | 1%nat => Some ([node], visited)
      | _ => Some ([], visited)
      end
  end.

(** The in-place reversal of [hasCycle]:
<<
    for i := 0; i < len(path)/2; i++ {
        p := len(path) - i - 1
        path[i], path[p] = path[p], path[i]
    }
>>  *)
Fixpoint reverseLoop (n i : nat) (path : list string) : list string :=
  match n with
  | O => path
  | S n' =>
      let p := (length path - i - 1)%nat in
      match path !! i, path !! p with
      | Some a, Some b => reverseLoop n' (S i) (<[p := a]> (<[i := b]> path))
      | _, _ => path
      end
  end.

Definition reversePath (path : list string) : list string :=
  reverseLoop (length path / 2) 0 path.

(** The loop of [hasCycle] over the sources.  Go ranges over the map
    [tb.sources] in an unspecified order: [order] is the order taken. *)
Fixpoint hasCycleLoop (fuel : nat) (order : list string)
  (adj : gmap string (list string)) (visited : gmap string nat)
  : option (bool * list string) :=
  match order with
  | [] => Some (false, [])
  | s :: order' =>
      match detectCycle fuel s adj visited with
      | None => None
      | Some (path, visited') =>
          if bool_decide (length path ≠ 0%nat)
          then Some (true, reversePath path)
          else hasCycleLoop fuel order' adj visited'
      end
  end.

(** A recursion depth that [detectCycle] cannot exceed: one frame for the
    source, one for each distinct edge target that is being visited, and
    one for the call that finds a node already seen. *)
Definition cycleFuel (tb : defaultStaticTopologyBuilder) : nat :=
  S (S (length (Edges tb))).

Definition hasCycle (order : list string) (tb : defaultStaticTopologyBuilder)
  : option (bool * list string) :=
  hasCycleLoop (cycleFuel tb) order (mkAdj (Edges tb)) ∅.

(** The topology [Build] returns.  The destinations and connectors it
    allocates are not part of the embedded source; what is kept is the node
    maps and, for every edge, the channel made for it. The wiring loop
    looks up [dsts[e.From]] and [conns[e.To]], which exist for every edge
    added through a declarer. *)
Record defaultStaticTopology := {
  st_srcs : gmap string Source;
  st_boxes : gmap string (option Box);
  st_sinks : gmap string Sink;
  st_channels : list dataflowEdge
}.

(** [Build] returns the builder after the call and the error or the
    topology; [None] only when the cycle check ran out of fuel. *)
Definition Build (order : list string) (tb : defaultStaticTopologyBuilder)
  : option (defaultStaticTopologyBuilder * (error + defaultStaticTopology)) :=
  if builtFlag tb then Some (tb, inl ErrAlreadyBuilt)
  else if bool_decide (size (sources tb) = 0%nat) then Some (tb, inl ErrNoSource)
  else
    match hasCycle order tb with
    | None => None
    | Some (true, path) => Some (tb, inl (ErrCycle path))
    | Some (false, _) =>
        Some (set_builtFlag tb true,
              inr {| st_srcs := sources tb; st_boxes := boxes tb;
                     st_sinks := sinks tb; st_channels := Edges tb |})
    end.

(** The edges as a relation on node names, and what a cycle is. *)
Definition edge_rel (tb : defaultStaticTopologyBuilder) (u v : string) : Prop :=
  exists e, e ∈ Edges tb /\ From e = u /\ To e = v.

Definition has_cycle (tb : defaultStaticTopologyBuilder) : Prop :=
  exists u, tc (edge_rel tb) u u.

Definition has_reachable_cycle (tb : defaultStaticTopologyBuilder) : Prop :=
  exists s u, is_Some (sources tb !! s) /\ rtc (edge_rel tb) s u
              /\ tc (edge_rel tb) u u.

(** A path as [Build] reports it: every consecutive pair is an edge. *)
Definition is_path (tb : defaultStaticTopologyBuilder) (path : list string)
  : Prop :=
  forall i x y, path !! i = Some x -> path !! S i = Some y -> edge_rel tb x y.

(** *** Notions used to state the invariants of the depth-first search

    [visited] colours a node 0 (not yet seen), 1 (on the current search
    path) or 2 (finished); [E] is the edge relation of the graph. *)

Definition black (v : gmap string nat) (n : string) : Prop :=
  (2 <= color v n)%nat.
Definition succ_closed (E : string -> string -> Prop) (v : gmap string nat)
  : Prop :=
  forall u w, black v u -> E u w -> black v w.
Definition black_acyclic (E : string -> string -> Prop) (v : gmap string nat)
  : Prop :=
  forall u, black v u -> ~ tc E u u.
Definition ext (v v' : gmap string nat) : Prop :=
  forall n, color v' n = color v n \/ (color v n = 0 /\ color v' n = 2)%nat.
Definition ext_except (node : string) (v v' : gmap string nat) : Prop :=
  forall n, n <> node ->
    color v' n = color v n \/ (color v n = 0 /\ color v' n = 2)%nat.
Definition no_grey (v : gmap string nat) : Prop :=
  forall n, color v n <> 1%nat.

(** A path in the order [detectCycle] returns it: from the end of the cycle
    back to its start. *)
Definition revchain (E : string -> string -> Prop) (p : list string) : Prop :=
  forall i x y, p !! i = Some x -> p !! S i = Some y -> E y x.
Definition closedP (p : list string) : Prop :=
  (2 <= length p)%nat /\ head p = last p.

(** What a call that found a cycle returns: a closed path, or a path from a
    node on the current search path down to [node]. *)
Definition found (E : string -> string -> Prop) (k : nat)
  (R : string -> Prop) (v : gmap string nat)
  (node : string) (path : list string) : Prop :=
  revchain E path /\ Forall R path /\
  (closedP path \/
   (last path = Some node /\ (k <= length path)%nat /\
    exists g, head path = Some g /\ color v g = 1%nat)).

(** What a call that found no cycle leaves behind. *)
Definition finished (E : string -> string -> Prop) (v v' : gmap string nat)
  (node : string) : Prop :=
  ext v v' /\ succ_closed E v' /\ black_acyclic E v' /\ black v' node.

Definition rec_spec (E : string -> string -> Prop)
  (rec : string -> gmap string nat -> option (list string * gmap string nat))
  : Prop :=
  forall (R : string -> Prop) node v path v',
    (forall u w, R u -> E u w -> R w) -> R node ->
    succ_closed E v -> black_acyclic E v ->
    rec node v = Some (path, v') ->
    (path = [] -> finished E v v' node) /\
    (path <> [] -> found E 1 R v node path).

(** The measure of the search: the nodes an edge leads to that are still
    white. *)
Definition white (targets : gset string) (v : gmap string nat) : gset string :=
  filter (fun n => color v n = 0%nat) targets.
Definition fades (v v' : gmap string nat) : Prop :=
  forall n, color v' n = 0%nat -> color v n = 0%nat.
Definition targets (tb : defaultStaticTopologyBuilder) : gset string :=
  list_to_set (To <$> Edges tb).

(** *** Example builders *)

Definition box0 : Box := {| InputConstraints := inl None |}.
Definition src0 : Source := {| source_id := 0 |}.
Definition sink0 : Sink := {| sink_id := 0 |}.

(** s -> a -> b -> a: a cycle that is reachable from the source. *)
Definition tb_sab : defaultStaticTopologyBuilder :=
  {| sources := {[ "s" := src0 ]};
     boxes := {[ "a" := Some box0; "b" := Some box0 ]};
     boxpointers := 2; sinks := ∅;
     Edges := [ {| From := "s"; To := "a"; InputName := "*" |};
                {| From := "a"; To := "b"; InputName := "*" |};
                {| From := "b"; To := "a"; InputName := "*" |} ];
     builtFlag := false |}.

(** Box b with the two inputs s1 and s2. *)
Definition tb_two_inputs : defaultStaticTopologyBuilder :=
  {| sources := {[ "s1" := src0; "s2" := src0 ]};
     boxes := {[ "b" := Some box0 ]}; boxpointers := 1; sinks := ∅;
     Edges := [ {| From := "s1"; To := "b"; InputName := "*" |};
                {| From := "s2"; To := "b"; InputName := "*" |} ];
     builtFlag := false |}.

Definition bd_b : defaultBoxDeclarer :=
  {| bd_name := "b"; bd_box := Some box0; bd_err := None |}.
Definition dup_edge : dataflowEdge :=
  {| From := "s2"; To := "b"; InputName := "*" |}.

(** Sink k with the two inputs s1 and s2. *)
Definition tb_sink_inputs : defaultStaticTopologyBuilder :=
  {| sources := {[ "s1" := src0; "s2" := src0 ]};
     boxes := ∅; boxpointers := 0; sinks := {[ "k" := sink0 ]};
     Edges := [ {| From := "s1"; To := "k"; InputName := "output" |};
                {| From := "s2"; To := "k"; InputName := "output" |} ];
     builtFlag := false |}.
Definition sd_k : defaultSinkDeclarer :=
  {| sd_name := "k"; sd_sink := Some sink0; sd_err := None |}.
Definition dup_sink_edge : dataflowEdge :=
  {| From := "s2"; To := "k"; InputName := "output" |}.

(** The declarers of a box and of a sink whose names are taken. *)
Definition bd_failed : defaultBoxDeclarer :=
  snd (AddBox tb_two_inputs "s1" (Some box0)).
Definition sd_failed : defaultSinkDeclarer :=
  snd (AddSink tb_two_inputs "b" sink0).

(** A source s, and the boxes a and b feeding each other: a cycle no source
    leads to. *)
Definition tb_loop : defaultStaticTopologyBuilder :=
  {| sources := {[ "s" := src0 ]};
     boxes := {[ "a" := Some box0; "b" := Some box0 ]}; boxpointers := 2; sinks := ∅;
     Edges := [ {| From := "b"; To := "a"; InputName := "*" |};
                {| From := "a"; To := "b"; InputName := "*" |} ];
     builtFlag := false |}.

(** *** A client of the builder

    A client keeps the declarers that [AddBox] and [AddSink] return and
    calls [Input] on them; every declarer points to the one builder.  A
    [session] is the builder together with the declarers handed out so far
    (a declarer is known by its position) and the topologies [Build] has
    returned. *)
Record session := {
  s_tb : defaultStaticTopologyBuilder;
  s_sources : list defaultSourceDeclarer;
  s_boxes : list defaultBoxDeclarer;
  s_sinks : list defaultSinkDeclarer;
  s_built : list defaultStaticTopology
}.

Inductive builderCall :=
| CallAddSource (name : string) (source : Source)
| CallAddBox (name : string) (box : option Box)
    (* [AddBox]; the box may be nil *)
| CallAddSink (name : string) (sink : Sink)
| CallNamedInput (k : nat) (refname inputName : string)
    (* [NamedInput] on the [k]-th box declarer *)
| CallSinkInput (k : nat) (refname : string)
    (* [Input] on the [k]-th sink declarer *)
| CallBuild (order : list string).
    (* [Build], ranging over the sources in the order [order] *)

Definition newSession : session :=
  {| s_tb := NewDefaultStaticTopologyBuilder; s_sources := [];
     s_boxes := []; s_sinks := []; s_built := [] |}.

(** One call of the client; [None] is a run-time panic: [NamedInput]
    calling [InputConstraints] on the nil box of its declarer.  A call on a
    declarer the client does not hold cannot be made and leaves the session
    as it is. *)
Definition sessionCall (σ : session) (c : builderCall) : option session :=
  match c with
  | CallAddSource name source =>
      let '(tb, sd) := AddSource (s_tb σ) name source in
      Some {| s_tb := tb; s_sources := s_sources σ ++ [sd];
              s_boxes := s_boxes σ; s_sinks := s_sinks σ;
              s_built := s_built σ |}
  | CallAddBox name box =>
      let '(tb, bd) := AddBox (s_tb σ) name box in
      Some {| s_tb := tb; s_sources := s_sources σ;
              s_boxes := s_boxes σ ++ [bd]; s_sinks := s_sinks σ;
              s_built := s_built σ |}
  | CallAddSink name sink =>
      let '(tb, sd) := AddSink (s_tb σ) name sink in
      Some {| s_tb := tb; s_sources := s_sources σ;
              s_boxes := s_boxes σ; s_sinks := s_sinks σ ++ [sd];
              s_built := s_built σ |}
  | CallNamedInput k refname inputName =>
      match s_boxes σ !! k with
      | None => Some σ
      | Some bd =>
          match NamedInput (s_tb σ) bd refname inputName with
          | None => None
          | Some (tb, bd') =>
              Some {| s_tb := tb; s_sources := s_sources σ;
                      s_boxes := <[k := bd']> (s_boxes σ);
                      s_sinks := s_sinks σ; s_built := s_built σ |}
          end
      end
  | CallSinkInput k refname =>
      match s_sinks σ !! k with
      | None => Some σ
      | Some sd =>
          let '(tb, sd') := SinkInput (s_tb σ) sd refname in
          Some {| s_tb := tb; s_sources := s_sources σ;
                  s_boxes := s_boxes σ;
                  s_sinks := <[k := sd']> (s_sinks σ);
                  s_built := s_built σ |}
      end
  | CallBuild order =>
      match Build order (s_tb σ) with
      | None => None
      | Some (tb, inl _) =>
          Some {| s_tb := tb; s_sources := s_sources σ;
                  s_boxes := s_boxes σ; s_sinks := s_sinks σ;
                  s_built := s_built σ |}
      | Some (tb, inr st) =>
          Some {| s_tb := tb; s_sources := s_sources σ;
                  s_boxes := s_boxes σ; s_sinks := s_sinks σ;
                  s_built := s_built σ ++ [st] |}
      end
  end.

Fixpoint sessionCalls (σ : session) (cs : list builderCall) : option session :=
  match cs with
  | [] => Some σ
  | c :: cs' =>
      match sessionCall σ c with
      | None => None
      | Some σ' => sessionCalls σ' cs'
      end
  end.

(** A call that hands [AddBox] a nil box. *)
Definition addsNilBox (c : builderCall) : bool :=
  match c with
  | CallAddBox _ None => true
  | _ => false
  end.

(** The node names of a builder, by kind. *)
Definition isSource (tb : defaultStaticTopologyBuilder) (n : string) : Prop :=
  is_Some (sources tb !! n).
Definition isBox (tb : defaultStaticTopologyBuilder) (n : string) : Prop :=
  is_Some (boxes tb !! n).
Definition isSink (tb : defaultStaticTopologyBuilder) (n : string) : Prop :=
  is_Some (sinks tb !! n).

(** What every session keeps. *)
Record sessionInv (σ : session) : Prop := {
  inv_names :
    forall n, ~ (isSource (s_tb σ) n /\ isBox (s_tb σ) n) /\
              ~ (isSource (s_tb σ) n /\ isSink (s_tb σ) n) /\
              ~ (isBox (s_tb σ) n /\ isSink (s_tb σ) n);
  inv_edges :
    forall e, e ∈ Edges (s_tb σ) ->
      (isSource (s_tb σ) (From e) \/ isBox (s_tb σ) (From e)) /\
      (isBox (s_tb σ) (To e) \/ isSink (s_tb σ) (To e));
  inv_box_declarers :
    forall k bd, s_boxes σ !! k = Some bd -> bd_err bd = None ->
      boxes (s_tb σ) !! bd_name bd = Some (bd_box bd);
  inv_sink_declarers :
    forall k sd, s_sinks σ !! k = Some sd -> sd_err sd = None ->
      exists sink, sd_sink sd = Some sink /\ sinks (s_tb σ) !! sd_name sd = Some sink
}.

(** What holds of the declarers as long as no nil box was added: the ones
    without error have a box. *)
Definition boxedInv (σ : session) : Prop :=
  forall k bd, s_boxes σ !! k = Some bd -> bd_err bd = None ->
    is_Some (bd_box bd).

(** What holds of the topologies [Build] has returned after the calls [cs]
    on a new builder: there is at most one; it is the result of a [Build]
    call of [cs], made of the builder [s_tb σ1] as it was at that call; it
    has the nodes the builder has now and the edges the builder had at
    that call, which the edges the builder has now begin with. *)
Definition builtInv (cs : list builderCall) (σ : session) : Prop :=
  (s_built σ = [] /\ builtFlag (s_tb σ) = false) \/
  (exists st cs1 order cs2 σ1,
     s_built σ = [st] /\ builtFlag (s_tb σ) = true /\
     cs = cs1 ++ CallBuild order :: cs2 /\
     sessionCalls newSession cs1 = Some σ1 /\
     Build order (s_tb σ1) = Some (set_builtFlag (s_tb σ1) true, inr st) /\
     st_srcs st = sources (s_tb σ) /\ st_boxes st = boxes (s_tb σ) /\
     st_sinks st = sinks (s_tb σ) /\ sources (s_tb σ) <> ∅ /\
     st_channels st = Edges (s_tb σ1) /\
     Edges (s_tb σ1) `prefix_of` Edges (s_tb σ)).

(** *** Example sessions *)

(** A source, a nil box, and an input declared for that box. *)
Definition calls_nil_box : list builderCall :=
  [ CallAddSource "s" src0; CallAddBox "b" None; CallNamedInput 0 "s" "*" ].

(** A source s, a box b reading s, a sink k; the topology is built, and
    then the sink is made to read b. *)
Definition calls_built : list builderCall :=
  [ CallAddSource "s" src0; CallAddBox "b" (Some box0); CallAddSink "k" sink0;
    CallNamedInput 0 "s" "*"; CallBuild ["s"]; CallSinkInput 0 "b";
    CallAddBox "c" (Some box0) ].

Definition edge_sb : dataflowEdge :=
  {| From := "s"; To := "b"; InputName := "*" |}.
Definition edge_bk : dataflowEdge :=
  {| From := "b"; To := "k"; InputName := "output" |}.

Definition tb_built : defaultStaticTopologyBuilder :=
  {| sources := {[ "s" := src0 ]}; boxes := {[ "b" := Some box0 ]};
     boxpointers := 1; sinks := {[ "k" := sink0 ]};
     Edges := [ edge_sb; edge_bk ]; builtFlag := true |}.

Definition st_built : defaultStaticTopology :=
  {| st_srcs := {[ "s" := src0 ]}; st_boxes := {[ "b" := Some box0 ]};
     st_sinks := {[ "k" := sink0 ]}; st_channels := [ edge_sb ] |}.

Definition session_built : session :=
  {| s_tb := tb_built;
     s_sources := [ {| srcd_err := None |} ];
     s_boxes := [ {| bd_name := "b"; bd_box := Some box0; bd_err := None |};
                  {| bd_name := ""; bd_box := None;
                     bd_err := Some ErrAlreadyBuilt |} ];
     s_sinks := [ {| sd_name := "k"; sd_sink := Some sink0; sd_err := None |} ];
     s_built := [ st_built ] |}.

End Core.

(** ** Package bql: the BQL box *)

Module BQL.

(** [parser.EmitterSamplingType], as [bqlBox] uses it. *)
Inductive EmitterSamplingType :=
| UnspecifiedSamplingType
| CountBasedSampling
| RandomizedSampling
| TimeBasedSampling.

#[global] Instance EmitterSamplingType_eq_dec : EqDecision EmitterSamplingType.
Proof. solve_decision. Defined.

Definition error := string.
Definition Value := string.

Record TraceEvent := { ev_time : Z; ev_type : nat; ev_msg : string }.

Record Tuple := {
  Data : Value;
  Timestamp : Z;
  ProcTimestamp : Z;
  BatchID : Z;
  Trace : list TraceEvent
}.

(** A [core.Writer] and the [removeMe] function are known by their
    identity only; what they do is recorded as an [event]. *)
Record Writer := { writer_id : nat }.
Record Callback := { callback_id : nat }.

#[global] Instance Callback_eq_dec : EqDecision Callback.
Proof. solve_decision. Defined.

Inductive event :=
| EvWrite (w : Writer) (t : Tuple) (res : option error)
    (* the call [w.Write(ctx, t)] and the error it returned *)
| EvErrLog (err : error) (w : Writer)
    (* [ctx.ErrLog(err)...Error("Cannot write tuple")] *)
| EvRemoveMe (cb : Callback).
    (* the call [b.removeMe()] *)

(** The fields of [bqlBox] that [Process], [timeEmitter] and [Terminate]
    read or write.  The statement, the function registry and the execution
    plan are external: what the plan returns is an input of [Process].  The
    two mutexes are represented by the atomicity of the steps below. *)
Record bqlBox := {
  emitterLimit : Z;
  emitterSampling : Z;
  emitterSamplingType : EmitterSamplingType;
  genCount : Z;
  emitCount : Z;
  lastTuple : option Tuple;
  lastWriter : option Writer;
  stopped : bool;
  removeMe : option Callback
}.

Definition NewBQLBox : bqlBox :=
  {| emitterLimit := 0; emitterSampling := 0;
     emitterSamplingType := UnspecifiedSamplingType;
     genCount := 0; emitCount := 0; lastTuple := None; lastWriter := None;
     stopped := false; removeMe := None |}.

Definition set_emitter (b : bqlBox) (l k : Z) (ty : EmitterSamplingType) :=
  {| emitterLimit := l; emitterSampling := k; emitterSamplingType := ty;
     genCount := genCount b; emitCount := emitCount b;
     lastTuple := lastTuple b; lastWriter := lastWriter b;
     stopped := stopped b; removeMe := removeMe b |}.
Definition set_genCount (b : bqlBox) (v : Z) :=
  {| emitterLimit := emitterLimit b; emitterSampling := emitterSampling b;
     emitterSamplingType := emitterSamplingType b;
     genCount := v; emitCount := emitCount b;
     lastTuple := lastTuple b; lastWriter := lastWriter b;
     stopped := stopped b; removeMe := removeMe b |}.
Definition set_emitCount (b : bqlBox) (v : Z) :=
  {| emitterLimit := emitterLimit b; emitterSampling := emitterSampling b;
     emitterSamplingType := emitterSamplingType b;
     genCount := genCount b; emitCount := v;
     lastTuple := lastTuple b; lastWriter := lastWriter b;
     stopped := stopped b; removeMe := removeMe b |}.
Definition set_lastTuple (b : bqlBox) (v : option Tuple) :=
  {| emitterLimit := emitterLimit b; emitterSampling := emitterSampling b;
     emitterSamplingType := emitterSamplingType b;
     genCount := genCount b; emitCount := emitCount b;
     lastTuple := v; lastWriter := lastWriter b;
     stopped := stopped b; removeMe := removeMe b |}.
Definition set_lastWriter (b : bqlBox) (v : option Writer) :=
  {| emitterLimit := emitterLimit b; emitterSampling := emitterSampling b;
     emitterSamplingType := emitterSamplingType b;
     genCount := genCount b; emitCount := emitCount b;
     lastTuple := lastTuple b; lastWriter := v;
     stopped := stopped b; removeMe := removeMe b |}.
Definition set_stopped (b : bqlBox) (v : bool) :=
  {| emitterLimit := emitterLimit b; emitterSampling := emitterSampling b;
     emitterSamplingType := emitterSamplingType b;
     genCount := genCount b; emitCount := emitCount b;
     lastTuple := lastTuple b; lastWriter := lastWriter b;
     stopped := v; removeMe := removeMe b |}.
Definition set_removeMe (b : bqlBox) (v : option Callback) :=
  {| emitterLimit := emitterLimit b; emitterSampling := emitterSampling b;
     emitterSamplingType := emitterSamplingType b;
     genCount := genCount b; emitCount := emitCount b;
     lastTuple := lastTuple b; lastWriter := lastWriter b;
     stopped := stopped b; removeMe := v |}.

(** What [execution.Analyze] hands to [Init]. *)
Record AnalyzedPlan := {
  EmitterLimit : Z;
  EmitterSampling : Z;
  EmitterSamplingType_ : EmitterSamplingType
}.

(** [Init]: [analyzed] is the result of [execution.Analyze], [optimizeErr]
    and [physicalErr] the errors of [LogicalOptimize] and
    [MakePhysicalPlan].  Returns the box, whether the [timeEmitter]
    goroutine was started, and the error. *)
Definition Init (b : bqlBox) (analyzed : AnalyzedPlan + error)
  (optimizeErr physicalErr : option error) : bqlBox * bool * option error :=
  match analyzed with
  | inr err => (b, false, Some err)
  | inl analyzedPlan =>
      let b1 := set_emitter b (EmitterLimit analyzedPlan)
                  (EmitterSampling analyzedPlan)
                  (EmitterSamplingType_ analyzedPlan) in
      match optimizeErr with
      | Some err => (b1, false, Some err)
      | None =>
          match physicalErr with
          | Some err => (b1, false, Some err)
          | None =>
              (b1,
               bool_decide (emitterSamplingType b1 = TimeBasedSampling),
               None)
          end
      end
  end.

(** [b.emitterLimit >= 0 && b.emitCount >= b.emitterLimit] *)
Definition limitReached (b : bqlBox) : bool :=
  (0 <=? emitterLimit b) && (emitterLimit b <=? emitCount b).

(** One generated row together with what the environment answers while the
    row is handled: the value [rand.Int63n(100)] returns if it is called,
    and the error [s.Write] returns if it is called. *)
Record genItem := {
  item_data : Value;
  item_rand : Z;
  item_werr : option error
}.

(** The tuple built for a row.  The trace is copied, so the new tuple has
    the events of [t]. *)
Definition mkTuple (t : Tuple) (data : Value) : Tuple :=
  {| Data := data; Timestamp := Timestamp t;
     ProcTimestamp := ProcTimestamp t; BatchID := BatchID t;
     Trace := Trace t |}.

Inductive itemOutcome :=
| ItemNext                 (* go on with the next row *)
| ItemBreak                (* [break] *)
| ItemReturn (err : error) (* [return err] *)
| ItemPanic.               (* run-time panic *)

(** The end of the loop body: the write, the count and the limit check.
    A nil writer panics when [Write] is called on it. *)
Definition writeAndCount (b : bqlBox) (s : option Writer) (tup : Tuple)
  (shouldWriteTuple : bool) (werr : option error)
  : bqlBox * list event * itemOutcome :=
  if shouldWriteTuple then
    match s with
    | None => (b, [], ItemPanic)
    | Some w =>
        match werr with
        | Some err => (b, [EvWrite w tup (Some err)], ItemReturn err)
        | None =>
            let b' := set_emitCount b (wrap64 (emitCount b + 1)) in
            (b', [EvWrite w tup None],
             if limitReached b' then ItemBreak else ItemNext)
        end
    end
  else (b, [], if limitReached b then ItemBreak else ItemNext).

(** One iteration of the loop over [resultData].  Go's [%] on [int64] is
    the truncated remainder and panics on a zero divisor. *)
Definition processItem (b : bqlBox) (t : Tuple) (s : option Writer)
  (it : genItem) : bqlBox * list event * itemOutcome :=
  let tup := mkTuple t (item_data it) in
  match emitterSamplingType b with
  | CountBasedSampling =>
      if emitterSampling b =? 0 then (b, [], ItemPanic)
      else
        let shouldWriteTuple :=
          Z.rem (genCount b) (emitterSampling b) =? 0 in
        let b1 := set_genCount b (wrap64 (genCount b + 1)) in
        writeAndCount b1 s tup shouldWriteTuple (item_werr it)
  | RandomizedSampling =>
      writeAndCount b s tup (item_rand it <? emitterSampling b) (item_werr it)
  | TimeBasedSampling =>
      (set_lastWriter (set_lastTuple b (Some tup)) s, [], ItemNext)
  | UnspecifiedSamplingType =>
      writeAndCount b s tup true (item_werr it)
  end.

Fixpoint processLoop (b : bqlBox) (t : Tuple) (s : option Writer)
  (resultData : list genItem) : bqlBox * list event * itemOutcome :=
  match resultData with
  | [] => (b, [], ItemNext)
  | it :: rest =>
      match processItem b t s it with
      | (b1, ev1, ItemNext) =>
          let '(b2, ev2, o) := processLoop b1 t s rest in (b2, ev1 ++ ev2, o)
      | r => r
      end
  end.

(** "remove this box if we are over the limit" *)
Definition processFinish (b : bqlBox) : bqlBox * list event :=
  if limitReached b then
    match removeMe b with
    | Some cb => (set_removeMe b None, [EvRemoveMe cb])
    | None => (b, [])
    end
  else (b, []).

Inductive result :=
| RetNil
| RetErr (err : error)
| RetPanic.

(** [Process], run without interference: [plan] is what
    [b.execPlan.Process(t)] returns.  The result is the box after the call,
    the events of the call in order, and what the call returns. *)
Definition Process (b : bqlBox) (t : Tuple) (plan : list genItem + error)
  (s : option Writer) : bqlBox * list event * result :=
  if limitReached b then (b, [], RetNil)
  else
    match plan with
    | inr err => (b, [], RetErr err)
    | inl resultData =>
        match processLoop b t s resultData with
        | (b1, ev1, ItemReturn err) => (b1, ev1, RetErr err)
        | (b1, ev1, ItemPanic) => (b1, ev1, RetPanic)
        | (b1, ev1, _) =>
            let '(b2, ev2) := processFinish b1 in (b2, ev1 ++ ev2, RetNil)
        end
    end.

(** The body of the loop of [timeEmitter] for one tick, all of it under
    [timeEmitterMutex]; [hasCtx] tells whether [ctx] is non-nil and [werr]
    is what [lastWriter.Write] returns if it is called. *)
Definition timeEmitterTick (hasCtx : bool) (b : bqlBox) (werr : option error)
  : bqlBox * list event :=
  if stopped b then (b, [])
  else
    match lastTuple b, lastWriter b with
    | Some tup, Some w =>
        let logged :=
          match werr with
          | Some err => if hasCtx then [EvErrLog err w] else []
          | None => []
          end in
        let b1 := set_lastTuple b None in
        let b2 := set_emitCount b1 (wrap64 (emitCount b1 + 1)) in
        if limitReached b2 then
          let b3 := set_stopped b2 true in
          match removeMe b3 with
          | Some cb =>
              (set_removeMe b3 None,
               EvWrite w tup werr :: logged ++ [EvRemoveMe cb])
          | None => (b3, EvWrite w tup werr :: logged)
          end
        else (b2, EvWrite w tup werr :: logged)
    | _, _ => (b, [])
    end.

Definition Terminate (b : bqlBox) : bqlBox * result :=
  (set_stopped b true, RetNil).

(** *** The box and its goroutines

    [Process] calls exclude each other ([b.mutex]); the time emitter and
    [Terminate] run concurrently with them, each of their critical
    sections being atomic ([b.timeEmitterMutex]).  A [Process] call in
    progress is a [frame] holding the rows still to be handled; it advances
    by one loop iteration at a time, and by the closing "remove this box"
    block once no row is left.  In a box whose sampling is not time-based
    no emitter runs and [Terminate] writes a field that [Process] never
    reads, so taking a whole iteration as one step loses no behaviour; in
    a time-based box an iteration is exactly one critical section. *)

Record frame := {
  f_t : Tuple;
  f_s : option Writer;
  f_items : list genItem
}.

Record sys := {
  box : bqlBox;
  emitter : bool;        (* the [timeEmitter] goroutine is running *)
  hasCtx : bool;         (* the [ctx] given to [Init] is non-nil *)
  pc : option frame;     (* the [Process] call in progress *)
  trace : list event     (* everything done so far, oldest first *)
}.

Inductive label :=
| LProcess (t : Tuple) (plan : list genItem + error) (s : option Writer)
    (* a call of [Process] begins *)
| LStep
    (* the call in progress advances *)
| LTick (werr : option error)
    (* the ticker fires *)
| LTerminate.
    (* a call of [Terminate] *)

Definition set_box_pc (σ : sys) (b : bqlBox) (p : option frame)
  (evs : list event) : sys :=
  {| box := b; emitter := emitter σ; hasCtx := hasCtx σ; pc := p;
     trace := trace σ ++ evs |}.

(** A label that cannot happen in a state (a second [Process] while one
    holds the mutex, a tick without an emitter) leaves it as it is. *)
Definition step (σ : sys) (l : label) : sys :=
  match l with
  | LProcess t plan s =>
      match pc σ with
      | Some _ => σ
      | None =>
          if limitReached (box σ) then σ
          else match plan with
               | inr _ => σ
               | inl resultData =>
                   set_box_pc σ (box σ)
                     (Some {| f_t := t; f_s := s; f_items := resultData |}) []
               end
      end
  | LStep =>
      match pc σ with
      | None => σ
      | Some fr =>
          match f_items fr with
          | [] =>
              let '(b, evs) := processFinish (box σ) in set_box_pc σ b None evs
          | it :: rest =>
              match processItem (box σ) (f_t fr) (f_s fr) it with
              | (b, evs, ItemNext) =>
                  set_box_pc σ b
                    (Some {| f_t := f_t fr; f_s := f_s fr; f_items := rest |})
                    evs
              | (b, evs, ItemBreak) =>
                  set_box_pc σ b
                    (Some {| f_t := f_t fr; f_s := f_s fr; f_items := [] |})
                    evs
              | (b, evs, _) => set_box_pc σ b None evs
              end
          end
      end
  | LTick werr =>
      if emitter σ
      then let '(b, evs) := timeEmitterTick (hasCtx σ) (box σ) werr in
           set_box_pc σ b (pc σ) evs
      else σ
  | LTerminate => set_box_pc σ (fst (Terminate (box σ))) (pc σ) []
  end.

Definition run (σ : sys) (ls : list label) : sys := foldl step σ ls.

(** The box after [NewBQLBox], the installation of [removeMe] and a
    successful [Init]. *)
Definition boot (cb : option Callback) (ap : AnalyzedPlan) (ctx : bool) : sys :=
  let '(b, started, _) := Init (set_removeMe NewBQLBox cb) (inl ap) None None in
  {| box := b; emitter := started; hasCtx := ctx; pc := None; trace := [] |}.

(** The tuples that were written, that is handed to a [Write] that
    returned no error; the calls of [Write]; the calls of [removeMe]. *)
Definition is_written (e : event) : bool :=
  match e with EvWrite _ _ None => true | _ => false end.
Definition is_write_call (e : event) : bool :=
  match e with EvWrite _ _ _ => true | _ => false end.
Definition is_remove (e : event) : bool :=
  match e with EvRemoveMe _ => true | _ => false end.

Definition written (tr : list event) : list event := filter is_written tr.
Definition write_calls (tr : list event) : list event := filter is_write_call tr.
Definition removals (tr : list event) : list event := filter is_remove tr.

(** *** Notions used to state the invariants of the box *)

Definition same_config (b b' : bqlBox) : Prop :=
  emitterLimit b' = emitterLimit b /\ emitterSampling b' = emitterSampling b /\
  emitterSamplingType b' = emitterSamplingType b.

(** What holds in every state of a box with the limit [L]. *)
Record Inv (L : Z) (σ : sys) : Prop := {
  inv_limit : emitterLimit (box σ) = L;
  inv_count : 0 <= emitCount (box σ) <= L;
  inv_written : Z.of_nat (length (written (trace σ))) <= emitCount (box σ);
  inv_emitter :
    emitter σ = true -> emitterSamplingType (box σ) = TimeBasedSampling;
  inv_time :
    emitterSamplingType (box σ) = TimeBasedSampling ->
    emitCount (box σ) < L \/ stopped (box σ) = true \/
    (lastTuple (box σ) = None /\ pc σ = None);
  inv_loop :
    emitterSamplingType (box σ) <> TimeBasedSampling ->
    forall fr, pc σ = Some fr -> f_items fr <> [] -> emitCount (box σ) < L
}.

(** The calls of [removeMe] still to come: one while the field is set. *)
Definition pending (b : bqlBox) : nat :=
  match removeMe b with Some _ => 1%nat | None => 0%nat end.

Definition cfg (b : bqlBox) (k L : Z) : Prop :=
  emitterSamplingType b = CountBasedSampling /\ emitterSampling b = k /\
  emitterLimit b = L.

Definition emit1 (t : Tuple) (w : Writer) (it : genItem) : event :=
  EvWrite w (mkTuple t (item_data it)) None.

End BQL.

(** ** Count-based sampling on the list of generated rows

    What count-based sampling emits, stated directly on the rows; the box
    is compared with it below. *)

(** [⌈n/k⌉] for a positive [k]. *)
Definition ceil_div (n k : Z) : Z := (n + k - 1) / k.

(** The rows of [rows] whose generation count, counted from [g], is a
    multiple of [k]. *)
Fixpoint sampled {A} (k g : Z) (rows : list A) : list A :=
  match rows with
  | [] => []
  | r :: rest =>
      if g mod k =? 0 then r :: sampled k (g + 1) rest
      else sampled k (g + 1) rest
  end.

(** A sequence of [Process] calls on one box, each with the tuple, the rows
    the plan generates for it and a (non-nil) writer. *)
Definition call : Type := BQL.Tuple * list BQL.genItem * BQL.Writer.

Fixpoint runProcess (b : BQL.bqlBox) (calls : list call)
  : BQL.bqlBox * list BQL.event :=
  match calls with
  | [] => (b, [])
  | (t, items, w) :: rest =>
      let '(b1, ev1, _) := BQL.Process b t (inl items) (Some w) in
      let '(b2, ev2) := runProcess b1 rest in
      (b2, ev1 ++ ev2)
  end.

(** All the rows of the calls, in generation order, each with the tuple and
    the writer of its call; and the write that emits a row. *)
Definition rowsOf (calls : list call)
  : list (BQL.Tuple * BQL.Writer * BQL.genItem) :=
  flat_map (fun '(t, items, w) => (fun it => (t, w, it)) <$> items) calls.

Definition emission (r : BQL.Tuple * BQL.Writer * BQL.genItem) : BQL.event :=
  let '(t, w, it) := r in
  BQL.EvWrite w (BQL.mkTuple t (BQL.item_data it)) None.

(** Example boxes and calls. *)
Module BQLExamples.
Import BQL.

Definition t0 : Tuple :=
  {| Data := "in"; Timestamp := 0; ProcTimestamp := 0; BatchID := 0;
     Trace := [] |}.
Definition w0 : Writer := {| writer_id := 0 |}.
Definition row (d : Value) : genItem :=
  {| item_data := d; item_rand := 0; item_werr := None |}.

(** LIMIT 2 *)
Definition ap_limit2 : AnalyzedPlan :=
  {| EmitterLimit := 2; EmitterSampling := 0;
     EmitterSamplingType_ := UnspecifiedSamplingType |}.
(** A call that generates three rows, run to its end, and a second call. *)
Definition ls_limit2 : list label :=
  [ LProcess t0 (inl [row "a"; row "b"; row "c"]) (Some w0);
    LStep; LStep; LStep; LStep;
    LProcess t0 (inl [row "d"]) (Some w0); LStep; LStep ].

(** EVERY 3-RD TUPLE, no limit *)
Definition ap_every3 : AnalyzedPlan :=
  {| EmitterLimit := -1; EmitterSampling := 3;
     EmitterSamplingType_ := CountBasedSampling |}.
(** Ten rows, generated by two calls. *)
Definition calls10 : list call :=
  [ (t0, row <$> ["0"; "1"; "2"; "3"], w0);
    (t0, row <$> ["4"; "5"; "6"; "7"; "8"; "9"], w0) ].

(** EVERY 100 MILLISECONDS, no limit *)
Definition ap_time : AnalyzedPlan :=
  {| EmitterLimit := -1; EmitterSampling := 100;
     EmitterSamplingType_ := TimeBasedSampling |}.
Definition b_time : bqlBox := box (boot None ap_time true).

End BQLExamples.

(** ** Sampling and the limit on the list of generated rows

    What a box that is not time-based emits, stated directly on the rows:
    the decision for the row with generation count [g], the rows selected
    by it, and the cut at the limit. *)
Module BQLSelect.
Import BQL BQLExamples.

Definition shouldWrite (ty : EmitterSamplingType) (k g : Z) (it : genItem)
  : bool :=
  match ty with
  | UnspecifiedSamplingType => true
  | CountBasedSampling => g mod k =? 0
  | RandomizedSampling => item_rand it <? k
  | TimeBasedSampling => false
  end.

Fixpoint selectBy {A} (d : Z -> A -> bool) (g : Z) (rows : list A) : list A :=
  match rows with
  | [] => []
  | r :: rest =>
      if d g r then r :: selectBy d (g + 1) rest else selectBy d (g + 1) rest
  end.

(** The first [L - e] elements: what a limit [L] leaves of [l] once [e]
    tuples have been emitted; a negative [L] is no limit. *)
Definition budget {A} (L e : Z) (l : list A) : list A :=
  if L <? 0 then l else take (Z.to_nat (L - e)) l.

Definition conf (b : bqlBox) (ty : EmitterSamplingType) (k L : Z) : Prop :=
  emitterSamplingType b = ty /\ emitterSampling b = k /\ emitterLimit b = L.

(** The calls of [removeMe] a callback stands for. *)
Definition fired (cb : option Callback) : list event :=
  match cb with Some c => [EvRemoveMe c] | None => [] end.

(** The call of [Write] for a row, with the answer of the writer. *)
Definition writeOf (t : Tuple) (w : Writer) (it : genItem) : event :=
  EvWrite w (mkTuple t (item_data it)) (item_werr it).

(** Example boxes and rows. *)
Definition cb7 : Callback := {| callback_id := 7 |}.
Definition ap_random100 : AnalyzedPlan :=
  {| EmitterLimit := -1; EmitterSampling := 100;
     EmitterSamplingType_ := RandomizedSampling |}.
Definition ap_plain : AnalyzedPlan :=
  {| EmitterLimit := -1; EmitterSampling := 0;
     EmitterSamplingType_ := UnspecifiedSamplingType |}.
Definition b_plain : bqlBox := box (boot None ap_plain true).
Definition rows_fail : list genItem :=
  [ row "a";
    {| item_data := "b"; item_rand := 0; item_werr := Some "disk full" |};
    row "c" ].

End BQLSelect.

(** ** Package bql: the statement-driven topology builder *)

Module Builder.

(** Modelled from the spec: package [parser] is not part of the embedded
    source.  The statement types carry the fields [AddStmt] reads and
    writes; the specification names the clauses they stand for ([RANGE n
    TUPLES], the [RSTREAM] emitter).  The projections, the filter, the
    grouping and the having clause are passed through untouched and are
    kept as opaque text. *)
Inductive IntervalUnit := UnspecifiedIntervalUnit | Tuples | Seconds.
Inductive Emitter := UnspecifiedEmitter | Istream | Dstream | Rstream.

#[global] Instance IntervalUnit_eq_dec : EqDecision IntervalUnit.
Proof. solve_decision. Defined.
#[global] Instance Emitter_eq_dec : EqDecision Emitter.
Proof. solve_decision. Defined.

(** [parser.IntervalAST{NumericLiteral, IntervalUnit}] *)
Record IntervalAST := { Value : Z; Unit : IntervalUnit }.

(** [parser.AliasedStreamWindowAST]: [rel.Name], the embedded
    [IntervalAST] and the alias. *)
Record AliasedStreamWindowAST := {
  Name : string;
  Interval : IntervalAST;
  Alias : string
}.

(** [parser.EmitterAST{EmitterType, EmitterOptions}] *)
Record EmitterAST := { EmitterType : Emitter; EmitterOptions : list string }.

Record CreateStreamAsSelectStmt := {
  cs_Name : string;
  cs_EmitterAST : EmitterAST;
  cs_ProjectionsAST : string;
  cs_Relations : list AliasedStreamWindowAST;
  cs_FilterAST : string;
  cs_GroupingAST : string;
  cs_HavingAST : string
}.

Record InsertIntoSelectStmt := {
  ii_Sink : string;
  ii_EmitterAST : EmitterAST;
  ii_ProjectionsAST : string;
  ii_Relations : list AliasedStreamWindowAST;
  ii_FilterAST : string;
  ii_GroupingAST : string;
  ii_HavingAST : string
}.

(** The statements [AddStmt] is embedded for.  The cases for
    [CreateSourceStmt], [CreateSinkStmt] and [CreateStateStmt] call the
    creator registries and are not embedded; [OtherStmt] is a value of any
    type the switch has no case for. *)
Inductive Stmt :=
| CreateStreamAsSelect (stmt : CreateStreamAsSelectStmt)
| InsertIntoSelect (stmt : InsertIntoSelectStmt)
| OtherStmt (type : string).

Inductive error :=
| ErrTopology (msg : string)
    (* an error returned by the topology *)
| ErrRangeWithInsert
    (* "you cannot use a RANGE clause with an INSERT INTO statement at the
       moment" *)
| ErrEmitterWithInsert (e : Emitter)
    (* "you cannot use a %s clause with an INSERT INTO statement at the
       moment" *)
| ErrUnimplemented (type : string).
    (* "statement of type %T is unimplemented" *)

(** [core.BoxInputConfig] *)
Record BoxInputConfig := { InputName : string }.

(** [core.DynamicTopology] and the nodes it hands out are an interface
    whose implementation is not part of the embedded source: the builder
    is embedded over any implementation.  A node is known by its name; the
    box of a statement is known by the statement ([NewBQLBox(&stmt,
    tb.Reg)]).  Every operation returns the error ([None] for nil) and the
    topology after the call. *)
Class DynamicTopology (T : Type) := {
  (* [t.AddBox(name, box, nil)] *)
  topo_AddBox : string -> CreateStreamAsSelectStmt -> T -> option error * T;
  (* [t.Sink(name)] *)
  topo_Sink : string -> T -> option error;
  (* [node.Input(refname, config)] on the box or sink [node] *)
  topo_Input : string -> string -> option BoxInputConfig -> T -> option error * T;
  (* [node.StopOnDisconnect()] *)
  topo_StopOnDisconnect : string -> T -> T;
  (* [t.Remove(name)] *)
  topo_Remove : string -> T -> option error * T;
  (* whether the topology has a node of that name *)
  topo_has : string -> T -> bool
}.


(** The builder: its topology and the package-level counter
    [topologyBuilderTemporaryID], which every builder shares. *)
Record TopologyBuilder (T : Type) := {
  topology : T;
  topologyBuilderTemporaryID : Z
}.
Arguments topology {T} _.
Arguments topologyBuilderTemporaryID {T} _.

Section AddStmt.
Context {T : Type} `{DynamicTopology T}.

Definition set_topology (tb : TopologyBuilder T) (t : T) : TopologyBuilder T :=
  {| topology := t;
     topologyBuilderTemporaryID := topologyBuilderTemporaryID tb |}.

(** The loop that adds "all the referenced relations as named inputs"; it
    stops at the first error. *)
Fixpoint connectInputs (dbox : string) (rels : list AliasedStreamWindowAST)
  (t : T) : option error * T :=
  match rels with
  | [] => (None, t)
  | rel :: rest =>
      match topo_Input dbox (Name rel) (Some {| InputName := Name rel |}) t with
      | (Some err, t1) => (Some err, t1)
      | (None, t1) => connectInputs dbox rest t1
      end
  end.

(** The case [parser.CreateStreamAsSelectStmt] of [AddStmt]. *)
Definition addCreateStreamAsSelect (stmt : CreateStreamAsSelectStmt) (t : T)
  : (string + error) * T :=
  let outName := cs_Name stmt in
  match topo_AddBox outName stmt t with
  | (Some err, t1) => (inr err, t1)
  | (None, t1) =>
      match connectInputs outName (cs_Relations stmt) t1 with
      | (Some err, t2) => (inr err, snd (topo_Remove outName t2))
      | (None, t2) => (inl outName, topo_StopOnDisconnect outName t2)
      end
  end.

(** The loop over [stmt.Relations] of the INSERT INTO case: [None] when a
    relation has a RANGE clause, otherwise the relations with
    [RANGE 1 TUPLES]. *)
Fixpoint mkNewRels (rels : list AliasedStreamWindowAST)
  : option (list AliasedStreamWindowAST) :=
  match rels with
  | [] => Some []
  | from :: rest =>
      if bool_decide (Unit (Interval from) <> UnspecifiedIntervalUnit)
      then None
      else
        match mkNewRels rest with
        | None => None
        | Some newRels =>
            Some ({| Name := Name from;
                     Interval := {| Value := 1; Unit := Tuples |};
                     Alias := Alias from |} :: newRels)
        end
  end.

Definition tmpNameOf (id : Z) : string := "sensorbee_tmp_" +:+ pretty id.

Definition tmpStmtOf (stmt : InsertIntoSelectStmt) (tmpName : string)
  (newRels : list AliasedStreamWindowAST) : CreateStreamAsSelectStmt :=
  {| cs_Name := tmpName;
     cs_EmitterAST := {| EmitterType := Rstream; EmitterOptions := [] |};
     cs_ProjectionsAST := ii_ProjectionsAST stmt;
     cs_Relations := newRels;
     cs_FilterAST := ii_FilterAST stmt;
     cs_GroupingAST := ii_GroupingAST stmt;
     cs_HavingAST := ii_HavingAST stmt |}.

(** The case [parser.InsertIntoSelectStmt] of [AddStmt].  The recursive
    call [tb.AddStmt(tmpStmt)] is on a [CreateStreamAsSelectStmt] and is
    the case above. *)
Definition addInsertIntoSelect (stmt : InsertIntoSelectStmt)
  (tb : TopologyBuilder T) : (string + error) * TopologyBuilder T :=
  match topo_Sink (ii_Sink stmt) (topology tb) with
  | Some err => (inr err, tb)
  | None =>
      let id := wrap64 (topologyBuilderTemporaryID tb + 1) in
      let tb1 := {| topology := topology tb;
                    topologyBuilderTemporaryID := id |} in
      let tmpName := tmpNameOf id in
      match mkNewRels (ii_Relations stmt) with
      | None => (inr ErrRangeWithInsert, tb1)
      | Some newRels =>
          if bool_decide (EmitterType (ii_EmitterAST stmt) <> UnspecifiedEmitter)
          then (inr (ErrEmitterWithInsert (EmitterType (ii_EmitterAST stmt))),
                tb1)
          else
            let tmpStmt := tmpStmtOf stmt tmpName newRels in
            match addCreateStreamAsSelect tmpStmt (topology tb1) with
            | (inr err, t1) => (inr err, set_topology tb1 t1)
            | (inl box, t1) =>
                let t2 := topo_StopOnDisconnect box t1 in
                match topo_Input (ii_Sink stmt) tmpName None t2 with
                | (Some err, t3) =>
                    (inr err, set_topology tb1 (snd (topo_Remove tmpName t3)))
                | (None, t3) => (inl box, set_topology tb1 t3)
                end
            end
      end
  end.

Definition AddStmt (stmt : Stmt) (tb : TopologyBuilder T)
  : (string + error) * TopologyBuilder T :=
  match stmt with
  | CreateStreamAsSelect stmt =>
      let '(r, t) := addCreateStreamAsSelect stmt (topology tb) in
      (r, set_topology tb t)
  | InsertIntoSelect stmt => addInsertIntoSelect stmt tb
  | OtherStmt type => (inr (ErrUnimplemented type), tb)
  end.

(** Some relation of the statement has a RANGE clause. *)
Definition has_range (rels : list AliasedStreamWindowAST) : Prop :=
  Exists (fun r => Unit (Interval r) <> UnspecifiedIntervalUnit) rels.

(** The CREATE STREAM statement [AddStmt] builds for an INSERT INTO
    statement without RANGE clause. *)
Definition desugared (stmt : InsertIntoSelectStmt) (tb : TopologyBuilder T)
  : CreateStreamAsSelectStmt :=
  tmpStmtOf stmt (tmpNameOf (wrap64 (topologyBuilderTemporaryID tb + 1)))
    (default [] (mkNewRels (ii_Relations stmt))).

End AddStmt.

(** Modelled from the spec: the runtime topology ([core.DynamicTopology])
    is not part of the embedded source.  This small in-memory topology
    follows what the specification says of the runtime: node names are
    unique across sources, boxes and sinks; [Input] needs the node to
    exist and the referenced source or box to exist; [Remove] drops the
    node and its edges and fails on an absent node without side effects.
    The cycle check of the runtime is left out. *)
Inductive nodeKind :=
| KSource
| KBox (stmt : CreateStreamAsSelectStmt)
| KSink.

Record memTopology := {
  mt_nodes : gmap string nodeKind;
  mt_edges : list (string * string * string);   (* from, to, input name *)
  mt_stopOnDisconnect : list string
}.

Definition mt_isOutput (t : memTopology) (name : string) : bool :=
  match mt_nodes t !! name with
  | Some KSource | Some (KBox _) => true
  | _ => false
  end.

#[global] Instance memTopology_DynamicTopology : DynamicTopology memTopology := {
  topo_AddBox name stmt t :=
    match mt_nodes t !! name with
    | Some _ => (Some (ErrTopology "the name is already used"), t)
    | None =>
        (None, {| mt_nodes := <[name := KBox stmt]> (mt_nodes t);
                  mt_edges := mt_edges t;
                  mt_stopOnDisconnect := mt_stopOnDisconnect t |})
    end;
  topo_Sink name t :=
    match mt_nodes t !! name with
    | Some KSink => None
    | _ => Some (ErrTopology "no such sink")
    end;
  topo_Input node refname config t :=
    match mt_nodes t !! node with
    | None => (Some (ErrTopology "no such node"), t)
    | Some _ =>
        if mt_isOutput t refname
        then
          let inputName :=
            match config with Some c => InputName c | None => "*" end in
          (None, {| mt_nodes := mt_nodes t;
                    mt_edges := mt_edges t ++ [(refname, node, inputName)];
                    mt_stopOnDisconnect := mt_stopOnDisconnect t |})
        else (Some (ErrTopology "no such source or box"), t)
    end;
  topo_StopOnDisconnect node t :=
    {| mt_nodes := mt_nodes t; mt_edges := mt_edges t;
       mt_stopOnDisconnect := mt_stopOnDisconnect t ++ [node] |};
  topo_Remove name t :=
    match mt_nodes t !! name with
    | None => (Some (ErrTopology "not found"), t)
    | Some _ =>
        (None,
         {| mt_nodes := delete name (mt_nodes t);
            mt_edges :=
              filter (fun e => e.1.1 <> name /\ e.1.2 <> name) (mt_edges t);
            mt_stopOnDisconnect :=
              filter (fun n => n <> name) (mt_stopOnDisconnect t) |})
    end;
  topo_has name t := bool_decide (is_Some (mt_nodes t !! name))
}.

(** *** Example statements and topologies *)

(** INSERT INTO k SELECT a, b FROM c WHERE d *)
Definition rel_c : AliasedStreamWindowAST :=
  {| Name := "c";
     Interval := {| Value := 0; Unit := UnspecifiedIntervalUnit |};
     Alias := "" |}.

Definition insert_k : InsertIntoSelectStmt :=
  {| ii_Sink := "k";
     ii_EmitterAST := {| EmitterType := UnspecifiedEmitter; EmitterOptions := [] |};
     ii_ProjectionsAST := "a, b"; ii_Relations := [rel_c];
     ii_FilterAST := "d"; ii_GroupingAST := ""; ii_HavingAST := "" |}.

(** A topology with the source c and the sink k, and one without the
    sink. *)
Definition topo_ck : memTopology :=
  {| mt_nodes := {[ "c" := KSource; "k" := KSink ]};
     mt_edges := []; mt_stopOnDisconnect := [] |}.

Definition topo_c : memTopology :=
  {| mt_nodes := {[ "c" := KSource ]};
     mt_edges := []; mt_stopOnDisconnect := [] |}.

Definition builder_of (t : memTopology) : TopologyBuilder memTopology :=
  {| topology := t; topologyBuilderTemporaryID := 0 |}.

(** INSERT INTO k SELECT a, b FROM c [RANGE 2 SECONDS] WHERE d *)
Definition insert_range : InsertIntoSelectStmt :=
  {| ii_Sink := "k";
     ii_EmitterAST := {| EmitterType := UnspecifiedEmitter; EmitterOptions := [] |};
     ii_ProjectionsAST := "a, b";
     ii_Relations :=
       [{| Name := "c"; Interval := {| Value := 2; Unit := Seconds |};
           Alias := "" |}];
     ii_FilterAST := "d"; ii_GroupingAST := ""; ii_HavingAST := "" |}.

(** INSERT INTO k SELECT a, b FROM nowhere WHERE d *)
Definition rel_nowhere : AliasedStreamWindowAST :=
  {| Name := "nowhere";
     Interval := {| Value := 0; Unit := UnspecifiedIntervalUnit |};
     Alias := "" |}.

Definition insert_nowhere : InsertIntoSelectStmt :=
  {| ii_Sink := "k";
     ii_EmitterAST := {| EmitterType := UnspecifiedEmitter; EmitterOptions := [] |};
     ii_ProjectionsAST := "a, b"; ii_Relations := [rel_nowhere];
     ii_FilterAST := "d"; ii_GroupingAST := ""; ii_HavingAST := "" |}.

(** Modelled from the spec: a topology some nodes of which have stopped.
    The specification gives every node a lifecycle state, of which STOPPED
    is terminal: all further operations of a stopped node fail.  A stopped
    node stays in the topology until it is removed; it is found by name,
    and its [Input] fails. *)
Record stoppableTopology := {
  sn_topology : memTopology;
  sn_stopped : list string
}.

Definition sn_with (t : stoppableTopology) (r : option error * memTopology)
  : option error * stoppableTopology :=
  (fst r, {| sn_topology := snd r; sn_stopped := sn_stopped t |}).

#[global] Instance stoppableTopology_DynamicTopology
  : DynamicTopology stoppableTopology := {
  topo_AddBox name stmt t := sn_with t (topo_AddBox name stmt (sn_topology t));
  topo_Sink name t := topo_Sink name (sn_topology t);
  topo_Input node refname config t :=
    if bool_decide (node ∈ sn_stopped t)
    then (Some (ErrTopology "the node is stopped"), t)
    else sn_with t (topo_Input node refname config (sn_topology t));
  topo_StopOnDisconnect node t :=
    {| sn_topology := topo_StopOnDisconnect node (sn_topology t);
       sn_stopped := sn_stopped t |};
  topo_Remove name t :=
    match topo_Remove name (sn_topology t) with
    | (Some err, _) => (Some err, t)
    | (None, t') =>
        (None, {| sn_topology := t';
                  sn_stopped := filter (fun n => n <> name) (sn_stopped t) |})
    end;
  topo_has name t := topo_has name (sn_topology t)
}.

(** The source c and the sink k, which has stopped. *)
Definition topo_ck_stopped : stoppableTopology :=
  {| sn_topology := topo_ck; sn_stopped := ["k"] |}.

Definition stopped_builder : TopologyBuilder stoppableTopology :=
  {| topology := topo_ck_stopped; topologyBuilderTemporaryID := 0 |}.


(** *** The parameters of a source or a sink *)

(** [parser.SourceSinkParamAST{Key, Value}]; the values ([data.Value]) are
    opaque to the builder.  The field [Value] is named [ParamValue] here. *)
Record SourceSinkParamAST (V : Type) := { Key : string; ParamValue : V }.
Arguments Key {V} _.
Arguments ParamValue {V} _.

(** [mkParamsMap]: [paramsMap[string(kv.Key)] = kv.Value] for every
    parameter, in order. *)
Definition mkParamsMap {V} (params : list (SourceSinkParamAST V))
  : gmap string V :=
  foldl (fun paramsMap kv => <[Key kv := ParamValue kv]> paramsMap) ∅ params.

(** Two INSERT INTO statements. *)
Definition two_inserts : list Stmt :=
  [InsertIntoSelect insert_k; InsertIntoSelect insert_k].

End Builder.

(** ** Package server: the queries of a request *)

Module Server.
Import Builder.

(** The statements the parser returns, by the types that [parseQueries]
    and [Queries] tell apart; a SELECT, SELECT UNION or EVAL statement is
    kept as its text. *)
Inductive Statement :=
| SelectStmt (text : string)
| SelectUnionStmt (text : string)
| EvalStmt (text : string)
| TopologyStmt (stmt : Stmt).

(** [stmt.(parser.SelectStmt)], [stmt.(parser.SelectUnionStmt)] or
    [stmt.(parser.EvalStmt)] succeeds. *)
Definition isDataReturning (stmt : Statement) : bool :=
  match stmt with
  | SelectStmt _ | SelectUnionStmt _ | EvalStmt _ => true
  | TopologyStmt _ => false
  end.

(** The errors [parseQueries] builds with [NewError]. *)
Inductive Error :=
| ErrQueriesMissing
    (* formValidationErrorCode, "'queries' field is missing" *)
| ErrQueriesNotString (err : string)
    (* formValidationErrorCode, "'queries' field must be a string" *)
| ErrParse (err : string) (statement : string)
    (* bqlStmtParseErrorCode, "Cannot parse a BQL statement";
       Meta["statement"] is what was left to parse *)
| ErrMixed (statement : Statement).
    (* bqlStmtProcessingErrorCode, "a SELECT or EVAL statement cannot be
       issued with other statements"; Meta["statement"] is
       stmts[dataReturningStmtIndex] *)

Section parseQueries.
(** [data.Value] and [data.AsString], and the parser [bp.ParseStmt], are
    not part of the embedded source. *)
Context {V : Type}.
Variable AsString : V -> string + string.
Variable ParseStmt : string -> (Statement * string) + string.

(** The loop [for queries != "" { ... }]; [None] when [fuel] iterations
    were not enough. *)
Fixpoint parseLoop (fuel : nat) (queries : string) (stmts : list Statement)
  (dataReturningStmtIndex : Z) : option (list Statement * Z + Error) :=
  match fuel with
  | O => None
  | S fuel' =>
      if decide (queries = EmptyString) then
        Some (inl (stmts, dataReturningStmtIndex))
      else
        match ParseStmt queries with
        | inr err => Some (inr (ErrParse err queries))
        | inl (stmt, rest) =>
            parseLoop fuel' rest (stmts ++ [stmt])
              (if isDataReturning stmt then Z.of_nat (length stmts)
               else dataReturningStmtIndex)
        end
  end.

(** [parseQueries]; [None] when the loop ran out of fuel, or for the
    run-time panic of an index out of range. *)
Definition parseQueries (fuel : nat) (form : gmap string V)
  : option (list Statement + Error) :=
  match form !! "queries" with
  | None => Some (inr ErrQueriesMissing)
  | Some v =>
      match AsString v with
      | inr err => Some (inr (ErrQueriesNotString err))
      | inl queries =>
          match parseLoop fuel queries [] (-1) with
          | None => None
          | Some (inr e) => Some (inr e)
          | Some (inl (stmts, dataReturningStmtIndex)) =>
              if (0 <=? dataReturningStmtIndex)
                 && negb (length stmts =? 1)%nat
              then
                match stmts !! Z.to_nat dataReturningStmtIndex with
                | Some stmt => Some (inr (ErrMixed stmt))
                | None => None
                end
              else Some (inl stmts)
          end
      end
  end.

(** [queries] is parsed, statement by statement, into [stmts] with [rest]
    left over. *)
Inductive parsed : string -> list Statement -> string -> Prop :=
| parsed_nil queries : parsed queries [] queries
| parsed_cons queries stmt rest stmts rest' :
    queries <> EmptyString ->
    ParseStmt queries = inl (stmt, rest) ->
    parsed rest stmts rest' ->
    parsed queries (stmt :: stmts) rest'.

End parseQueries.

(** What the loop of [parseQueries] keeps: [idx] is -1 while no statement
    returns data, and the index of the last statement that does
    otherwise. *)
Definition lastDataReturning (stmts : list Statement) (idx : Z) : Prop :=
  (idx = -1 /\ Forall (fun s => isDataReturning s = false) stmts) \/
  (exists l1 s l2, stmts = l1 ++ s :: l2 /\ idx = Z.of_nat (length l1) /\
     isDataReturning s = true /\ Forall (fun s => isDataReturning s = false) l2).

(** A parser that consumes input with every statement. *)
Definition consuming (ParseStmt : string -> (Statement * string) + string)
  : Prop :=
  forall queries stmt rest,
    ParseStmt queries = inl (stmt, rest) ->
    (String.length rest < String.length queries)%nat.

(** *** The statements of a request are added to the topology *)

Section Queries.
Context {T : Type} `{DynamicTopology T}.

(** The loop of [Queries] (and of [WebSocketQueries]) over the statements:
<<
    for _, stmt := range stmts {
        _, err := tb.AddStmt(stmt)
        if err != nil { ...; return }
    }
>>
    The result is what the calls of [AddStmt] returned, the last of them
    the error the loop stopped at if there is one, and the builder after
    the loop. *)
Fixpoint AddStmts (stmts : list Stmt) (tb : TopologyBuilder T)
  : list (string + error) * TopologyBuilder T :=
  match stmts with
  | [] => ([], tb)
  | stmt :: rest =>
      match AddStmt stmt tb with
      | (inr err, tb1) => ([inr err], tb1)
      | (inl node, tb1) =>
          let '(rs, tb2) := AddStmts rest tb1 in (inl node :: rs, tb2)
      end
  end.

(** The nodes that the INSERT INTO statements of [stmts] returned. *)
Fixpoint tmpNodes (stmts : list Stmt) (rs : list (string + error))
  : list string :=
  match stmts, rs with
  | InsertIntoSelect _ :: stmts', inl node :: rs' => node :: tmpNodes stmts' rs'
  | _ :: stmts', _ :: rs' => tmpNodes stmts' rs'
  | _, _ => []
  end.
End Queries.

(** A parser for the examples: one character is one statement, [s] a
    SELECT, [e] an EVAL, [?] a syntax error and anything else a statement
    for the topology. *)
Definition toyParseStmt (queries : string) : (Statement * string) + string :=
  match queries with
  | EmptyString => inr "unexpected end"
  | String a rest =>
      let word := String a EmptyString in
      if bool_decide (word = "?") then inr "syntax error"
      else if bool_decide (word = "s") then inl (SelectStmt word, rest)
      else if bool_decide (word = "e") then inl (EvalStmt word, rest)
      else inl (TopologyStmt (OtherStmt word), rest)
  end.
Definition toyAsString (v : string + Z) : string + string :=
  match v with inl s => inl s | inr _ => inr "not a string" end.
Definition form_cs : gmap string (string + Z) := {[ "queries" := inl "cs" ]}.

End Server.

(** ** Package udf: the registry of UDSF creators *)

Module UDF.

(** A [UDSFCreator] is an interface; the registry calls [Accept] only. *)
Record UDSFCreator := { creator_id : nat; Accept : Z -> bool }.

Inductive error :=
| ErrAlreadyRegistered (typeName : string)
    (* "a UDSF type '%v' is already registered" *)
| ErrNotRegistered (typeName : string)
    (* "a UDSF type '%v' is not registered" *)
| ErrArity (typeName : string) (arity : Z).
    (* "a UDSF type '%v' doesn't accept the given arity: %v" *)

(** The mutex of the registry makes every method atomic. *)
Record defaultUDSFCreatorRegistry := {
  creators : gmap string UDSFCreator
}.

Definition NewDefaultUDSFCreatorRegistry : defaultUDSFCreatorRegistry :=
  {| creators := ∅ |}.

Definition Register (r : defaultUDSFCreatorRegistry) (typeName : string)
  (c : UDSFCreator) : defaultUDSFCreatorRegistry * option error :=
  match creators r !! typeName with
  | Some _ => (r, Some (ErrAlreadyRegistered typeName))
  | None => ({| creators := <[typeName := c]> (creators r) |}, None)
  end.

Definition Lookup (r : defaultUDSFCreatorRegistry) (typeName : string)
  (arity : Z) : UDSFCreator + error :=
  match creators r !! typeName with
  | None => inr (ErrNotRegistered typeName)
  | Some c =>
      if negb (Accept c arity) then inr (ErrArity typeName arity) else inl c
  end.

(** [List] copies the map entry by entry; the copy is the map itself. *)
Definition List (r : defaultUDSFCreatorRegistry)
  : gmap string UDSFCreator * option error :=
  (map_fold (fun t c m => <[t := c]> m) ∅ (creators r), None).

Definition Unregister (r : defaultUDSFCreatorRegistry) (typeName : string)
  : defaultUDSFCreatorRegistry * option error :=
  ({| creators := delete typeName (creators r) |}, None).

(** The package-level registry [globalUDSFCreatorRegistry] is passed
    explicitly. *)
Definition RegisterGlobalUDSFCreator (global : defaultUDSFCreatorRegistry)
  (typeName : string) (c : UDSFCreator) :=
  Register global typeName c.

(** [None] is the panic. *)
Definition MustRegisterGlobalUDSFCreator (global : defaultUDSFCreatorRegistry)
  (typeName : string) (c : UDSFCreator) : option defaultUDSFCreatorRegistry :=
  match Register global typeName c with
  | (_, Some _) => None
  | (global', None) => Some global'
  end.

(** The loop of [CopyGlobalUDSFCreatorRegistry] over the listed creators. *)
Fixpoint registerAll (r : defaultUDSFCreatorRegistry)
  (order : list (string * UDSFCreator)) : defaultUDSFCreatorRegistry + error :=
  match order with
  | [] => inl r
  | (t, c) :: rest =>
      match Register r t c with
      | (_, Some err) => inr err
      | (r', None) => registerAll r' rest
      end
  end.

(** Go ranges over the listed map in an unspecified order: [order] is the
    order taken, a permutation of the entries of the map. *)
Definition CopyGlobalUDSFCreatorRegistry (global : defaultUDSFCreatorRegistry)
  (order : list (string * UDSFCreator)) : defaultUDSFCreatorRegistry + error :=
  let r := NewDefaultUDSFCreatorRegistry in
  match List global with
  | (_, Some err) => inr err
  | (m, None) => registerAll r order
  end.

(** Example creators. *)
Definition unary : UDSFCreator := {| creator_id := 1; Accept := Z.eqb 1 |}.
Definition variadic : UDSFCreator := {| creator_id := 2; Accept := fun _ => true |}.
Definition reg2 : defaultUDSFCreatorRegistry :=
  {| creators := {[ "duplicate" := unary; "union" := variadic ]} |}.

End UDF.

(** * Properties *)

Set Warnings "-clear-no-such-hyp".

(** ** 64-bit signed integers *)

Lemma wrap64_id z : in_int64 z -> wrap64 z = z.
Proof.
  unfold in_int64, int64_min, int64_max, wrap64. intros H.
  rewrite Z.mod_small; lia.
Qed.

Lemma wrap64_range z : in_int64 (wrap64 z).
Proof.
  unfold in_int64, int64_min, int64_max, wrap64.
  pose proof (Z.mod_pos_bound (z + 2 ^ 63) (2 ^ 64) ltac:(lia)). lia.
Qed.

(** ** The static topology builder *)

Module CoreFacts.
Import Core.
Local Close Scope Z_scope.

Lemma adjOf_insert adj u x w :
  adjOf (<[u := x]> adj) w = if decide (u = w) then x else adjOf adj w.
Proof. unfold adjOf. rewrite lookup_insert. destruct (decide (u = w)); done. Qed.

Lemma mkAdj_foldl edges : forall acc u v,
  v ∈ adjOf (foldl (fun adj e => <[From e := adjOf adj (From e) ++ [To e]]> adj) acc edges) u
  <-> v ∈ adjOf acc u \/ exists e, e ∈ edges /\ From e = u /\ To e = v.
Proof.
  induction edges as [|e edges IH]; intros acc u v; simpl.
  - split; [auto|]. intros [H|(e & He & _)]; [done|]. by apply elem_of_nil in He.
  - rewrite IH, adjOf_insert. setoid_rewrite elem_of_cons.
    destruct (decide (From e = u)) as [<- | Hne].
    + rewrite elem_of_app, list_elem_of_singleton. naive_solver.
    + naive_solver.
Qed.

Lemma mkAdj_spec tb u v : v ∈ adjOf (mkAdj (Edges tb)) u <-> edge_rel tb u v.
Proof.
  unfold mkAdj, edge_rel. rewrite mkAdj_foldl. unfold adjOf at 1.
  rewrite lookup_empty. simpl. split; [|auto]. intros [H|H]; [|done].
  by apply elem_of_nil in H.
Qed.

Section dfs.
Variable E : string -> string -> Prop.
Variable adj : gmap string (list string).
Hypothesis Hadj : forall u v, v ∈ adjOf adj u <-> E u v.

Abbreviation succ_closed := (Core.succ_closed E).
Abbreviation black_acyclic := (Core.black_acyclic E).
Abbreviation revchain := (Core.revchain E).
Abbreviation found := (Core.found E).
Abbreviation finished := (Core.finished E).
Abbreviation rec_spec := (Core.rec_spec E).

Lemma color_insert v n c m :
  color (<[n := c]> v) m = if decide (n = m) then c else color v m.
Proof. unfold color. rewrite lookup_insert. by destruct (decide (n = m)). Qed.

Lemma closedPath_spec p : closedPath p = true <-> closedP p.
Proof.
  unfold closedPath, closedP. rewrite andb_true_iff, !bool_decide_eq_true. intuition lia.
Qed.

Lemma succ_closed_rtc v u w : succ_closed v -> black v u -> rtc E u w -> black v w.
Proof. intros Hc Hb Hr. induction Hr; eauto. Qed.

Lemma tc_first u w : tc E u w -> exists x, E u x /\ rtc E x w.
Proof.
  destruct 1 as [u w H|u x w H1 H2].
  - exists w. split; [done|apply rtc_refl].
  - exists x. split; [done|by apply tc_rtc].
Qed.

Lemma revchain_single n : revchain [n].
Proof. intros [|i] x y H1 H2; simpl in *; done. Qed.

Lemma revchain_snoc p n node :
  revchain p -> last p = Some n -> E node n -> revchain (p ++ [node]).
Proof.
  intros Hp Hl He i x y H1 H2.
  destruct (decide (S i < length p)%nat) as [Hlt|Hge].
  - rewrite lookup_app_l in H1, H2 by lia. eauto.
  - assert (S i = length p) as Hi.
    { apply lookup_lt_Some in H2. rewrite length_app in H2. simpl in H2. lia. }
    rewrite lookup_app_l in H1 by lia.
    rewrite Hi, lookup_app_r, Nat.sub_diag in H2 by lia. simpl in H2.
    injection H2 as <-. rewrite last_lookup in Hl.
    replace (pred (length p)) with i in Hl by lia. congruence.
Qed.

Lemma detectCycleLoop_spec rec node (R : string -> Prop) :
  rec_spec rec ->
  (forall u w, R u -> E u w -> R w) -> R node ->
  forall ns v path v',
    color v node = 1%nat -> succ_closed v -> black_acyclic v ->
    (forall w, E node w -> w ∈ ns \/ black v w) ->
    (forall n, n ∈ ns -> E node n) ->
    detectCycleLoop rec node ns v = Some (path, v') ->
    (path = [] -> ext_except node v v' /\ succ_closed v' /\ black_acyclic v'
                  /\ color v' node = 2%nat)
    /\ (path <> [] -> found 2 R v node path).
Proof.
  intros Hrec HR Hnode. induction ns as [|n ns IH]; intros v path v' Hg Hc Ha Hs Hns Hrun.
  - simpl in Hrun. injection Hrun as <- <-. split; [intros _|done].
    split; [|split; [|split]].
    + intros m Hm. rewrite color_insert. destruct (decide (node = m)); [congruence|auto].
    + intros u w Hu Huw. unfold black in *. rewrite color_insert in *.
      destruct (decide (node = w)); [lia|].
      destruct (decide (node = u)) as [<-|].
      * destruct (Hs w Huw) as [Hw|Hw]; [by apply elem_of_nil in Hw|done].
      * eapply Hc; eauto.
    + intros u Hu Htc. unfold black in Hu. rewrite color_insert in Hu.
      destruct (decide (node = u)) as [<-|].
      * apply tc_first in Htc as (w & Hw & Hr).
        destruct (Hs w Hw) as [Hin|Hb]; [by apply elem_of_nil in Hin|].
        pose proof (succ_closed_rtc _ _ _ Hc Hb Hr) as Hbn.
        unfold black in Hbn. lia.
      * eapply Ha; eauto.
    + rewrite color_insert. by rewrite decide_True.
  - simpl in Hrun. destruct (rec n v) as [[p v1]|] eqn:Hr; [|done].
    assert (E node n) as Hen by (apply Hns, elem_of_cons; auto).
    destruct (Hrec R n v p v1 HR (HR _ _ Hnode Hen) Hc Ha Hr) as [Hfin Hfound].
    destruct p as [|a p].
    + destruct (Hfin eq_refl) as (Hext & Hc1 & Ha1 & Hb1).
      apply IH in Hrun; try done.
      * destruct Hrun as [H1 H2]. split.
        -- intros ->. destruct (H1 eq_refl) as (Hx & ? & ? & ?).
           split; [|done]. intros m Hm.
           destruct (Hx m Hm) as [Hx1|Hx1], (Hext m) as [Hx2|Hx2]; lia.
        -- intros Hne. destruct (H2 Hne) as (Hrc & HF & Hcl).
           split; [done|split; [done|]].
           destruct Hcl as [?|(Hl & Hlen & g & Hh & Hgg)]; [by left|right].
           split; [done|]. split; [done|]. exists g. split; [done|].
           destruct (Hext g); lia.
      * destruct (Hext node); lia.
      * intros w Hw. destruct (Hs w Hw) as [Hin|Hb].
        -- apply elem_of_cons in Hin as [->|Hin]; auto.
        -- right. unfold black in *. destruct (Hext w); lia.
      * intros m Hm. apply Hns, elem_of_cons; auto.
    + destruct (Hfound ltac:(done)) as (Hrc & HF & Hcl).
      destruct (closedPath (a :: p)) eqn:Hcp; injection Hrun as <- <-.
      * split; [done|]. intros _. split; [done|split; [done|left]].
        by apply closedPath_spec.
      * split; [intros Habs; by destruct p|]. intros _.
        destruct Hcl as [Hcl|(Hl & Hlen & g & Hh & Hgg)].
        { apply closedPath_spec in Hcl. congruence. }
        change (a :: p ++ [node]) with ((a :: p) ++ [node]).
        split; [by eapply revchain_snoc|].
        split; [apply Forall_app; split; [done|by constructor]|].
        right. split; [apply last_snoc|].
        split; [rewrite length_app; simpl; lia|]. by exists g.
Qed.

Lemma detectCycle_spec fuel : rec_spec (fun n v => detectCycle fuel n adj v).
Proof.
  induction fuel as [|fuel IH]; intros R node v path v' HR Hnode Hc Ha Hrun;
    [done|].
  simpl in Hrun. destruct (color v node) as [|[|c]] eqn:Hcol.
  - eapply (detectCycleLoop_spec _ node R IH HR Hnode) in Hrun.
    + destruct Hrun as [H1 H2]. split.
      * intros Hp. destruct (H1 Hp) as (Hx & Hc' & Ha' & Hn). repeat split; try done.
        -- intros m. destruct (decide (m = node)) as [->|Hm]; [lia|].
           specialize (Hx m Hm). rewrite color_insert, decide_False in Hx by done.
           done.
        -- unfold black. lia.
      * intros Hp. destruct (H2 Hp) as (Hrc & HF & Hcl).
        split; [done|split; [done|]].
        destruct Hcl as [?|(Hl & Hlen & g & Hh & Hgg)]; [by left|].
        rewrite color_insert in Hgg. destruct (decide (node = g)) as [<-|Hne].
        -- left. split; [done|congruence].
        -- right. split; [done|]. split; [lia|]. by exists g.
    + rewrite color_insert. by rewrite decide_True.
    + intros u w Hu Huw. unfold black in *. rewrite color_insert in *.
      destruct (decide (node = u)); [lia|].
      assert (2 <= color v w)%nat by (eapply Hc; eauto).
      destruct (decide (node = w)); [subst; lia|done].
    + intros u Hu. unfold black in Hu. rewrite color_insert in Hu.
      destruct (decide (node = u)); [lia|]. by apply Ha.
    + intros w Hw. left. by apply Hadj.
    + intros n Hn. by apply Hadj.
  - injection Hrun as <- <-. split; [done|]. intros _.
    split; [apply revchain_single|]. split; [by constructor|].
    right. split; [done|]. split; [simpl; lia|]. by exists node.
  - injection Hrun as <- <-. split; [|done]. intros _.
    repeat split; try done.
    + intros m. by left.
    + unfold black. lia.
Qed.

(** Termination: every call blackens the node it starts from, so a fuel
    above the number of white nodes suffices. *)
Variable targets : gset string.
Hypothesis Htargets : forall u w, E u w -> w ∈ targets.

Abbreviation white := (Core.white targets).

Lemma white_mono v v' : fades v v' -> (size (white v') <= size (white v))%nat.
Proof.
  intros H. apply subseteq_size. intros n. unfold white.
  rewrite !elem_of_filter. naive_solver.
Qed.

Lemma white_grey v node :
  color v node = 0%nat -> node ∈ targets ->
  (size (white (<[node := 1%nat]> v)) < size (white v))%nat.
Proof.
  intros Hcol Hin. apply subset_size. split.
  - intros n. unfold white. rewrite !elem_of_filter, color_insert.
    destruct (decide (node = n)); naive_solver.
  - intros Hsub. specialize (Hsub node). unfold white in Hsub.
    rewrite !elem_of_filter, color_insert, decide_True in Hsub by done.
    naive_solver.
Qed.

Lemma detectCycleLoop_total rec node f :
  (forall n v, n ∈ targets -> (size (white v) + 1 <= f)%nat ->
     exists path v', rec n v = Some (path, v') /\ fades v v') ->
  forall ns v,
    (forall n, n ∈ ns -> n ∈ targets) -> (size (white v) + 1 <= f)%nat ->
    exists path v', detectCycleLoop rec node ns v = Some (path, v') /\ fades v v'.
Proof.
  intros Hrec. induction ns as [|n ns IH]; intros v Hns Hsz; simpl.
  - eexists _, _. split; [done|]. intros m. rewrite color_insert.
    destruct (decide (node = m)); [done|auto].
  - destruct (Hrec n v) as (p & v1 & -> & Hf); [apply Hns, elem_of_cons; auto|done|].
    destruct p as [|a p].
    + destruct (IH v1) as (path & v' & -> & Hf').
      * intros m Hm. apply Hns, elem_of_cons; auto.
      * pose proof (white_mono _ _ Hf). lia.
      * eexists _, _. split; [done|]. intros m Hm. auto.
    + destruct (closedPath (a :: p)); eexists _, _; (split; [done|done]).
Qed.

Lemma detectCycle_total fuel : forall node v,
  (size (white v) + (if decide (node ∈ targets) then 1 else 2) <= fuel)%nat ->
  exists path v', detectCycle fuel node adj v = Some (path, v') /\ fades v v'.
Proof.
  induction fuel as [|fuel IH]; intros node v Hsz.
  - destruct (decide (node ∈ targets)); lia.
  - simpl. destruct (color v node) as [|[|c]] eqn:Hcol.
    + destruct (detectCycleLoop_total (fun n v => detectCycle fuel n adj v) node fuel)
        with (ns := adjOf adj node) (v := <[node := 1%nat]> v)
        as (path & v' & Hrun & Hf).
      * intros n w Hn Hw. apply IH. by rewrite decide_True.
      * intros n Hn. apply Hadj in Hn. eauto.
      * destruct (decide (node ∈ targets)) as [Hin|Hnin].
        -- pose proof (white_grey v node Hcol Hin). lia.
        -- assert (fades v (<[node := 1%nat]> v)) as Hf.
           { intros m. rewrite color_insert. destruct (decide (node = m)); done. }
           pose proof (white_mono _ _ Hf). lia.
      * eexists _, _. split; [done|]. intros m Hm. apply Hf in Hm.
        rewrite color_insert in Hm. destruct (decide (node = m)); [by subst|done].
    + eexists _, _. split; [done|]. by intros m.
    + eexists _, _. split; [done|]. by intros m.
Qed.

End dfs.

Lemma reverseLoop_length n : forall i l, length (reverseLoop n i l) = length l.
Proof.
  induction n as [|n IH]; intros i l; simpl; [done|].
  destruct (l !! i); [|done]. destruct (l !! _); [|done].
  by rewrite IH, !length_insert.
Qed.

Lemma reverseLoop_lookup n : forall i l j,
  (2 * (i + n) <= length l)%nat ->
  reverseLoop n i l !! j =
    if decide ((i <= j < i + n) \/ (length l - i - n <= j < length l - i))%nat
    then l !! (length l - 1 - j)%nat else l !! j.
Proof.
  induction n as [|n IH]; intros i l j Hlen; simpl.
  - rewrite decide_False by lia. done.
  - destruct (lookup_lt_is_Some_2 l i) as [a Ha]; [lia|].
    destruct (lookup_lt_is_Some_2 l (length l - i - 1)) as [b Hb]; [lia|].
    rewrite Ha, Hb, IH by (rewrite !length_insert; lia).
    rewrite !length_insert, !list_lookup_insert, !length_insert.
    repeat case_decide; try lia; try done.
    all: try (replace (length l - 1 - j)%nat with i by lia; done).
    all: try (replace (length l - 1 - j)%nat with (length l - i - 1)%nat by lia; done).
    all: try (replace j with (length l - i - 1)%nat by lia; done).
    all: try (replace j with i by lia; done).
Qed.

Lemma reversePath_reverse l : reversePath l = reverse l.
Proof.
  apply list_eq. intros j. unfold reversePath.
  pose proof (Nat.div_mod_eq (length l) 2) as Hd.
  pose proof (Nat.mod_upper_bound (length l) 2 ltac:(lia)) as Hm.
  rewrite reverseLoop_lookup by lia.
  destruct (decide (j < length l)%nat) as [Hj|Hj].
  - rewrite reverse_lookup by done. case_decide as Hc.
    + f_equal. lia.
    + assert (length l = 2 * (length l / 2) + 1 /\ j = length l / 2)%nat as [H1 H2] by lia.
      f_equal. lia.
  - rewrite (lookup_ge_None_2 (reverse l)) by (rewrite length_reverse; lia).
    case_decide; apply lookup_ge_None_2; lia.
Qed.

Lemma size_list_to_set_le (l : list string) :
  (size (list_to_set l : gset string) <= length l)%nat.
Proof.
  induction l as [|x l IH].
  - by rewrite list_to_set_nil, size_empty.
  - rewrite list_to_set_cons, size_union_alt, size_singleton. simpl.
    pose proof (subseteq_size (list_to_set l ∖ {[x]}) (list_to_set l : gset string)
                  ltac:(set_solver)). lia.
Qed.

Lemma targets_spec tb u w : edge_rel tb u w -> w ∈ targets tb.
Proof.
  intros (e & He & _ & <-). unfold targets. apply elem_of_list_to_set.
  apply list_elem_of_fmap. eauto.
Qed.

Lemma white_bound tb v : (size (white (targets tb) v) + 2 <= cycleFuel tb)%nat.
Proof.
  unfold cycleFuel, white.
  pose proof (subseteq_size (filter (fun n => color v n = 0%nat) (targets tb)) (targets tb)
                ltac:(set_solver)).
  pose proof (size_list_to_set_le (To <$> Edges tb)) as H2.
  rewrite length_fmap in H2. unfold targets in *. lia.
Qed.

Lemma closed_path_tc (E : string -> string -> Prop) l : forall x y,
  (forall i a b, l !! i = Some a -> l !! S i = Some b -> E a b) ->
  (2 <= length l)%nat -> head l = Some x -> last l = Some y -> tc E x y.
Proof.
  induction l as [|a l IH]; intros x y Hp Hlen Hh Hl; simpl in *; [lia|].
  injection Hh as ->. destruct l as [|b l]; simpl in *; [lia|].
  destruct l as [|c l].
  - simpl in Hl. injection Hl as ->. apply tc_once. by apply (Hp 0%nat).
  - eapply tc_l; [by apply (Hp 0%nat)|].
    apply IH; try done; [|simpl; lia].
    intros i a' b' H1 H2. by apply (Hp (S i)).
Qed.

Section check.
Variable tb : defaultStaticTopologyBuilder.
Let E := edge_rel tb.
Let adj := mkAdj (Edges tb).

Lemma detectCycle_runs node v :
  exists path v', detectCycle (cycleFuel tb) node adj v = Some (path, v').
Proof.
  destruct (detectCycle_total E adj (mkAdj_spec tb) (targets tb) (targets_spec tb)
              (cycleFuel tb) node v) as (path & v' & H & _).
  - pose proof (white_bound tb v). destruct (decide _); lia.
  - eauto.
Qed.

Lemma hasCycleLoop_runs order : forall v,
  exists r, hasCycleLoop (cycleFuel tb) order adj v = Some r.
Proof.
  induction order as [|s order IH]; intros v; cbn [hasCycleLoop]; [eauto|].
  destruct (detectCycle_runs s v) as (path & v' & ->).
  destruct (bool_decide _); eauto.
Qed.

Lemma revchain_reverse p : revchain E p -> is_path tb (reverse p).
Proof.
  intros Hp i x y H1 H2.
  apply reverse_lookup_Some in H1 as [H1 Hi1], H2 as [H2 Hi2].
  apply (Hp (length p - S (S i))%nat); [done|].
  by replace (S (length p - S (S i))) with (length p - S i)%nat by lia.
Qed.

Lemma hasCycleLoop_spec order : forall v b path,
  no_grey v -> succ_closed E v -> black_acyclic E v ->
  hasCycleLoop (cycleFuel tb) order adj v = Some (b, path) ->
  if b then
    (2 <= length path)%nat /\ head path = last path /\ is_path tb path /\
    exists s, s ∈ order /\ Forall (rtc E s) path
  else
    exists v', succ_closed E v' /\ black_acyclic E v' /\
               (forall s, s ∈ order \/ black v s -> black v' s).
Proof.
  induction order as [|s order IH]; intros v b path Hg Hc Ha Hrun;
    cbn [hasCycleLoop] in Hrun.
  - injection Hrun as <- <-. exists v. repeat split; try done.
    intros s [Hs|Hs]; [by apply elem_of_nil in Hs|done].
  - destruct (detectCycle _ s adj v) as [[p v1]|] eqn:Hd; [|done].
    destruct (detectCycle_spec E adj (mkAdj_spec tb) (cycleFuel tb) (rtc E s) s v p v1) as [Hfin Hfound];
      try done.
    { intros u w Hu Hw. by eapply rtc_r. }
    case_bool_decide as Hlen.
    + injection Hrun as <- <-. assert (p <> []) as Hne by (by destruct p).
      destruct (Hfound Hne) as (Hrc & HF & Hcl).
      destruct Hcl as [[Hl Hhl]|(_ & _ & g & _ & Hgg)]; [|by apply Hg in Hgg].
      rewrite reversePath_reverse, length_reverse, head_reverse, last_reverse.
      repeat split; try done.
      * by apply revchain_reverse.
      * exists s. split; [apply elem_of_cons; auto|].
        by apply Forall_reverse.
    + assert (p = []) as -> by (destruct p; [done|simpl in Hlen; lia]).
      destruct (Hfin eq_refl) as (Hext & Hc1 & Ha1 & Hb1).
      apply IH in Hrun; try done.
      * destruct b; [|].
        -- destruct Hrun as (? & ? & ? & s' & Hs' & ?). repeat split; try done.
           exists s'. split; [apply elem_of_cons; auto|done].
        -- destruct Hrun as (v' & ? & ? & Hb). exists v'. repeat split; try done.
           intros s' [Hs'|Hs'].
           ++ apply elem_of_cons in Hs' as [->|Hs']; auto.
           ++ apply Hb. right. unfold black in *. destruct (Hext s'); lia.
      * intros n. specialize (Hg n). destruct (Hext n); lia.
Qed.

End check.

Lemma no_grey_empty : no_grey ∅.
Proof. intros n. unfold color. by rewrite lookup_empty. Qed.

Lemma succ_closed_empty E : succ_closed E ∅.
Proof. intros u w Hu. unfold black, color in Hu. rewrite lookup_empty in Hu. simpl in Hu. lia. Qed.

Lemma black_acyclic_empty E : black_acyclic E ∅.
Proof. intros u Hu. unfold black, color in Hu. rewrite lookup_empty in Hu. simpl in Hu. lia. Qed.

Lemma hasCycle_runs order tb : exists b path, hasCycle order tb = Some (b, path).
Proof.
  destruct (hasCycleLoop_runs tb order ∅) as ([b path] & H). by exists b, path.
Qed.

Lemma hasCycle_true order tb path :
  (forall s, s ∈ order -> is_Some (sources tb !! s)) ->
  hasCycle order tb = Some (true, path) ->
  (2 <= length path)%nat /\ head path = last path /\ is_path tb path /\
  has_reachable_cycle tb.
Proof.
  intros Hord Hrun.
  apply hasCycleLoop_spec in Hrun;
    [|apply no_grey_empty|apply succ_closed_empty|apply black_acyclic_empty].
  destruct Hrun as (Hlen & Hhl & Hp & s & Hs & HF). repeat split; try done.
  destruct path as [|x path]; [simpl in Hlen; lia|].
  exists s, x. split; [auto|]. split; [by apply Forall_cons in HF as [? _]|].
  apply (closed_path_tc _ (x :: path)); try done; by rewrite <- Hhl.
Qed.

Lemma hasCycle_false order tb path :
  (forall s, is_Some (sources tb !! s) -> s ∈ order) ->
  hasCycle order tb = Some (false, path) -> ~ has_reachable_cycle tb.
Proof.
  intros Hord Hrun (s & u & Hs & Hr & Htc).
  apply hasCycleLoop_spec in Hrun;
    [|apply no_grey_empty|apply succ_closed_empty|apply black_acyclic_empty].
  destruct Hrun as (v' & Hc & Ha & Hb).
  apply (Ha u); [|done]. eapply succ_closed_rtc; eauto.
Qed.

(** [Build] and the cycles a source leads to.  For a builder that is not yet
    built and has a source, with [order] the order in which the sources are
    visited: if some cycle can be reached from a source, [Build] fails with
    the cycle error, the builder stays as it was, and the reported path has
    at least two elements, equal first and last elements, and an edge of the
    builder between every two consecutive elements; if no cycle can be
    reached from a source, [Build] succeeds and marks the builder built. *)
Theorem Build_cycle_check order tb :
  order ≡ₚ elements (dom (sources tb)) ->
  builtFlag tb = false ->
  sources tb <> ∅ ->
  (has_reachable_cycle tb ->
     exists path, Build order tb = Some (tb, inl (ErrCycle path)) /\
       (2 <= length path)%nat /\ head path = last path /\ is_path tb path)
  /\ (~ has_reachable_cycle tb ->
     exists st, Build order tb = Some (set_builtFlag tb true, inr st)).
Proof.
  intros Hperm Hbuilt Hsrc.
  assert (forall s, s ∈ order <-> is_Some (sources tb !! s)) as Hord.
  { intros s. by rewrite Hperm, elem_of_elements, elem_of_dom. }
  unfold Build. rewrite Hbuilt.
  rewrite bool_decide_eq_false_2 by (by rewrite map_size_empty_iff).
  destruct (hasCycle_runs order tb) as (b & path & Hrun). rewrite Hrun.
  destruct b.
  - apply hasCycle_true in Hrun as (? & ? & ? & Hcyc); [|intros s; apply Hord].
    split; [intros _; by exists path|]. by intros [].
  - apply hasCycle_false in Hrun; [|intros s; apply Hord].
    split; [done|]. intros _. eauto.
Qed.

Example tb_sab_build : Build ["s"] tb_sab = Some (tb_sab, inl (ErrCycle ["a"; "b"; "a"])).
Proof. vm_compute. reflexivity. Qed.

(** [Build_cycle_check] at the builder s -> a -> b -> a. *)
Lemma Build_cycle_check_witness :
  exists path, Build ["s"] tb_sab = Some (tb_sab, inl (ErrCycle path)) /\
    (2 <= length path)%nat /\ head path = last path /\ is_path tb_sab path.
Proof.
  apply (Build_cycle_check ["s"] tb_sab).
  - vm_compute. reflexivity.
  - reflexivity.
  - intros H. apply (f_equal (fun m => m !! "s")) in H. vm_compute in H. discriminate.
  - exists "s", "a". split; [vm_compute; eauto|]. split.
    + apply rtc_once. exists {| From := "s"; To := "a"; InputName := "*" |}.
      split; [|done]. simpl. rewrite !elem_of_cons. auto.
    + eapply tc_l; [|apply tc_once].
      * exists {| From := "a"; To := "b"; InputName := "*" |}.
        split; [|done]. simpl. rewrite !elem_of_cons. auto.
      * exists {| From := "b"; To := "a"; InputName := "*" |}.
        split; [|done]. simpl. rewrite !elem_of_cons. auto.
Defined.

(** *** The check for an existing edge *)

(** The check compares the new edge with the first edge only. *)
Lemma edgeAlreadyExists_head edges edge :
  edgeAlreadyExists edges edge = true <-> head edges = Some edge.
Proof.
  destruct edges as [|e edges]; simpl; [done|].
  rewrite bool_decide_eq_true. split; congruence.
Qed.

Example tb_two_inputs_built :
  let '(tb1, _) := AddSource NewDefaultStaticTopologyBuilder "s1" src0 in
  let '(tb2, _) := AddSource tb1 "s2" src0 in
  let '(tb3, bd) := AddBox tb2 "b" (Some box0) in
  NamedInputs tb3 bd [("s1", "*"); ("s2", "*")] = Some (tb_two_inputs, bd_b).
Proof. vm_compute. reflexivity. Qed.

Example tb_sink_inputs_built :
  SinkInputs
    (fst (AddSink (fst (AddSource (fst (AddSource
       NewDefaultStaticTopologyBuilder "s1" src0)) "s2" src0)) "k" sink0))
    sd_k ["s1"; "s2"]
  = (tb_sink_inputs, sd_k).
Proof. vm_compute. reflexivity. Qed.

(** C1, at a concrete input.  The check for an existing edge leaves its loop
    after the first edge of the list, so an edge equal to a later one is
    accepted and appended a second time: box b already reads s2 under the
    input name "*", and declaring that input once more succeeds; sink k
    already reads s2, and declaring that input once more succeeds as well.
    Both edge lists then hold the same triple twice. *)
Theorem NamedInput_accepts_duplicate_edge :
  (dup_edge ∈ Edges tb_two_inputs /\
   NamedInput tb_two_inputs bd_b "s2" "*"
     = Some (set_Edges tb_two_inputs (Edges tb_two_inputs ++ [dup_edge]), bd_b) /\
   BoxErr bd_b = None /\
   ~ NoDup (Edges tb_two_inputs ++ [dup_edge])) /\
  (dup_sink_edge ∈ Edges tb_sink_inputs /\
   SinkInput tb_sink_inputs sd_k "s2"
     = (set_Edges tb_sink_inputs (Edges tb_sink_inputs ++ [dup_sink_edge]), sd_k) /\
   SinkErr sd_k = None /\
   ~ NoDup (Edges tb_sink_inputs ++ [dup_sink_edge])).
Proof.
  split; (split; [|split; [|split]]).
  - simpl. rewrite !elem_of_cons. auto.
  - vm_compute. reflexivity.
  - reflexivity.
  - simpl. intros Hnd. apply NoDup_cons in Hnd as [_ Hnd].
    apply NoDup_cons in Hnd as [Hnin _]. apply Hnin.
    rewrite !elem_of_cons. auto.
  - simpl. rewrite !elem_of_cons. auto.
  - vm_compute. reflexivity.
  - reflexivity.
  - simpl. intros Hnd. apply NoDup_cons in Hnd as [_ Hnd].
    apply NoDup_cons in Hnd as [Hnin _]. apply Hnin.
    rewrite !elem_of_cons. auto.
Qed.

(** *** A declarer that has failed *)

Lemma NamedInputs_failed tb bd e calls :
  bd_err bd = Some e -> NamedInputs tb bd calls = Some (tb, bd).
Proof.
  intros He. induction calls as [|[r i] calls IH]; [done|].
  simpl. unfold NamedInput. by rewrite He.
Qed.

Lemma SinkInputs_failed tb sd e refs :
  sd_err sd = Some e -> SinkInputs tb sd refs = (tb, sd).
Proof.
  intros He. induction refs as [|r refs IH]; [done|].
  simpl. unfold SinkInput. by rewrite He.
Qed.

Lemma NamedInput_failure tb bd refname inputName tb' bd' :
  NamedInput tb bd refname inputName = Some (tb', bd') ->
  bd_err bd' <> None -> tb' = tb.
Proof.
  unfold NamedInput. intros H Herr.
  destruct (bd_err bd) eqn:He; [by injection H as <- <-|].
  destruct (negb (IsValidOutputReference tb refname)); [by injection H as <- <-|].
  destruct (bd_box bd) as [box|]; [|done].
  destruct (InputConstraints box) as [ic|err]; [|by injection H as <- <-].
  destruct (negb (inputNameOk ic inputName)); [by injection H as <- <-|].
  destruct (edgeAlreadyExists _ _); injection H as <- <-; [done|].
  simpl in Herr. congruence.
Qed.

Lemma SinkInput_failure tb sd refname tb' sd' :
  SinkInput tb sd refname = (tb', sd') -> sd_err sd' <> None -> tb' = tb.
Proof.
  unfold SinkInput. intros H Herr.
  destruct (sd_err sd) eqn:He; [by injection H as <- <-|].
  destruct (negb (IsValidOutputReference tb refname)); [by injection H as <- <-|].
  destruct (edgeAlreadyExists _ _); injection H as <- <-; [done|].
  simpl in Herr. congruence.
Qed.

(** C9.  On a box declarer whose error is [e] and a sink declarer whose
    error is [e'], every sequence of [NamedInput] calls and every [Input]
    call returns at once with the builder and the declarer unchanged, so no
    edge is appended and [Err] still returns [e] (respectively [e']).
    Moreover the call on which a declarer fails leaves the builder as it
    was. *)
Theorem declarer_first_error_sticks tb bd sd e e' calls refnames :
  bd_err bd = Some e -> sd_err sd = Some e' ->
  (NamedInputs tb bd calls = Some (tb, bd) /\ BoxErr bd = Some e) /\
  (forall refname, Input tb bd refname = Some (tb, bd)) /\
  (SinkInputs tb sd refnames = (tb, sd) /\ SinkErr sd = Some e') /\
  (* the call that fails leaves the builder as it was *)
  (forall tb0 bd0 refname inputName tb1 bd1,
     NamedInput tb0 bd0 refname inputName = Some (tb1, bd1) ->
     bd_err bd1 <> None -> tb1 = tb0) /\
  (forall tb0 sd0 refname tb1 sd1,
     SinkInput tb0 sd0 refname = (tb1, sd1) ->
     sd_err sd1 <> None -> tb1 = tb0).
Proof.
  intros He He'. split; [|split; [|split; [|split]]].
  - split; [by eapply NamedInputs_failed|done].
  - intros refname. unfold Input, NamedInput. by rewrite He.
  - split; [by eapply SinkInputs_failed|done].
  - apply NamedInput_failure.
  - apply SinkInput_failure.
Qed.

(** [declarer_first_error_sticks] at the declarers of a box and of a sink
    whose names were taken. *)
Lemma declarer_first_error_sticks_witness :
  NamedInputs tb_two_inputs bd_failed [("s1", "*"); ("s2", "left")]
    = Some (tb_two_inputs, bd_failed) /\
  BoxErr bd_failed = Some (ErrSourceExists "s1") /\
  SinkInputs tb_two_inputs sd_failed ["s1"; "b"] = (tb_two_inputs, sd_failed) /\
  SinkErr sd_failed = Some (ErrBoxExists "b").
Proof.
  destruct (declarer_first_error_sticks tb_two_inputs bd_failed sd_failed
              (ErrSourceExists "s1") (ErrBoxExists "b")
              [("s1", "*"); ("s2", "left")] ["s1"; "b"] eq_refl eq_refl)
    as ((H1 & H2) & _ & (H3 & H4) & _).
  done.
Defined.

Example tb_loop_built :
  let '(tb1, _) := AddSource NewDefaultStaticTopologyBuilder "s" src0 in
  let '(tb2, a) := AddBox tb1 "a" (Some box0) in
  let '(tb3, b) := AddBox tb2 "b" (Some box0) in
  match Input tb3 a "b" with
  | Some (tb4, _) => fst <$> Input tb4 b "a"
  | None => None
  end = Some tb_loop.
Proof. vm_compute. reflexivity. Qed.

(** C2, at a concrete input.  The search for a cycle starts from the sources
    only: in the builder with the source s and the boxes a and b that read
    each other, the edges a -> b -> a form a cycle, and [Build] succeeds. *)
Theorem Build_misses_unreachable_cycle :
  has_cycle tb_loop /\
  exists st, Build ["s"] tb_loop = Some (set_builtFlag tb_loop true, inr st).
Proof.
  split.
  - exists "a". eapply tc_l; [|apply tc_once].
    + exists {| From := "a"; To := "b"; InputName := "*" |}.
      split; [|done]. simpl. rewrite !elem_of_cons. auto.
    + exists {| From := "b"; To := "a"; InputName := "*" |}.
      split; [|done]. simpl. rewrite !elem_of_cons. auto.
  - eexists. vm_compute. reflexivity.
Qed.

(** *** Sessions of the builder *)

Lemma checkName_None tb name :
  checkName tb name = None <->
  ~ isSource tb name /\ ~ isBox tb name /\ ~ isSink tb name.
Proof.
  unfold checkName, isSource, isBox, isSink.
  repeat case_bool_decide; naive_solver.
Qed.

Lemma checkName_Some tb name err :
  checkName tb name = Some err ->
  (isSource tb name /\ err = ErrSourceExists name) \/
  (isBox tb name /\ err = ErrBoxExists name) \/
  (isSink tb name /\ err = ErrSinkExists name).
Proof.
  unfold checkName, isSource, isBox, isSink.
  repeat case_bool_decide; naive_solver.
Qed.

Lemma IsValidOutputReference_spec tb name :
  IsValidOutputReference tb name = true <-> isSource tb name \/ isBox tb name.
Proof.
  unfold IsValidOutputReference, isSource, isBox.
  rewrite orb_true_iff, !bool_decide_eq_true. done.
Qed.

Lemma sessionInv_new : sessionInv newSession.
Proof.
  split; simpl.
  - intros n. unfold isSource, isBox, isSink. simpl.
    rewrite !lookup_empty. repeat split; intros [[? ?] _]; done.
  - intros e He. by apply elem_of_nil in He.
  - intros k bd Hk. by rewrite lookup_nil in Hk.
  - intros k sd Hk. by rewrite lookup_nil in Hk.
Qed.

Lemma is_Some_insert_iff {A} (m : gmap string A) k k' (x : A) :
  is_Some (<[k := x]> m !! k') <-> k = k' \/ is_Some (m !! k').
Proof.
  destruct (decide (k = k')) as [->|Hne].
  - rewrite lookup_insert_eq. naive_solver.
  - rewrite lookup_insert_ne by done. naive_solver.
Qed.

Lemma Build_runs order tb : exists tb' r, Build order tb = Some (tb', r).
Proof.
  unfold Build. destruct (builtFlag tb); [eauto|].
  case_bool_decide; [eauto|].
  destruct (hasCycle_runs order tb) as (b & path & ->). destruct b; eauto.
Qed.

Lemma Build_nodes order tb tb' r :
  Build order tb = Some (tb', r) ->
  sources tb' = sources tb /\ boxes tb' = boxes tb /\ sinks tb' = sinks tb /\
  Edges tb' = Edges tb.
Proof.
  unfold Build. destruct (builtFlag tb); [by intros [= <- <-]|].
  case_bool_decide; [by intros [= <- <-]|].
  destruct (hasCycle order tb) as [[[] path]|]; [| |done]; by intros [= <- <-].
Qed.

Lemma sessionCall_inv σ c σ' :
  sessionInv σ -> sessionCall σ c = Some σ' -> sessionInv σ'.
Proof.
  intros [Hn He Hb Hs]. destruct c as [name source|name box|name sink|k refname inputName|k refname|order]; simpl.
  - (* AddSource *)
    unfold AddSource. destruct (builtFlag (s_tb σ)) eqn:Hbf.
    { intros [= <-]. by split. }
    destruct (checkName (s_tb σ) name) as [err|] eqn:Hc.
    { intros [= <-]. by split. }
    apply checkName_None in Hc as (Hc1 & Hc2 & Hc3).
    intros [= <-]. split; simpl.
    + intros n. unfold isSource, isBox, isSink in *. simpl.
      rewrite is_Some_insert_iff. specialize (Hn n). naive_solver.
    + intros e Hin. unfold isSource, isBox, isSink in *. simpl.
      rewrite !is_Some_insert_iff. specialize (He e Hin). naive_solver.
    + done.
    + done.
  - (* AddBox *)
    unfold AddBox. destruct (builtFlag (s_tb σ)) eqn:Hbf.
    { intros [= <-]. split; simpl; try done.
      intros k bd Hk Herr. apply lookup_app_Some in Hk as [Hk|[_ Hk]]; [eauto|].
      apply list_lookup_singleton_Some in Hk as [_ <-]. done. }
    destruct (checkName (s_tb σ) name) as [err|] eqn:Hc.
    { intros [= <-]. split; simpl; try done.
      intros k bd Hk Herr. apply lookup_app_Some in Hk as [Hk|[_ Hk]]; [eauto|].
      apply list_lookup_singleton_Some in Hk as [_ <-]. done. }
    apply checkName_None in Hc as (Hc1 & Hc2 & Hc3).
    intros [= <-]. split; simpl.
    + intros n. unfold isSource, isBox, isSink in *. simpl.
      rewrite is_Some_insert_iff. specialize (Hn n). naive_solver.
    + intros e Hin. unfold isSource, isBox, isSink in *. simpl.
      rewrite !is_Some_insert_iff. specialize (He e Hin). naive_solver.
    + intros k bd Hk Herr. apply lookup_app_Some in Hk as [Hk|[_ Hk]].
      * pose proof (Hb k bd Hk Herr) as Hb1.
        rewrite lookup_insert_ne; [done|]. intros ->. apply Hc2. by eexists.
      * apply list_lookup_singleton_Some in Hk as [_ <-]. simpl.
        by rewrite lookup_insert_eq.
    + done.
  - (* AddSink *)
    unfold AddSink. destruct (builtFlag (s_tb σ)) eqn:Hbf.
    { intros [= <-]. split; simpl; try done.
      intros k sd Hk Herr. apply lookup_app_Some in Hk as [Hk|[_ Hk]]; [eauto|].
      apply list_lookup_singleton_Some in Hk as [_ <-]. done. }
    destruct (checkName (s_tb σ) name) as [err|] eqn:Hc.
    { intros [= <-]. split; simpl; try done.
      intros k sd Hk Herr. apply lookup_app_Some in Hk as [Hk|[_ Hk]]; [eauto|].
      apply list_lookup_singleton_Some in Hk as [_ <-]. done. }
    apply checkName_None in Hc as (Hc1 & Hc2 & Hc3).
    intros [= <-]. split; simpl.
    + intros n. unfold isSource, isBox, isSink in *. simpl.
      rewrite is_Some_insert_iff. specialize (Hn n). naive_solver.
    + intros e Hin. unfold isSource, isBox, isSink in *. simpl.
      rewrite !is_Some_insert_iff. specialize (He e Hin). naive_solver.
    + done.
    + intros k sd Hk Herr. apply lookup_app_Some in Hk as [Hk|[_ Hk]].
      * destruct (Hs k sd Hk Herr) as (b & Hb1 & Hb2). exists b. split; [done|].
        rewrite lookup_insert_ne; [done|]. intros ->. apply Hc3. by exists b.
      * apply list_lookup_singleton_Some in Hk as [_ <-]. simpl.
        exists sink. by rewrite lookup_insert_eq.
  - (* NamedInput *)
    destruct (s_boxes σ !! k) as [bd|] eqn:Hk; [|intros [= <-]; by split].
    assert (forall e,
      Some {| s_tb := s_tb σ; s_sources := s_sources σ;
              s_boxes := <[k := bd_fail bd e]> (s_boxes σ);
              s_sinks := s_sinks σ; s_built := s_built σ |} = Some σ' ->
      sessionInv σ') as Hfail.
    { intros e [= <-]. split; simpl; try done.
      intros k' bd' Hk' Herr. apply list_lookup_insert_Some in Hk' as [(<- & <- & _)|[_ Hk']]; [done|eauto]. }
    unfold NamedInput. destruct (bd_err bd) eqn:Herr.
    { intros [= <-]. rewrite list_insert_id by done. by destruct σ. }
    destruct (IsValidOutputReference (s_tb σ) refname) eqn:Hv; simpl; [|apply Hfail].
    pose proof (Hb k bd Hk Herr) as Hbox.
    destruct (bd_box bd) as [box|] eqn:Hbb; [|done].
    destruct (InputConstraints box) as [ic|err]; [|apply Hfail].
    destruct (inputNameOk ic inputName); simpl; [|apply Hfail].
    destruct (edgeAlreadyExists _ _); [apply Hfail|].
    intros [= <-]. split; simpl; try done.
    + intros e Hin. apply elem_of_app in Hin as [Hin|Hin]; [by apply He|].
      apply list_elem_of_singleton in Hin as ->. simpl.
      apply IsValidOutputReference_spec in Hv. split; [done|].
      left. by eexists.
    + intros k' bd' Hk' Herr'. apply list_lookup_insert_Some in Hk' as [(<- & <- & _)|[_ Hk']]; [|eauto].
      by rewrite Hbb.
  - (* SinkInput *)
    destruct (s_sinks σ !! k) as [sd|] eqn:Hk; [|intros [= <-]; by split].
    assert (forall e,
      Some {| s_tb := s_tb σ; s_sources := s_sources σ; s_boxes := s_boxes σ;
              s_sinks := <[k := sd_fail sd e]> (s_sinks σ);
              s_built := s_built σ |} = Some σ' ->
      sessionInv σ') as Hfail.
    { intros e [= <-]. split; simpl; try done.
      intros k' sd' Hk' Herr. apply list_lookup_insert_Some in Hk' as [(<- & <- & _)|[_ Hk']]; [done|eauto]. }
    unfold SinkInput. destruct (sd_err sd) eqn:Herr.
    { intros [= <-]. rewrite list_insert_id by done. by destruct σ. }
    destruct (IsValidOutputReference (s_tb σ) refname) eqn:Hv; simpl; [|apply Hfail].
    destruct (Hs k sd Hk Herr) as (sink & Hsk & Hsink).
    destruct (edgeAlreadyExists _ _); [apply Hfail|].
    intros [= <-]. split; simpl; try done.
    + intros e Hin. apply elem_of_app in Hin as [Hin|Hin]; [by apply He|].
      apply list_elem_of_singleton in Hin as ->. simpl.
      apply IsValidOutputReference_spec in Hv. split; [done|].
      right. by exists sink.
    + intros k' sd' Hk' Herr'. apply list_lookup_insert_Some in Hk' as [(<- & <- & _)|[_ Hk']]; eauto.
  - (* Build *)
    destruct (Build_runs order (s_tb σ)) as (tb' & r & HB). rewrite HB.
    apply Build_nodes in HB as (E1 & E2 & E3 & E4).
    assert (sessionInv {| s_tb := tb'; s_sources := s_sources σ;
              s_boxes := s_boxes σ; s_sinks := s_sinks σ; s_built := s_built σ |}) as HI.
    { split; simpl; unfold isSource, isBox, isSink; rewrite ?E1, ?E2, ?E3, ?E4; done. }
    destruct r as [err|st]; intros [= <-]; [done|].
    destruct HI as [? ? ? ?]. by split.
Qed.

Lemma sessionCalls_inv cs : forall σ σ',
  sessionInv σ -> sessionCalls σ cs = Some σ' -> sessionInv σ'.
Proof.
  induction cs as [|c cs IH]; intros σ σ' HI; simpl; [by intros [= <-]|].
  destruct (sessionCall σ c) as [σ1|] eqn:Hc; [|done].
  apply IH. by eapply sessionCall_inv.
Qed.

Lemma sessionCalls_app cs1 : forall σ cs2,
  sessionCalls σ (cs1 ++ cs2)
  = match sessionCalls σ cs1 with
    | None => None
    | Some σ1 => sessionCalls σ1 cs2
    end.
Proof.
  induction cs1 as [|c cs1 IH]; intros σ cs2; simpl; [done|].
  destruct (sessionCall σ c); [apply IH|done].
Qed.

(** The one call that panics: [NamedInput] with the name of a source or a
    box, on a declarer that has no error and no box. *)
Lemma sessionCall_None σ c :
  sessionCall σ c = None <->
  exists k refname inputName bd,
    c = CallNamedInput k refname inputName /\ s_boxes σ !! k = Some bd /\
    BoxErr bd = None /\ bd_box bd = None /\
    IsValidOutputReference (s_tb σ) refname = true.
Proof.
  split.
  - destruct c as [name source|name box|name sink|k refname inputName|k refname|order]; simpl.
    + by destruct (AddSource _ _ _).
    + by destruct (AddBox _ _ _).
    + by destruct (AddSink _ _ _).
    + destruct (s_boxes σ !! k) as [bd|] eqn:Hk; [|done].
      destruct (NamedInput _ _ _ _) as [[tb bd']|] eqn:HN; [done|]. intros _.
      exists k, refname, inputName, bd. split; [done|]. split; [done|].
      unfold NamedInput, BoxErr in *. destruct (bd_err bd); [done|].
      destruct (IsValidOutputReference _ _); [|done]. simpl in HN.
      destruct (bd_box bd) as [box|]; [|done].
      destruct (InputConstraints box); [|done].
      destruct (negb _); [done|]. by destruct (edgeAlreadyExists _ _).
    + destruct (s_sinks σ !! k) as [sd|]; [|done]. by destruct (SinkInput _ _ _).
    + destruct (Build_runs order (s_tb σ)) as (tb' & r & ->). by destruct r.
  - intros (k & refname & inputName & bd & -> & Hk & Herr & Hbox & Hv). simpl.
    rewrite Hk. unfold NamedInput, BoxErr in *. by rewrite Herr, Hv, Hbox.
Qed.

Lemma sessionCalls_None cs : forall σ,
  sessionCalls σ cs = None <->
  exists cs1 c cs2 σ1,
    cs = cs1 ++ c :: cs2 /\ sessionCalls σ cs1 = Some σ1 /\
    sessionCall σ1 c = None.
Proof.
  induction cs as [|c cs IH]; intros σ; simpl.
  - split; [done|]. intros (cs1 & c & cs2 & _ & Hcs & _). by destruct cs1.
  - destruct (sessionCall σ c) as [σ'|] eqn:Hc.
    + rewrite IH. split.
      * intros (cs1 & c' & cs2 & σ1 & -> & H1 & H2).
        exists (c :: cs1), c', cs2, σ1. simpl. by rewrite Hc.
      * intros (cs1 & c' & cs2 & σ1 & Hcs & H1 & H2).
        destruct cs1 as [|c1 cs1]; simpl in *.
        { injection Hcs as -> ->. injection H1 as <-. congruence. }
        injection Hcs as <- ->. rewrite Hc in H1. by exists cs1, c', cs2, σ1.
    + split; [|done]. intros _. by exists [], c, cs, σ.
Qed.

Lemma sessionCall_boxed σ c :
  boxedInv σ -> addsNilBox c = false ->
  exists σ', sessionCall σ c = Some σ' /\ boxedInv σ'.
Proof.
  intros Hb Hc.
  destruct (sessionCall σ c) as [σ'|] eqn:Hr.
  - exists σ'. split; [done|].
    destruct c as [name source|name box|name sink|k refname inputName|k refname|order]; simpl in Hr.
    + destruct (AddSource _ _ _). by injection Hr as <-.
    + unfold AddBox in Hr.
      assert (forall e, boxedInv {| s_tb := s_tb σ; s_sources := s_sources σ;
                s_boxes := s_boxes σ ++ [{| bd_name := ""; bd_box := None; bd_err := Some e |}];
                s_sinks := s_sinks σ; s_built := s_built σ |}) as Hfail.
      { intros e k bd Hk Herr. simpl in Hk.
        apply lookup_app_Some in Hk as [Hk|[_ Hk]]; [eauto|].
        apply list_lookup_singleton_Some in Hk as [_ <-]. done. }
      destruct (builtFlag (s_tb σ)); [injection Hr as <-; apply Hfail|].
      destruct (checkName _ _); [injection Hr as <-; apply Hfail|].
      injection Hr as <-. intros k bd Hk Herr. simpl in Hk.
      apply lookup_app_Some in Hk as [Hk|[_ Hk]]; [eauto|].
      apply list_lookup_singleton_Some in Hk as [_ <-]. simpl.
      by destruct box.
    + destruct (AddSink _ _ _). by injection Hr as <-.
    + destruct (s_boxes σ !! k) as [bd|] eqn:Hk; [|by injection Hr as <-].
      destruct (NamedInput _ _ _ _) as [[tb bd']|] eqn:HN; [|done].
      injection Hr as <-. intros k' bd'' Hk' Herr. simpl in Hk'.
      apply list_lookup_insert_Some in Hk' as [(<- & <- & _)|[_ Hk']]; [|eauto].
      assert (bd_box bd' = bd_box bd /\ (bd_err bd' = None -> bd_err bd = None))
        as [-> Hbe]; [|eauto].
      unfold NamedInput in HN.
      destruct (bd_err bd) eqn:Hbe;
        [by simplify_eq|].
      destruct (negb _); [by simplify_eq|].
      destruct (bd_box bd) as [box|] eqn:Hbb; [|done].
      destruct (InputConstraints box); [|by simplify_eq].
      destruct (negb _); [by simplify_eq|].
      destruct (edgeAlreadyExists _ _); by simplify_eq.
    + destruct (s_sinks σ !! k) as [sd|]; [|by injection Hr as <-].
      destruct (SinkInput _ _ _). by injection Hr as <-.
    + destruct (Build _ _) as [[tb []]|]; [| |done]; by injection Hr as <-.
  - apply sessionCall_None in Hr
      as (k & refname & inputName & bd & -> & Hk & Herr & Hbox & _).
    destruct (Hb k bd Hk Herr) as [box Hbox']. congruence.
Qed.

(** A client that adds no nil box never panics. *)
Lemma sessionCalls_runs cs :
  Forall (fun c => addsNilBox c = false) cs ->
  exists σ, sessionCalls newSession cs = Some σ.
Proof.
  assert (forall σ, boxedInv σ -> Forall (fun c => addsNilBox c = false) cs ->
            exists σ', sessionCalls σ cs = Some σ') as H.
  { induction cs as [|c cs IH]; intros σ Hb Hcs; simpl; [eauto|].
    apply Forall_cons in Hcs as [Hc Hcs].
    destruct (sessionCall_boxed σ c Hb Hc) as (σ1 & -> & Hb1). by apply IH. }
  apply H. intros k bd Hk. simpl in Hk. by rewrite lookup_nil in Hk.
Qed.

(** Node names are unique across kinds, and where a client can panic.  A
    sequence of calls on a new builder and its declarers that hands
    [AddBox] no nil box runs to its end.  After every sequence of calls
    that runs to its end, no name is the name of two nodes of different
    kinds (a source and a box, a source and a sink, a box and a sink).  A
    sequence of calls panics exactly if one of its calls is [NamedInput]
    with the name of a source or a box, on a declarer that has no error and
    a nil box, after calls that run to their end; the builder then holds
    the nil box under the declarer's name: it was added by [AddBox]. *)
Theorem builder_node_names_unique cs :
  (Forall (fun c => addsNilBox c = false) cs ->
   exists σ, sessionCalls newSession cs = Some σ) /\
  (forall σ, sessionCalls newSession cs = Some σ ->
     forall n, ~ (isSource (s_tb σ) n /\ isBox (s_tb σ) n) /\
               ~ (isSource (s_tb σ) n /\ isSink (s_tb σ) n) /\
               ~ (isBox (s_tb σ) n /\ isSink (s_tb σ) n)) /\
  (sessionCalls newSession cs = None <->
   exists cs1 k refname inputName cs2 σ1 bd,
     cs = cs1 ++ CallNamedInput k refname inputName :: cs2 /\
     sessionCalls newSession cs1 = Some σ1 /\
     s_boxes σ1 !! k = Some bd /\ BoxErr bd = None /\ bd_box bd = None /\
     boxes (s_tb σ1) !! bd_name bd = Some None /\
     IsValidOutputReference (s_tb σ1) refname = true).
Proof.
  split; [apply sessionCalls_runs|]. split.
  - intros σ Hr.
    by destruct (sessionCalls_inv cs newSession σ sessionInv_new Hr) as [Hn _ _ _].
  - rewrite sessionCalls_None. split.
    + intros (cs1 & c & cs2 & σ1 & -> & H1 & H2).
      apply sessionCall_None in H2
        as (k & refname & inputName & bd & -> & Hk & Herr & Hbox & Hv).
      exists cs1, k, refname, inputName, cs2, σ1, bd. repeat (split; [done|]).
      split; [|done].
      destruct (sessionCalls_inv cs1 newSession σ1 sessionInv_new H1) as [_ _ Hb _].
      rewrite <- Hbox. by apply (Hb k).
    + intros (cs1 & k & refname & inputName & cs2 & σ1 & bd & -> & H1 & Hk & Herr & Hbox & _ & Hv).
      exists cs1, (CallNamedInput k refname inputName), cs2, σ1.
      split; [done|]. split; [done|]. apply sessionCall_None. naive_solver.
Qed.

(** At a concrete input: the client that adds the source s and a nil box b
    panics when it declares s as an input of b; the client that adds real
    boxes only runs to its end, and the names of its nodes are unique. *)
Lemma builder_node_names_unique_witness :
  sessionCalls newSession calls_nil_box = None /\
  (exists cs1 k refname inputName cs2 σ1 bd,
     calls_nil_box = cs1 ++ CallNamedInput k refname inputName :: cs2 /\
     sessionCalls newSession cs1 = Some σ1 /\
     s_boxes σ1 !! k = Some bd /\ BoxErr bd = None /\ bd_box bd = None /\
     boxes (s_tb σ1) !! bd_name bd = Some None /\
     IsValidOutputReference (s_tb σ1) refname = true) /\
  (exists σ, sessionCalls newSession calls_built = Some σ) /\
  sessionCalls newSession calls_built = Some session_built /\
  forall n, ~ (isSource tb_built n /\ isBox tb_built n) /\
            ~ (isSource tb_built n /\ isSink tb_built n) /\
            ~ (isBox tb_built n /\ isSink tb_built n).
Proof.
  assert (sessionCalls newSession calls_nil_box = None) as Hnil
    by (vm_compute; reflexivity).
  assert (sessionCalls newSession calls_built = Some session_built) as Hrun
    by (vm_compute; reflexivity).
  split; [exact Hnil|]. split.
  - destruct (builder_node_names_unique calls_nil_box) as (_ & _ & [H _]).
    exact (H Hnil).
  - destruct (builder_node_names_unique calls_built) as (Hex & H & _).
    split; [apply Hex; repeat constructor|].
    split; [exact Hrun|]. exact (H session_built Hrun).
Defined.

(** Edges connect nodes of the builder.  A sequence of calls on a new
    builder and its declarers that hands [AddBox] no nil box runs to its
    end.  After every sequence of calls that runs to its end, every edge
    starts at a source or a box of the builder and ends at a box or a sink
    of the builder, and every declarer without error is the declarer of a
    box (of a sink) of the builder: the maps [Build] wires the topology
    from have an entry for both ends of every edge. *)
Theorem builder_edges_connect_nodes cs :
  (Forall (fun c => addsNilBox c = false) cs ->
   exists σ, sessionCalls newSession cs = Some σ) /\
  (forall σ, sessionCalls newSession cs = Some σ ->
    (forall e, e ∈ Edges (s_tb σ) ->
       (isSource (s_tb σ) (From e) \/ isBox (s_tb σ) (From e)) /\
       (isBox (s_tb σ) (To e) \/ isSink (s_tb σ) (To e))) /\
    (forall k bd, s_boxes σ !! k = Some bd -> BoxErr bd = None ->
       isBox (s_tb σ) (bd_name bd)) /\
    (forall k sd, s_sinks σ !! k = Some sd -> SinkErr sd = None ->
       isSink (s_tb σ) (sd_name sd))).
Proof.
  split; [apply sessionCalls_runs|]. intros σ Hr.
  destruct (sessionCalls_inv cs newSession σ sessionInv_new Hr) as [_ He Hb Hs].
  split; [done|]. split.
  - intros k bd Hk Herr. unfold isBox. by rewrite (Hb k bd Hk Herr).
  - intros k sd Hk Herr. destruct (Hs k sd Hk Herr) as (sink & _ & Hsink). by exists sink.
Qed.

(** At a concrete input: the edges s -> b and b -> k of the builder of
    [calls_built] connect its nodes. *)
Lemma builder_edges_connect_nodes_witness :
  (exists σ, sessionCalls newSession calls_built = Some σ) /\
  (forall e, e ∈ Edges tb_built ->
     (isSource tb_built (From e) \/ isBox tb_built (From e)) /\
     (isBox tb_built (To e) \/ isSink tb_built (To e))).
Proof.
  destruct (builder_edges_connect_nodes calls_built) as [Hex H].
  split; [apply Hex; repeat constructor|].
  refine (proj1 (H session_built _)). vm_compute. reflexivity.
Defined.

(** *** A built builder *)

Lemma NamedInput_edges tb bd refname inputName tb' bd' :
  NamedInput tb bd refname inputName = Some (tb', bd') ->
  sources tb' = sources tb /\ boxes tb' = boxes tb /\ sinks tb' = sinks tb /\
  builtFlag tb' = builtFlag tb /\ Edges tb `prefix_of` Edges tb'.
Proof.
  unfold NamedInput. intros H.
  destruct (bd_err bd); [by injection H as <- <-|].
  destruct (negb _); [by injection H as <- <-|].
  destruct (bd_box bd) as [box|]; [|done].
  destruct (InputConstraints box); [|by injection H as <- <-].
  destruct (negb _); [by injection H as <- <-|].
  destruct (edgeAlreadyExists _ _); injection H as <- <-; [done|].
  simpl. repeat split. by apply prefix_app_r.
Qed.

Lemma SinkInput_edges tb sd refname tb' sd' :
  SinkInput tb sd refname = (tb', sd') ->
  sources tb' = sources tb /\ boxes tb' = boxes tb /\ sinks tb' = sinks tb /\
  builtFlag tb' = builtFlag tb /\ Edges tb `prefix_of` Edges tb'.
Proof.
  unfold SinkInput. intros H.
  destruct (sd_err sd); [by injection H as <- <-|].
  destruct (negb _); [by injection H as <- <-|].
  destruct (edgeAlreadyExists _ _); injection H as <- <-; [done|].
  simpl. repeat split. by apply prefix_app_r.
Qed.

Lemma builtInv_snoc cs1 cs2 order c :
  (cs1 ++ CallBuild order :: cs2) ++ [c]
  = cs1 ++ CallBuild order :: (cs2 ++ [c]).
Proof. by rewrite <- app_assoc. Qed.

Lemma sessionCall_builtInv cs σ c σ' :
  sessionCalls newSession cs = Some σ -> builtInv cs σ ->
  sessionCall σ c = Some σ' -> builtInv (cs ++ [c]) σ'.
Proof.
  intros Hcs HI.
  assert (forall tb, sources tb = sources (s_tb σ) -> boxes tb = boxes (s_tb σ) ->
            sinks tb = sinks (s_tb σ) -> builtFlag tb = builtFlag (s_tb σ) ->
            Edges (s_tb σ) `prefix_of` Edges tb ->
            forall σ2, s_tb σ2 = tb -> s_built σ2 = s_built σ ->
            builtInv (cs ++ [c]) σ2) as Hkeep.
  { intros tb E1 E2 E3 E4 E5 σ2 <- Eb. unfold builtInv. rewrite Eb, E1, E2, E3, E4.
    destruct HI as [?|(st & cs1 & order & cs2 & σ1 & ? & ? & -> & ? & ? & ? & ? & ? & ? & ? & Hp)];
      [by left|right].
    exists st, cs1, order, (cs2 ++ [c]), σ1. rewrite builtInv_snoc.
    repeat (split; [done|]). by etrans. }
  destruct c as [name source|name box|name sink|k refname inputName|k refname|order]; simpl.
  - unfold AddSource. destruct HI as [[H1 H2]|HI].
    + rewrite H2. destruct (checkName _ _); intros [= <-]; left; done.
    + pose proof HI as (st & ? & ? & ? & ? & _ & H2 & _). rewrite H2.
      intros [= <-]. by eapply Hkeep.
  - unfold AddBox. destruct HI as [[H1 H2]|HI].
    + rewrite H2. destruct (checkName _ _); intros [= <-]; left; done.
    + pose proof HI as (st & ? & ? & ? & ? & _ & H2 & _). rewrite H2.
      intros [= <-]. by eapply Hkeep.
  - unfold AddSink. destruct HI as [[H1 H2]|HI].
    + rewrite H2. destruct (checkName _ _); intros [= <-]; left; done.
    + pose proof HI as (st & ? & ? & ? & ? & _ & H2 & _). rewrite H2.
      intros [= <-]. by eapply Hkeep.
  - destruct (s_boxes σ !! k) as [bd|]; [|intros [= <-]; by eapply Hkeep].
    destruct (NamedInput _ _ _ _) as [[tb bd']|] eqn:HN; [|done].
    apply NamedInput_edges in HN as (E1 & E2 & E3 & E4 & E5).
    intros [= <-]. by eapply (Hkeep tb).
  - destruct (s_sinks σ !! k) as [sd|]; [|intros [= <-]; by eapply Hkeep].
    destruct (SinkInput _ _ _) as [tb sd'] eqn:HN.
    apply SinkInput_edges in HN as (E1 & E2 & E3 & E4 & E5).
    intros [= <-]. by eapply (Hkeep tb).
  - destruct HI as [[H1 H2]|HI].
    + destruct (Build order (s_tb σ)) as [[tb [err|st]]|] eqn:HB; [| |done].
      * unfold Build in HB. rewrite H2 in HB.
        case_bool_decide; [injection HB as <- _; intros [= <-]; by left|].
        destruct (hasCycle order (s_tb σ)) as [[[] path]|]; [| |done]; [|done].
        injection HB as <- _. intros [= <-]. by left.
      * intros [= <-]. right. exists st, cs, order, [], σ. simpl. rewrite H1.
        unfold Build in HB. rewrite H2 in HB.
        case_bool_decide as Hsz; [done|].
        destruct (hasCycle order (s_tb σ)) as [[[] path]|] eqn:Hcy; [done| |done].
        injection HB as <- <-. simpl.
        do 4 (split; [done|]).
        split; [unfold Build; rewrite H2, Hcy; by rewrite bool_decide_eq_false_2|].
        do 3 (split; [done|]).
        split; [|done]. intros Hem. apply Hsz. rewrite Hem. apply map_size_empty.
    + pose proof HI as (st & ? & ? & ? & ? & _ & H2 & _).
      unfold Build. rewrite H2. intros [= <-]. by eapply Hkeep.
Qed.

Lemma sessionCalls_builtInv cs : forall σ,
  sessionCalls newSession cs = Some σ -> builtInv cs σ.
Proof.
  induction cs as [|c cs IH] using rev_ind; intros σ.
  - intros [= <-]. by left.
  - rewrite sessionCalls_app.
    destruct (sessionCalls newSession cs) as [σ1|] eqn:Hcs; [|done]. simpl.
    destruct (sessionCall σ1 c) as [σ2|] eqn:Hc; [|done]. intros [= <-].
    eapply sessionCall_builtInv; [done|by apply IH|done].
Qed.

(** [Build] succeeds at most once.  A sequence of calls on a new builder
    and its declarers that hands [AddBox] no nil box runs to its end.
    After every sequence of calls that runs to its end, [Build] has
    returned at most one topology, and it has returned one exactly if the
    builder is marked built.  That topology has the sources, boxes and
    sinks the builder has now and at least one source.  It is the result of
    one [Build] call of the sequence, on a builder that was not built yet,
    and its edges are the edges the builder had at that call: the edges
    the builder has now begin with them, and edges declared later are
    appended to the builder only.  On a built builder [AddSource], [AddBox],
    [AddSink] and [Build] fail with the already-built error and change
    nothing. *)
Theorem Build_succeeds_at_most_once cs :
  (Forall (fun c => addsNilBox c = false) cs ->
   exists σ, sessionCalls newSession cs = Some σ) /\
  (forall σ, sessionCalls newSession cs = Some σ ->
    (length (s_built σ) <= 1)%nat /\
    (builtFlag (s_tb σ) = true <-> s_built σ <> []) /\
    (forall st, st ∈ s_built σ ->
       st_srcs st = sources (s_tb σ) /\ st_boxes st = boxes (s_tb σ) /\
       st_sinks st = sinks (s_tb σ) /\ sources (s_tb σ) <> ∅ /\
       st_channels st `prefix_of` Edges (s_tb σ) /\
       exists cs1 order cs2 σ1,
         cs = cs1 ++ CallBuild order :: cs2 /\
         sessionCalls newSession cs1 = Some σ1 /\
         builtFlag (s_tb σ1) = false /\
         Build order (s_tb σ1) = Some (set_builtFlag (s_tb σ1) true, inr st) /\
         st_channels st = Edges (s_tb σ1)) /\
    (builtFlag (s_tb σ) = true ->
       (forall name source,
          AddSource (s_tb σ) name source
          = (s_tb σ, {| srcd_err := Some ErrAlreadyBuilt |})) /\
       (forall name box,
          fst (AddBox (s_tb σ) name box) = s_tb σ /\
          BoxErr (snd (AddBox (s_tb σ) name box)) = Some ErrAlreadyBuilt) /\
       (forall name sink,
          fst (AddSink (s_tb σ) name sink) = s_tb σ /\
          SinkErr (snd (AddSink (s_tb σ) name sink)) = Some ErrAlreadyBuilt) /\
       (forall order,
          Build order (s_tb σ) = Some (s_tb σ, inl ErrAlreadyBuilt)))).
Proof.
  split; [apply sessionCalls_runs|]. intros σ Hr.
  pose proof (sessionCalls_builtInv cs σ Hr)
    as [[H1 H2]|(st & cs1 & order & cs2 & σ1 & H1 & H2 & Hcs & Hr1 & HB & E1 & E2 & E3 & Hne & Hch & Hp)].
  - rewrite H1, H2. simpl. split; [lia|]. split; [done|]. split; [|done].
    intros st Hst. by apply elem_of_nil in Hst.
  - rewrite H1. simpl. split; [lia|]. split; [by rewrite H2|]. split.
    + intros st' Hst. apply list_elem_of_singleton in Hst as ->.
      repeat (split; [done|]). split; [by rewrite Hch|].
      exists cs1, order, cs2, σ1. repeat (split; [done|]). split; [|done].
      unfold Build in HB. destruct (builtFlag (s_tb σ1)); [done|done].
    + intros _. unfold AddSource, AddBox, AddSink, Build. rewrite H2. done.
Qed.

(** At a concrete input: the topology built from the source s and the box
    b has the one edge s -> b the builder had at the [Build] call, and not
    the edge b -> k declared afterwards; the [AddBox] call after it
    fails. *)
Lemma Build_succeeds_at_most_once_witness :
  (exists σ, sessionCalls newSession calls_built = Some σ) /\
  sessionCalls newSession calls_built = Some session_built /\
  forall st, st ∈ s_built session_built ->
    st_channels st `prefix_of` [edge_sb; edge_bk] /\
    exists cs1 order cs2 σ1,
      calls_built = cs1 ++ CallBuild order :: cs2 /\
      sessionCalls newSession cs1 = Some σ1 /\
      builtFlag (s_tb σ1) = false /\
      Build order (s_tb σ1) = Some (set_builtFlag (s_tb σ1) true, inr st) /\
      st_channels st = Edges (s_tb σ1).
Proof.
  assert (sessionCalls newSession calls_built = Some session_built) as Hrun
    by (vm_compute; reflexivity).
  destruct (Build_succeeds_at_most_once calls_built) as [Hex H].
  split; [apply Hex; repeat constructor|]. split; [exact Hrun|].
  destruct (H session_built Hrun) as (_ & _ & Hst & _).
  intros st Hin. destruct (Hst st Hin) as (_ & _ & _ & _ & Hp & Hcall). by split.
Defined.

End CoreFacts.

(** ** The BQL box *)

Module BQLFacts.
Import BQL BQLExamples.

Lemma limitReached_true b :
  limitReached b = true <-> 0 <= emitterLimit b /\ emitterLimit b <= emitCount b.
Proof. unfold limitReached. rewrite andb_true_iff, !Z.leb_le. done. Qed.

Lemma limitReached_false b :
  limitReached b = false <-> emitterLimit b < 0 \/ emitCount b < emitterLimit b.
Proof.
  rewrite <- not_true_iff_false, limitReached_true. lia.
Qed.

Lemma wrap64_succ e L : 0 <= e -> e < L -> L <= int64_max -> wrap64 (e + 1) = e + 1.
Proof.
  intros. apply wrap64_id. unfold in_int64, int64_min, int64_max in *. lia.
Qed.

Lemma written_app tr evs : written (tr ++ evs) = written tr ++ written evs.
Proof. apply filter_app. Qed.

Lemma removals_app tr evs : removals (tr ++ evs) = removals tr ++ removals evs.
Proof. apply filter_app. Qed.

Lemma write_calls_app tr evs : write_calls (tr ++ evs) = write_calls tr ++ write_calls evs.
Proof. apply filter_app. Qed.

Lemma writeAndCount_counts b s tup sw werr b' evs o :
  writeAndCount b s tup sw werr = (b', evs, o) ->
  0 <= emitCount b < emitterLimit b -> emitterLimit b <= int64_max ->
  same_config b b' /\ stopped b' = stopped b /\ removeMe b' = removeMe b /\
  lastTuple b' = lastTuple b /\ lastWriter b' = lastWriter b /\
  genCount b' = genCount b /\
  emitCount b' = emitCount b + Z.of_nat (length (written evs)) /\
  emitCount b' <= emitterLimit b /\
  (o = ItemNext -> emitCount b' < emitterLimit b).
Proof.
  unfold writeAndCount, same_config. intros H He HL.
  destruct sw; [destruct s as [w|]; [destruct werr as [err|]|]|].
  - injection H as <- <- <-. simpl. repeat split; try done; lia.
  - injection H as <- <- <-. simpl. rewrite (wrap64_succ _ (emitterLimit b)) by lia.
    repeat split; try done; try lia.
    destruct (limitReached _) eqn:Hl; [done|]. intros _.
    apply limitReached_false in Hl. simpl in Hl.
    lia.
  - injection H as <- <- <-. simpl. repeat split; try done; lia.
  - injection H as <- <- <-. simpl. repeat split; try done; lia.
Qed.

Lemma processItem_time b t s it :
  emitterSamplingType b = TimeBasedSampling ->
  processItem b t s it =
    (set_lastWriter (set_lastTuple b (Some (mkTuple t (item_data it)))) s, [], ItemNext).
Proof. intros H. unfold processItem. by rewrite H. Qed.

Lemma processItem_counts b t s it b' evs o :
  processItem b t s it = (b', evs, o) ->
  emitterSamplingType b <> TimeBasedSampling ->
  0 <= emitCount b < emitterLimit b -> emitterLimit b <= int64_max ->
  same_config b b' /\ stopped b' = stopped b /\ removeMe b' = removeMe b /\
  lastTuple b' = lastTuple b /\ lastWriter b' = lastWriter b /\
  emitCount b' = emitCount b + Z.of_nat (length (written evs)) /\
  emitCount b' <= emitterLimit b /\
  (o = ItemNext -> emitCount b' < emitterLimit b).
Proof.
  unfold processItem. intros H Hty He HL.
  destruct (emitterSamplingType b) eqn:Ety; [| |  |done].
  - apply writeAndCount_counts in H; [|done..]. naive_solver.
  - destruct (emitterSampling b =? 0).
    + injection H as <- <- <-. unfold same_config. simpl. repeat split; try done; lia.
    + apply writeAndCount_counts in H; [|done..]. unfold same_config in *. simpl in *.
      naive_solver.
  - apply writeAndCount_counts in H; [|done..]. naive_solver.
Qed.

Lemma processFinish_spec b b' evs :
  processFinish b = (b', evs) ->
  same_config b b' /\ stopped b' = stopped b /\ emitCount b' = emitCount b /\
  genCount b' = genCount b /\
  lastTuple b' = lastTuple b /\ lastWriter b' = lastWriter b /\
  write_calls evs = [] /\
  ((removeMe b' = removeMe b /\ evs = []) \/
   (exists cb, removeMe b = Some cb /\ removeMe b' = None /\ evs = [EvRemoveMe cb])).
Proof.
  unfold processFinish, same_config. intros H.
  destruct (limitReached b); [destruct (removeMe b) as [cb|] eqn:Hr|];
    injection H as <- <-; simpl; repeat split; eauto.
Qed.

Lemma written_no_calls evs : write_calls evs = [] -> written evs = [].
Proof.
  induction evs as [|e evs IH]; [done|]. unfold write_calls, written.
  destruct e as [w t [err|]| |]; rewrite ?filter_cons; simpl;
    repeat case_decide; try done; naive_solver.
Qed.

Lemma set_box_pc_id σ : set_box_pc σ (box σ) (pc σ) [] = σ.
Proof. destruct σ. unfold set_box_pc. simpl. by rewrite app_nil_r. Qed.

Lemma Inv_step L σ l : 0 <= L <= int64_max -> Inv L σ -> Inv L (step σ l).
Proof.
  intros HL HI. pose proof HI as [Hlim Hcnt Hwr Hem Htime Hloop].
  destruct l as [t plan s| |werr|]; simpl.
  - destruct (pc σ) as [fr|] eqn:Hpc; [done|].
    destruct (limitReached (box σ)) eqn:Hr; [done|].
    destruct plan as [items|err]; [|done].
    apply limitReached_false in Hr.
    constructor; simpl; rewrite ?app_nil_r; try done;
      [intros; left; lia|intros; lia].
  - destruct (pc σ) as [fr|] eqn:Hpc; [|done].
    destruct (f_items fr) as [|it rest] eqn:Hit.
    + destruct (processFinish (box σ)) as [b evs] eqn:Hf.
      apply processFinish_spec in Hf
        as ((E1 & E2 & E3) & E4 & E5 & E6 & E7 & E8 & Hcalls & _).
      apply written_no_calls in Hcalls.
      constructor; simpl;
        rewrite ?written_app, ?Hcalls, ?app_nil_r, ?E1, ?E3, ?E4, ?E5, ?E7;
        try done.
      intros Hty. destruct (Htime Hty) as [?|[?|[? ?]]]; auto.
    + destruct (decide (emitterSamplingType (box σ) = TimeBasedSampling))
        as [Hty|Hty].
      * rewrite processItem_time by done.
        constructor; simpl; rewrite ?app_nil_r; try done.
        intros _. destruct (Htime Hty) as [?|[?|[? ?]]]; auto. done.
      * destruct (processItem _ _ _ _) as [[b evs] o] eqn:Hp.
        apply processItem_counts in Hp
          as ((E1 & E2 & E3) & E4 & E5 & E6 & E7 & Hc & Hle & Hnext); try done;
          [|rewrite Hlim; split; [lia|eapply Hloop; eauto; congruence]|lia].
        assert (forall p, (forall fr', p = Some fr' -> f_items fr' <> [] ->
                             emitCount b < L) ->
                          Inv L (set_box_pc σ b p evs)) as Hgen.
        { intros p Hp. constructor; simpl;
            rewrite ?written_app, ?length_app, ?E1, ?E3; try done; try lia. }
        destruct o; apply Hgen; try done.
        -- intros fr' [= <-] _. rewrite <- Hlim. by apply Hnext.
        -- by intros fr' [= <-].
  - destruct (emitter σ) eqn:Hemit; [|done].
    specialize (Hem eq_refl).
    destruct (timeEmitterTick _ _ _) as [b evs] eqn:Ht.
    unfold timeEmitterTick in Ht.
    destruct (stopped (box σ)) eqn:Hst.
    { injection Ht as <- <-. by rewrite set_box_pc_id. }
    destruct (lastTuple (box σ)) as [tup|] eqn:Hlt;
      [destruct (lastWriter (box σ)) as [w|] eqn:Hlw|];
      try (injection Ht as <- <-; by rewrite set_box_pc_id).
    destruct (Htime Hem) as [Hlt'|[?|[? ?]]]; [|done..].
    assert (wrap64 (emitCount (box σ) + 1) = emitCount (box σ) + 1) as Hw
      by (apply (wrap64_succ _ L); lia).
    assert (Z.of_nat (length (written (EvWrite w tup werr ::
              match werr with
              | Some err => if hasCtx σ then [EvErrLog err w] else []
              | None => []
              end))) <= 1) as Hone.
    { destruct werr; [destruct (hasCtx σ)|]; vm_compute; done. }
    destruct (limitReached _) eqn:Hr.
    + destruct (removeMe _) as [cb|] eqn:Hrm; injection Ht as <- <-;
        constructor; simpl in *; rewrite ?Hw; try done; try lia; auto.
      all: rewrite ?app_comm_cons, ?written_app, ?length_app in *; simpl; try lia.
    + apply limitReached_false in Hr. simpl in Hr. rewrite Hw in Hr.
      injection Ht as <- <-.
      constructor; simpl in *; rewrite ?Hw, ?written_app, ?length_app;
        try done; try lia; auto.
  - constructor; simpl; rewrite ?app_nil_r; try done. intros _. by right; left.
Qed.

Lemma Inv_run L ls : forall σ, 0 <= L <= int64_max -> Inv L σ -> Inv L (run σ ls).
Proof.
  induction ls as [|l ls IH]; intros σ HL HI; [done|].
  simpl. apply IH; [done|]. by apply Inv_step.
Qed.

Lemma Inv_boot cb ap ctx :
  0 <= EmitterLimit ap -> Inv (EmitterLimit ap) (boot cb ap ctx).
Proof.
  intros HL. constructor; simpl; try done; try lia.
  - intros H. by apply bool_decide_eq_true in H.
  - intros _. by right; right.
Qed.

Lemma Process_limit_reached b t plan s :
  0 <= emitterLimit b <= emitCount b -> Process b t plan s = (b, [], RetNil).
Proof.
  intros H. unfold Process.
  by rewrite (proj2 (limitReached_true b)) by lia.
Qed.

(** C3.  In a box with the limit [L >= 0], whatever the sampling type and
    whatever the interleaving of [Process] calls, emitter ticks and
    [Terminate] calls, at most [L] tuples are ever written (handed to a
    [Write] that returned no error); and a call of
    [Process] on a box whose [emitCount] has reached the limit returns nil
    at once, with no event and the box unchanged. *)
Theorem emitter_limit_bounds_writes cb ap ctx ls :
  0 <= EmitterLimit ap <= int64_max ->
  Z.of_nat (length (written (trace (run (boot cb ap ctx) ls)))) <= EmitterLimit ap
  /\ (forall b t plan s,
        0 <= emitterLimit b <= emitCount b ->
        Process b t plan s = (b, [], RetNil)).
Proof.
  intros HL. split; [|apply Process_limit_reached].
  destruct (Inv_run (EmitterLimit ap) ls (boot cb ap ctx) HL) as [_ Hc Hw _ _ _].
  - apply Inv_boot. lia.
  - lia.
Qed.

(** *** [Process] as a run of the system *)
Lemma run_app σ l1 l2 : run (run σ l1) l2 = run σ (l1 ++ l2).
Proof. unfold run. by rewrite foldl_app. Qed.

Lemma run_idle_steps n : forall σ, pc σ = None -> run σ (replicate n LStep) = σ.
Proof.
  induction n as [|n IH]; intros σ H; [done|]. simpl. rewrite H. by apply IH.
Qed.

Lemma run_cons σ l ls : run σ (l :: ls) = run (step σ l) ls.
Proof. done. Qed.

Lemma step_LStep_nil b e c t s tr :
  step {| box := b; emitter := e; hasCtx := c;
          pc := Some {| f_t := t; f_s := s; f_items := [] |}; trace := tr |} LStep
  = let '(b2, ev2) := processFinish b in
    {| box := b2; emitter := e; hasCtx := c; pc := None; trace := tr ++ ev2 |}.
Proof. simpl. by destruct (processFinish b). Qed.

Lemma step_LStep_cons b e c t s it rest tr :
  step {| box := b; emitter := e; hasCtx := c;
          pc := Some {| f_t := t; f_s := s; f_items := it :: rest |};
          trace := tr |} LStep
  = match processItem b t s it with
    | (b1, evs, ItemNext) =>
        {| box := b1; emitter := e; hasCtx := c;
           pc := Some {| f_t := t; f_s := s; f_items := rest |};
           trace := tr ++ evs |}
    | (b1, evs, ItemBreak) =>
        {| box := b1; emitter := e; hasCtx := c;
           pc := Some {| f_t := t; f_s := s; f_items := [] |};
           trace := tr ++ evs |}
    | (b1, evs, _) =>
        {| box := b1; emitter := e; hasCtx := c; pc := None; trace := tr ++ evs |}
    end.
Proof. simpl. by destruct (processItem b t s it) as [[? ?] []]. Qed.

Lemma run_loop e c items : forall b t s tr,
  run {| box := b; emitter := e; hasCtx := c;
         pc := Some {| f_t := t; f_s := s; f_items := items |}; trace := tr |}
      (replicate (S (length items)) LStep) =
  match processLoop b t s items with
  | (b1, ev1, ItemReturn _) | (b1, ev1, ItemPanic) =>
      {| box := b1; emitter := e; hasCtx := c; pc := None; trace := tr ++ ev1 |}
  | (b1, ev1, _) =>
      let '(b2, ev2) := processFinish b1 in
      {| box := b2; emitter := e; hasCtx := c; pc := None;
         trace := tr ++ ev1 ++ ev2 |}
  end.
Proof.
  induction items as [|it rest IH]; intros b t s tr.
  - cbn [length replicate]. rewrite run_cons, step_LStep_nil. simpl.
    by destruct (processFinish b) as [b2 ev2].
  - cbn [length replicate processLoop]. rewrite run_cons, step_LStep_cons.
    destruct (processItem b t s it) as [[b1 ev1] o] eqn:Hp.
    destruct o.
    + rewrite IH. destruct (processLoop b1 t s rest) as [[b2 ev2] o2].
      destruct o2; [destruct (processFinish b2); by rewrite !app_assoc..| |];
        by rewrite !app_assoc.
    + rewrite run_cons, step_LStep_nil. destruct (processFinish b1) as [b2 ev2].
      rewrite run_idle_steps by done. by rewrite app_assoc.
    + by apply (run_idle_steps (S (length rest))).
    + by apply (run_idle_steps (S (length rest))).
Qed.

Lemma Process_as_run σ t items s :
  pc σ = None ->
  run σ (LProcess t (inl items) s :: replicate (S (length items)) LStep) =
  let '(b, evs, _) := Process (box σ) t (inl items) s in set_box_pc σ b None evs.
Proof.
  intros Hpc. destruct σ as [b e c p tr]. simpl in Hpc. subst p.
  rewrite run_cons. unfold Process, step, set_box_pc.
  cbn [pc box emitter hasCtx trace].
  destruct (limitReached b) eqn:Hl.
  - rewrite run_idle_steps by done. by rewrite app_nil_r.
  - rewrite app_nil_r, run_loop.
    destruct (processLoop b t s items) as [[b1 ev1] o].
    destruct o; try done; by destruct (processFinish b1).
Qed.

Lemma writeAndCount_removeMe b s tup sw werr b' evs o :
  writeAndCount b s tup sw werr = (b', evs, o) ->
  removeMe b' = removeMe b /\ removals evs = [] /\ stopped b' = stopped b /\
  emitterSamplingType b' = emitterSamplingType b.
Proof.
  unfold writeAndCount. intros H.
  destruct sw; [destruct s as [w|]; [destruct werr as [err|]|]|];
    injection H as <- <- <-; done.
Qed.

Lemma processItem_removeMe b t s it b' evs o :
  processItem b t s it = (b', evs, o) ->
  removeMe b' = removeMe b /\ removals evs = [] /\ stopped b' = stopped b /\
  emitterSamplingType b' = emitterSamplingType b.
Proof.
  unfold processItem. intros H. destruct (emitterSamplingType b) eqn:Hty.
  - apply writeAndCount_removeMe in H. by rewrite Hty in H.
  - destruct (emitterSampling b =? 0); [by injection H as <- <- <-|].
    apply writeAndCount_removeMe in H. simpl in H. by rewrite Hty in H.
  - apply writeAndCount_removeMe in H. by rewrite Hty in H.
  - by injection H as <- <- <-.
Qed.

Lemma timeEmitterTick_removeMe c b werr b' evs :
  timeEmitterTick c b werr = (b', evs) ->
  (length (removals evs) + pending b' = pending b)%nat /\
  (stopped b = true -> b' = b /\ evs = []) /\
  (stopped b = true -> stopped b' = true) /\
  emitterSamplingType b' = emitterSamplingType b.
Proof.
  unfold timeEmitterTick, pending. intros H.
  destruct (stopped b) eqn:Hst; [by injection H as <- <-|].
  destruct (lastTuple b) as [tup|]; [destruct (lastWriter b) as [w|]|];
    try (by injection H as <- <-).
  destruct (limitReached _);
    [simpl in H; destruct (removeMe b) as [cb|] eqn:Hr|];
    injection H as <- <-; simpl; rewrite ?Hr;
    (split; [|done]);
    destruct werr; try destruct c; done.
Qed.

Lemma step_removeMe σ l :
  (length (removals (trace (step σ l))) + pending (box (step σ l)) =
   length (removals (trace σ)) + pending (box σ))%nat.
Proof.
  destruct l as [t plan s| |werr|]; simpl.
  - destruct (pc σ); [done|]. destruct (limitReached _); [done|].
    destruct plan; [|done]. simpl. by rewrite app_nil_r.
  - destruct (pc σ) as [fr|]; [|done]. destruct (f_items fr) as [|it rest].
    + destruct (processFinish (box σ)) as [b evs] eqn:Hf.
      apply processFinish_spec in Hf as (_ & _ & _ & _ & _ & _ & _ & H).
      simpl. rewrite removals_app, length_app. unfold pending.
      destruct H as [[-> ->]|(cb & -> & -> & ->)]; simpl; lia.
    + destruct (processItem _ _ _ _) as [[b evs] o] eqn:Hp.
      apply processItem_removeMe in Hp as (H1 & H2 & _).
      assert (forall p, (length (removals (trace (set_box_pc σ b p evs))) +
                pending (box (set_box_pc σ b p evs)) =
                length (removals (trace σ)) + pending (box σ))%nat) as Hgen.
      { intros p. simpl. rewrite removals_app, H2, app_nil_r.
        unfold pending. by rewrite H1. }
      destruct o; apply Hgen.
  - destruct (emitter σ); [|done].
    destruct (timeEmitterTick _ _ _) as [b evs] eqn:Ht.
    apply timeEmitterTick_removeMe in Ht as (H & _). simpl.
    rewrite removals_app, length_app. lia.
  - rewrite app_nil_r. done.
Qed.

Lemma run_removeMe ls : forall σ,
  (length (removals (trace (run σ ls))) + pending (box (run σ ls)) =
   length (removals (trace σ)) + pending (box σ))%nat.
Proof.
  induction ls as [|l ls IH]; intros σ; [done|].
  rewrite run_cons, IH. apply step_removeMe.
Qed.

(** C7.  Over every run of a box, [removeMe] is called at most once, and
    once it has been called the field is nil. *)
Theorem removeMe_fires_at_most_once cb ap ctx ls :
  (length (removals (trace (run (boot cb ap ctx) ls))) <= 1)%nat /\
  (removals (trace (run (boot cb ap ctx) ls)) <> [] ->
   removeMe (box (run (boot cb ap ctx) ls)) = None).
Proof.
  pose proof (run_removeMe ls (boot cb ap ctx)) as H.
  assert (pending (box (boot cb ap ctx)) <= 1)%nat as Hp
    by (unfold pending; simpl; destruct cb; lia).
  change (removals (trace (boot cb ap ctx))) with (@nil event) in H.
  simpl length in H. split; [lia|].
  intros Hne. destruct (removals _) as [|e r]; [done|].
  simpl length in H. unfold pending in H at 1.
  destruct (removeMe (box (run _ _))); [lia|done].
Qed.

(** *** [Terminate] *)
Lemma step_stopped σ l : stopped (box σ) = true -> stopped (box (step σ l)) = true.
Proof.
  intros Hs. destruct l as [t plan s| |werr|]; simpl.
  - destruct (pc σ); [done|]. destruct (limitReached _); [done|].
    by destruct plan.
  - destruct (pc σ) as [fr|]; [|done]. destruct (f_items fr) as [|it rest].
    + destruct (processFinish (box σ)) as [b evs] eqn:Hf.
      apply processFinish_spec in Hf as (_ & H & _). simpl. congruence.
    + destruct (processItem _ _ _ _) as [[b evs] o] eqn:Hp.
      apply processItem_removeMe in Hp as (_ & _ & H & _).
      destruct o; simpl; congruence.
  - destruct (emitter σ); [|done].
    destruct (timeEmitterTick _ _ _) as [b evs] eqn:Ht.
    apply timeEmitterTick_removeMe in Ht as (_ & _ & H & _). simpl. auto.
  - done.
Qed.

Lemma step_samplingType σ l :
  emitterSamplingType (box (step σ l)) = emitterSamplingType (box σ).
Proof.
  destruct l as [t plan s| |werr|]; simpl.
  - destruct (pc σ); [done|]. destruct (limitReached _); [done|].
    by destruct plan.
  - destruct (pc σ) as [fr|]; [|done]. destruct (f_items fr) as [|it rest].
    + destruct (processFinish (box σ)) as [b evs] eqn:Hf.
      by apply processFinish_spec in Hf as ((_ & _ & H) & _).
    + destruct (processItem _ _ _ _) as [[b evs] o] eqn:Hp.
      apply processItem_removeMe in Hp as (_ & _ & _ & H).
      by destruct o.
  - destruct (emitter σ); [|done].
    destruct (timeEmitterTick _ _ _) as [b evs] eqn:Ht.
    by apply timeEmitterTick_removeMe in Ht as (_ & _ & _ & H).
  - done.
Qed.

Lemma step_tick_stopped σ werr :
  stopped (box σ) = true -> step σ (LTick werr) = σ.
Proof.
  intros Hs. simpl. destruct (emitter σ); [|done].
  unfold timeEmitterTick. rewrite Hs. apply set_box_pc_id.
Qed.

(** In a time-based box only a tick calls [Write]. *)
Lemma step_time_no_write σ l :
  emitterSamplingType (box σ) = TimeBasedSampling ->
  (forall werr, l <> LTick werr) ->
  write_calls (trace (step σ l)) = write_calls (trace σ).
Proof.
  intros Hty Hl. destruct l as [t plan s| |werr|]; simpl.
  - destruct (pc σ); [done|]. destruct (limitReached _); [done|].
    destruct plan; [|done]. simpl. by rewrite app_nil_r.
  - destruct (pc σ) as [fr|]; [|done]. destruct (f_items fr) as [|it rest].
    + destruct (processFinish (box σ)) as [b evs] eqn:Hf.
      apply processFinish_spec in Hf as (_ & _ & _ & _ & _ & _ & H & _).
      simpl. by rewrite write_calls_app, H, app_nil_r.
    + rewrite processItem_time by done. simpl. by rewrite app_nil_r.
  - by destruct (Hl werr).
  - by rewrite app_nil_r.
Qed.

Lemma run_stopped ls : forall σ,
  stopped (box σ) = true ->
  stopped (box (run σ ls)) = true /\
  (emitterSamplingType (box σ) = TimeBasedSampling ->
   write_calls (trace (run σ ls)) = write_calls (trace σ)).
Proof.
  induction ls as [|l ls IH]; intros σ Hs; [done|].
  rewrite run_cons. destruct (IH (step σ l)) as [H1 H2]; [by apply step_stopped|].
  split; [done|]. intros Hty. rewrite H2 by (by rewrite step_samplingType).
  destruct l as [t plan s| |werr|]; try (by apply step_time_no_write).
  by rewrite step_tick_stopped.
Qed.

(** C6.  [Terminate] sets [stopped] and returns nil, and a second call
    leaves the box as it is.  In every state reached after a [Terminate],
    [stopped] is still set and a tick of the emitter changes nothing: it
    writes no tuple, so a tuple waiting in [lastTuple] is never flushed.  In
    a time-based box no [Write] is called at all after [Terminate]. *)
Theorem Terminate_stops_time_emitter :
  (forall b, stopped (fst (Terminate b)) = true /\ snd (Terminate b) = RetNil /\
             Terminate (fst (Terminate b)) = (fst (Terminate b), RetNil))
  /\ (forall σ ls,
        let σ1 := run (step σ LTerminate) ls in
        stopped (box σ1) = true /\
        (forall werr, step σ1 (LTick werr) = σ1) /\
        (emitterSamplingType (box σ) = TimeBasedSampling ->
         write_calls (trace σ1) = write_calls (trace σ))).
Proof.
  split; [done|]. intros σ ls σ1.
  destruct (run_stopped ls (step σ LTerminate)) as [H1 H2]; [done|].
  split; [done|]. split.
  - intros werr. by apply step_tick_stopped.
  - intros Hty. unfold σ1. rewrite H2 by done. simpl. by rewrite app_nil_r.
Qed.

(** *** [Process] in a time-based box *)
Lemma processLoop_time items : forall b t s,
  emitterSamplingType b = TimeBasedSampling ->
  processLoop b t s items =
    (match last items with
     | Some it => set_lastWriter (set_lastTuple b (Some (mkTuple t (item_data it)))) s
     | None => b
     end, [], ItemNext).
Proof.
  induction items as [|it rest IH]; intros b t s Hty; [done|].
  cbn [processLoop]. rewrite processItem_time by done.
  rewrite IH by done. destruct rest as [|it' rest']; [done|].
  change (last (it :: it' :: rest')) with (last (it' :: rest')).
  destruct (last (it' :: rest')) eqn:Hl; [done|]. by apply last_None in Hl.
Qed.

(** C5.  In a time-based box [Process] calls no [Write]: it leaves the
    counters and [stopped] as they are and stores the tuple of the last
    generated row and the writer; and no step of the box other than a tick
    of the emitter calls [Write]. *)
Theorem time_based_Process_never_writes b t plan s :
  emitterSamplingType b = TimeBasedSampling ->
  (forall b' evs r, Process b t plan s = (b', evs, r) ->
     write_calls evs = [] /\ emitCount b' = emitCount b /\
     genCount b' = genCount b /\ stopped b' = stopped b /\
     (forall items, plan = inl items -> limitReached b = false ->
        lastTuple b' = match last items with
                       | Some it => Some (mkTuple t (item_data it))
                       | None => lastTuple b
                       end /\
        lastWriter b' = match items with [] => lastWriter b | _ => s end))
  /\ (forall σ l, box σ = b -> (forall werr, l <> LTick werr) ->
        write_calls (trace (step σ l)) = write_calls (trace σ)).
Proof.
  intros Hty. split.
  - intros b' evs r. unfold Process.
    destruct (limitReached b) eqn:Hl.
    { intros [= <- <- <-]. repeat split; try done. }
    destruct plan as [items|err]; [|intros [= <- <- <-]; repeat split; done].
    rewrite processLoop_time by done.
    destruct (processFinish _) as [b2 ev2] eqn:Hf.
    apply processFinish_spec in Hf as (_ & E1 & E2 & E3 & E4 & E5 & Hc & _).
    intros [= <- <- <-]. rewrite E1, E2, E3, E4, E5. simpl.
    split; [done|].
    destruct items as [|it rest].
    { do 3 (split; [done|]). by intros ? [= <-] _. }
    destruct (last (it :: rest)) eqn:Hlast; [|by apply last_None in Hlast].
    do 3 (split; [done|]). intros ? [= <-] _. by rewrite Hlast.
  - intros σ l <-. by apply step_time_no_write.
Qed.

(** *** Count-based sampling *)
Lemma ceil_div_succ k g :
  0 < k -> 0 <= g ->
  ceil_div (g + 1) k = if g mod k =? 0 then ceil_div g k + 1 else ceil_div g k.
Proof.
  intros Hk Hg. unfold ceil_div.
  pose proof (Z.div_mod g k ltac:(lia)) as Hd.
  pose proof (Z.mod_pos_bound g k Hk) as Hm.
  destruct (Z.eqb_spec (g mod k) 0) as [H0|H0].
  - replace (g + 1 + k - 1) with ((g / k + 1) * k + 0) by lia.
    replace (g + k - 1) with ((g / k) * k + (k - 1)) by lia.
    rewrite !Z.div_add_l by lia. rewrite Z.div_0_l by lia.
    rewrite (Z.div_small (k - 1)) by lia. lia.
  - replace (g + 1 + k - 1) with ((g / k + 1) * k + g mod k) by lia.
    replace (g + k - 1) with ((g / k + 1) * k + (g mod k - 1)) by lia.
    rewrite !Z.div_add_l by lia.
    rewrite (Z.div_small (g mod k)), (Z.div_small (g mod k - 1)) by lia. lia.
Qed.

Lemma ceil_div_mono k x y : 0 < k -> x <= y -> ceil_div x k <= ceil_div y k.
Proof. intros. unfold ceil_div. apply Z.div_le_mono; lia. Qed.

Lemma ceil_div_0 k : 0 < k -> ceil_div 0 k = 0.
Proof. intros. unfold ceil_div. apply Z.div_small. lia. Qed.

Lemma sampled_length {A} k (rows : list A) : forall g,
  0 < k -> 0 <= g ->
  Z.of_nat (length (sampled k g rows)) =
    ceil_div (g + Z.of_nat (length rows)) k - ceil_div g k.
Proof.
  induction rows as [|r rows IH]; intros g Hk Hg.
  - simpl. rewrite Z.add_0_r. lia.
  - cbn [sampled length]. pose proof (ceil_div_succ k g Hk Hg) as Hs.
    replace (g + Z.of_nat (S (length rows))) with (g + 1 + Z.of_nat (length rows)) by lia.
    destruct (g mod k =? 0); cbn [length]; rewrite ?Nat2Z.inj_succ, IH by lia; lia.
Qed.

Lemma sampled_app {A} k (l1 l2 : list A) : forall g,
  sampled k g (l1 ++ l2) = sampled k g l1 ++ sampled k (g + Z.of_nat (length l1)) l2.
Proof.
  induction l1 as [|r l1 IH]; intros g.
  - simpl. by rewrite Z.add_0_r.
  - cbn [sampled app length]. rewrite IH.
    replace (g + 1 + Z.of_nat (length l1)) with (g + Z.of_nat (S (length l1))) by lia.
    by destruct (g mod k =? 0).
Qed.

Lemma sampled_fmap {A B} (f : A -> B) k (l : list A) : forall g,
  sampled k g (f <$> l) = f <$> sampled k g l.
Proof.
  induction l as [|r l IH]; intros g; [done|].
  cbn [sampled fmap list_fmap]. rewrite IH. by destruct (g mod k =? 0).
Qed.

Lemma sampled_nil_of_count {A} k g (rows : list A) :
  0 < k -> 0 <= g ->
  ceil_div (g + Z.of_nat (length rows)) k <= ceil_div g k -> sampled k g rows = [].
Proof.
  intros Hk Hg H. pose proof (sampled_length k rows g Hk Hg) as Hl.
  destruct (sampled k g rows); [done|]. simpl in Hl. lia.
Qed.

Lemma ceil_div_bounds k x : 0 < k -> 0 <= x -> 0 <= ceil_div x k <= x.
Proof.
  intros Hk Hx. unfold ceil_div. split.
  - apply Z.div_pos; lia.
  - destruct (decide (x = 0)) as [->|Hne].
    + rewrite Z.div_small; lia.
    + apply Z.lt_succ_r. apply Z.div_lt_upper_bound; nia.
Qed.

Lemma processItem_count t w k L b it G :
  cfg b k L -> 0 < k -> 0 <= G -> G + 1 <= int64_max ->
  genCount b = G -> emitCount b = ceil_div G k -> limitReached b = false ->
  item_werr it = None ->
  exists b' o,
    processItem b t (Some w) it =
      (b', (fun it => EvWrite w (mkTuple t (item_data it)) None) <$> sampled k G [it], o)
    /\ cfg b' k L /\ removeMe b' = removeMe b /\ genCount b' = G + 1
    /\ emitCount b' = ceil_div (G + 1) k
    /\ o = (if limitReached b' then ItemBreak else ItemNext).
Proof.
  intros (Hty & Hk & HL) Hkpos HG Hmax Hg Hc Hl Hw.
  unfold processItem. rewrite Hty, Hk, Hg, Hw.
  rewrite (proj2 (Z.eqb_neq k 0)) by lia.
  rewrite Z.rem_mod_nonneg by lia.
  rewrite (wrap64_id (G + 1))
    by (unfold in_int64, int64_min, int64_max in *; lia).
  pose proof (ceil_div_succ k G Hkpos HG) as Hs.
  pose proof (ceil_div_bounds k (G + 1) Hkpos ltac:(lia)) as Hb.
  cbn [sampled]. unfold writeAndCount.
  destruct (G mod k =? 0) eqn:Hmod.
  - cbn [emitCount set_genCount]. rewrite Hc.
    rewrite (wrap64_id (ceil_div G k + 1))
      by (unfold in_int64, int64_min, int64_max in *; lia).
    eexists _, _. split; [reflexivity|]. unfold cfg. simpl.
    repeat split; try done; lia.
  - eexists _, _. split; [reflexivity|]. unfold cfg. simpl.
    repeat split; try done; lia.
Qed.

Lemma processLoop_count t w k L items : forall b G,
  cfg b k L -> 0 < k -> 0 <= G ->
  G + Z.of_nat (length items) <= int64_max ->
  genCount b = G -> emitCount b = ceil_div G k -> limitReached b = false ->
  Forall (fun it => item_werr it = None) items ->
  (L < 0 \/ ceil_div (G + Z.of_nat (length items)) k <= L) ->
  exists b' o,
    processLoop b t (Some w) items = (b', emit1 t w <$> sampled k G items, o)
    /\ cfg b' k L /\ removeMe b' = removeMe b
    /\ ((o = ItemNext /\ limitReached b' = false /\
         genCount b' = G + Z.of_nat (length items) /\
         emitCount b' = ceil_div (G + Z.of_nat (length items)) k)
        \/ (o = ItemBreak /\ limitReached b' = true /\
            ceil_div (G + Z.of_nat (length items)) k = L)).
Proof.
  induction items as [|it rest IH]; intros b G Hcfg Hk HG Hmax Hg Hc Hl Hw HL.
  - exists b, ItemNext. simpl. rewrite Z.add_0_r. split; [done|].
    split; [done|]. split; [done|]. by left.
  - apply Forall_cons in Hw as [Hw1 Hw].
    cbn [length] in Hmax, HL |- *. rewrite Nat2Z.inj_succ in Hmax, HL |- *.
    replace (G + Z.succ (Z.of_nat (length rest)))
      with (G + 1 + Z.of_nat (length rest)) in * by lia.
    destruct (processItem_count t w k L b it G) as (b1 & o1 & Hp & Hcfg1 & Hr1 & Hg1 & Hc1 & Ho1);
      try done; [lia|].
    cbn [processLoop]. rewrite Hp.
    change (it :: rest) with ([it] ++ rest).
    rewrite sampled_app, fmap_app.
    change (Z.of_nat (length [it])) with 1.
    destruct (limitReached b1) eqn:Hl1; subst o1.
    + (* the limit was reached by this row: the rest is dropped *)
      apply limitReached_true in Hl1 as Hl1'. destruct Hcfg1 as (? & ? & HL1).
      rewrite HL1, Hc1 in Hl1'.
      pose proof (ceil_div_mono k (G + 1) (G + 1 + Z.of_nat (length rest)) Hk
                    ltac:(lia)).
      rewrite (sampled_nil_of_count k (G + 1) rest) by (try done; lia).
      rewrite app_nil_r. exists b1, ItemBreak.
      split; [done|]. split; [done|]. split; [done|]. right.
      split; [done|]. split; [done|]. lia.
    + destruct (IH b1 (G + 1)) as (b2 & o2 & Hp2 & Hcfg2 & Hr2 & Hres);
        try done; try lia.
      rewrite Hp2. exists b2, o2.
      split; [done|]. split; [done|]. split; [congruence|]. done.
Qed.

Lemma write_calls_emit1 t w (l : list genItem) :
  write_calls (emit1 t w <$> l) = emit1 t w <$> l.
Proof.
  induction l as [|x l IH]; [done|]. unfold write_calls in *.
  rewrite fmap_cons, filter_cons_True by done. by rewrite IH.
Qed.

Lemma processFinish_keeps b b' evs :
  processFinish b = (b', evs) ->
  emitterLimit b' = emitterLimit b /\ emitterSampling b' = emitterSampling b /\
  emitterSamplingType b' = emitterSamplingType b /\
  emitCount b' = emitCount b /\ genCount b' = genCount b /\ write_calls evs = [].
Proof.
  unfold processFinish. intros H.
  destruct (limitReached b); [destruct (removeMe b)|]; by injection H as <- <-.
Qed.

Lemma limitReached_same b b' :
  emitterLimit b' = emitterLimit b -> emitCount b' = emitCount b ->
  limitReached b' = limitReached b.
Proof. unfold limitReached. by intros -> ->. Qed.

Lemma rowsOf_cons t items w rest :
  rowsOf ((t, items, w) :: rest) = ((fun it => (t, w, it)) <$> items) ++ rowsOf rest.
Proof. done. Qed.

Lemma runProcess_count k L calls : forall b G,
  cfg b k L -> 0 < k -> 0 <= G ->
  G + Z.of_nat (length (rowsOf calls)) <= int64_max ->
  Forall (fun r => item_werr r.2 = None) (rowsOf calls) ->
  (L < 0 \/ ceil_div (G + Z.of_nat (length (rowsOf calls))) k <= L) ->
  ((limitReached b = false /\ genCount b = G /\ emitCount b = ceil_div G k)
   \/ (limitReached b = true /\ ceil_div G k = L)) ->
  exists b' evs,
    runProcess b calls = (b', evs)
    /\ write_calls evs = emission <$> sampled k G (rowsOf calls)
    /\ (limitReached b = false ->
        L < 0 \/ ceil_div (G + Z.of_nat (length (rowsOf calls))) k < L ->
        genCount b' = G + Z.of_nat (length (rowsOf calls))).
Proof.
  induction calls as [|[[t items] w] rest IH]; intros b G Hcfg Hk HG Hmax Hw HL Hreg.
  - exists b, []. simpl. rewrite Z.add_0_r. split; [done|]. split; [done|].
    intros Hl _. destruct Hreg as [(_ & ? & _)|[? _]]; congruence.
  - rewrite rowsOf_cons in *. rewrite length_app, length_fmap, Nat2Z.inj_add in *.
    apply Forall_app in Hw as [Hw1 Hw2].
    rewrite Z.add_assoc in *.
    set (m := Z.of_nat (length items)) in *.
    set (n := Z.of_nat (length (rowsOf rest))) in *.
    pose proof (ceil_div_mono k G (G + m) Hk ltac:(lia)) as Hm1.
    pose proof (ceil_div_mono k (G + m) (G + m + n) Hk ltac:(lia)) as Hm2.
    rewrite sampled_app, fmap_app, length_fmap. fold m.
    cbn [runProcess]. unfold Process.
    destruct Hreg as [(Hl & Hg & Hc)|[Hl HcL]]; rewrite Hl.
    + assert (Forall (fun it => item_werr it = None) items) as Hw1'.
      { apply Forall_fmap in Hw1. eapply Forall_impl; [exact Hw1|]. by intros it. }
      assert (L < 0 \/ ceil_div (G + m) k <= L) as HL1 by lia.
      destruct (processLoop_count t w k L items b G Hcfg Hk HG ltac:(fold m; lia)
                  Hg Hc Hl Hw1' HL1)
        as (b1 & o & Hp & Hcfg1 & _ & Hres).
      rewrite Hp.
      destruct (processFinish b1) as [b2 ev2] eqn:Hf.
      apply processFinish_keeps in Hf as (E1 & E2 & E3 & E4 & E5 & E6).
      assert (cfg b2 k L) as Hcfg2.
      { destruct Hcfg1 as (? & ? & ?). unfold cfg. by rewrite E1, E2, E3. }
      pose proof (limitReached_same b1 b2 E1 E4) as Hsame.
      assert ((limitReached b2 = false /\ genCount b2 = G + m /\
               emitCount b2 = ceil_div (G + m) k)
              \/ (limitReached b2 = true /\ ceil_div (G + m) k = L)) as Hreg2.
      { destruct Hres as [(-> & Hl1 & Hg1 & Hc1)|(-> & Hl1 & Hc1)].
        - left. rewrite Hsame, E4, E5. done.
        - right. rewrite Hsame. done. }
      destruct (IH b2 (G + m) Hcfg2 Hk ltac:(lia) Hmax Hw2 HL Hreg2)
        as (b' & evs & Hrun & Hwr & Hgen).
      exists b', ((emit1 t w <$> sampled k G items) ++ ev2 ++ evs).
      split.
      { destruct Hres as [(-> & _)|(-> & _)]; by rewrite Hrun, app_assoc. }
      split.
      { rewrite !write_calls_app, write_calls_emit1, E6, Hwr. simpl.
        f_equal. rewrite sampled_fmap, <- list_fmap_compose. done. }
      intros _ Hlt. apply Hgen; [|done].
      destruct Hres as [(-> & Hl1 & _)|(-> & Hl1 & Hc1)]; [by rewrite Hsame|].
      apply limitReached_true in Hl1. destruct Hcfg1 as (_ & _ & HLb1). lia.
    + apply limitReached_true in Hl as Hl'. destruct Hcfg as (? & ? & HLb).
      assert ((limitReached b = false /\ genCount b = G + m /\
               emitCount b = ceil_div (G + m) k)
              \/ (limitReached b = true /\ ceil_div (G + m) k = L)) as Hreg2
        by (right; split; [done|lia]).
      destruct (IH b (G + m) (conj H (conj H0 HLb)) Hk ltac:(lia) Hmax Hw2 HL Hreg2)
        as (b' & evs & Hrun & Hwr & Hgen).
      rewrite Hrun. exists b', evs. split; [done|]. split; [|done].
      rewrite Hwr. rewrite (sampled_nil_of_count k G) by (try done; rewrite length_fmap; fold m; lia).
      done.
Qed.

Lemma processItem_row b t w it b' evs o :
  emitterSamplingType b = CountBasedSampling -> 0 < emitterSampling b ->
  0 <= genCount b < int64_max ->
  processItem b t (Some w) it = (b', evs, o) ->
  genCount b' = genCount b + 1 /\
  write_calls evs =
    if genCount b mod emitterSampling b =? 0
    then [EvWrite w (mkTuple t (item_data it)) (item_werr it)] else [].
Proof.
  intros Hty Hk Hg. unfold processItem. rewrite Hty.
  rewrite (proj2 (Z.eqb_neq (emitterSampling b) 0)) by lia.
  rewrite Z.rem_mod_nonneg by lia.
  rewrite (wrap64_id (genCount b + 1))
    by (unfold in_int64, int64_min, int64_max in *; lia).
  unfold writeAndCount.
  destruct (genCount b mod emitterSampling b =? 0);
    [destruct (item_werr it)|]; intros [= <- <- <-]; done.
Qed.

(** C4.  In a box with count-based sampling every [k > 0] rows, a generated
    row is handed to [Write] if and only if the generation count [genCount]
    at that moment is a multiple of [k], and [genCount] grows by one with
    the row.  Hence, while the limit is not reached and no write fails, of
    the first [n] generated rows exactly those with a 0-based index that is
    a multiple of [k] are written, [⌈n/k⌉] of them, and [genCount] ends
    at [n]. *)
Theorem count_based_sampling cb ap ctx calls :
  EmitterSamplingType_ ap = CountBasedSampling ->
  0 < EmitterSampling ap ->
  Z.of_nat (length (rowsOf calls)) <= int64_max ->
  Forall (fun r => item_werr r.2 = None) (rowsOf calls) ->
  (forall b t w it b' evs o,
     emitterSamplingType b = CountBasedSampling ->
     emitterSampling b = EmitterSampling ap ->
     0 <= genCount b < int64_max ->
     processItem b t (Some w) it = (b', evs, o) ->
     genCount b' = genCount b + 1 /\
     write_calls evs =
       if genCount b mod EmitterSampling ap =? 0
       then [EvWrite w (mkTuple t (item_data it)) (item_werr it)] else [])
  /\ (EmitterLimit ap < 0 \/
      ceil_div (Z.of_nat (length (rowsOf calls))) (EmitterSampling ap)
        <= EmitterLimit ap ->
      exists b' evs,
        runProcess (box (boot cb ap ctx)) calls = (b', evs)
        /\ write_calls evs = emission <$> sampled (EmitterSampling ap) 0 (rowsOf calls)
        /\ Z.of_nat (length (write_calls evs)) =
             ceil_div (Z.of_nat (length (rowsOf calls))) (EmitterSampling ap)
        /\ (EmitterLimit ap < 0 \/
            ceil_div (Z.of_nat (length (rowsOf calls))) (EmitterSampling ap)
              < EmitterLimit ap ->
            genCount b' = Z.of_nat (length (rowsOf calls)))).
Proof.
  intros Hty Hk Hmax Hw. split.
  - intros b t w it b' evs o Hb Hkb Hg Hp. rewrite <- Hkb in *.
    exact (processItem_row b t w it b' evs o Hb Hk Hg Hp).
  - intros HL.
    set (b0 := box (boot cb ap ctx)).
    assert (cfg b0 (EmitterSampling ap) (EmitterLimit ap)) as Hcfg by done.
    assert ((limitReached b0 = false /\ genCount b0 = 0 /\
             emitCount b0 = ceil_div 0 (EmitterSampling ap))
            \/ (limitReached b0 = true /\
                ceil_div 0 (EmitterSampling ap) = EmitterLimit ap)) as Hreg.
    { rewrite ceil_div_0 by done. destruct (limitReached b0) eqn:Hl; [right|by left].
      split; [done|]. apply limitReached_true in Hl. simpl in Hl. lia. }
    destruct (runProcess_count (EmitterSampling ap) (EmitterLimit ap) calls b0 0
                Hcfg Hk ltac:(lia) ltac:(lia) Hw HL Hreg)
      as (b' & evs & Hrun & Hwr & Hgen).
    rewrite Z.add_0_l in *.
    exists b', evs. split; [done|]. split; [done|]. split.
    + rewrite Hwr, length_fmap, sampled_length by (try done; lia).
      rewrite ceil_div_0 by done. rewrite Z.add_0_l. lia.
    + intros Hlt. apply Hgen; [|done].
      destruct (limitReached b0) eqn:Hl; [|done].
      apply limitReached_true in Hl. simpl in Hl.
      pose proof (ceil_div_bounds (EmitterSampling ap)
                    (Z.of_nat (length (rowsOf calls))) Hk ltac:(lia)). lia.
Qed.

(** *** The theorems at example boxes *)

Example ls_limit2_writes :
  length (written (trace (run (boot None ap_limit2 true) ls_limit2))) = 2%nat.
Proof. vm_compute. reflexivity. Qed.

(** A box with LIMIT 2 that is fed four rows by two calls writes at most
    two tuples. *)
Lemma emitter_limit_bounds_writes_witness :
  Z.of_nat (length (written (trace (run (boot None ap_limit2 true) ls_limit2))))
  <= 2.
Proof.
  apply (emitter_limit_bounds_writes None ap_limit2 true ls_limit2).
  vm_compute. split; discriminate.
Defined.

(** Of ten rows, a box that emits every third tuple writes four: the rows 0,
    3, 6 and 9. *)
Lemma count_based_sampling_witness :
  exists b' evs,
    runProcess (box (boot None ap_every3 true)) calls10 = (b', evs) /\
    write_calls evs = emission <$> [ (t0, w0, row "0"); (t0, w0, row "3");
                                     (t0, w0, row "6"); (t0, w0, row "9") ] /\
    Z.of_nat (length (write_calls evs)) = 4 /\
    genCount b' = 10.
Proof.
  assert (Forall (fun r => item_werr r.2 = None) (rowsOf calls10)) as Hw
    by (simpl; repeat constructor).
  destruct (count_based_sampling None ap_every3 true calls10
              eq_refl eq_refl ltac:(vm_compute; discriminate) Hw) as [_ H].
  destruct H as (b' & evs & Hrun & Hcalls & Hlen & Hgen); [left; reflexivity|].
  exists b', evs. split; [exact Hrun|]. split; [exact Hcalls|].
  split; [exact Hlen|]. apply Hgen. left. reflexivity.
Defined.

(** A call of [Process] on a time-based box calls no writer and keeps the
    last row for the emitter. *)
Lemma time_based_Process_never_writes_witness :
  write_calls
    (snd (fst (Process b_time t0 (inl [row "x"; row "y"]) (Some w0)))) = [] /\
  lastTuple (fst (fst (Process b_time t0 (inl [row "x"; row "y"]) (Some w0))))
    = Some (mkTuple t0 "y") /\
  lastWriter (fst (fst (Process b_time t0 (inl [row "x"; row "y"]) (Some w0))))
    = Some w0.
Proof.
  destruct (Process b_time t0 (inl [row "x"; row "y"]) (Some w0))
    as [[b' evs] r] eqn:Hp.
  destruct (time_based_Process_never_writes b_time t0
              (inl [row "x"; row "y"]) (Some w0) eq_refl) as [H _].
  destruct (H b' evs r Hp) as (Hw & _ & _ & _ & Hl).
  destruct (Hl _ eq_refl eq_refl) as [Hl1 Hl2]. auto.
Defined.

(** *** Sampling and the limit on the list of generated rows *)

Import BQLSelect.

Lemma selectBy_app {A} (d : Z -> A -> bool) (l1 l2 : list A) : forall g,
  selectBy d g (l1 ++ l2)
  = selectBy d g l1 ++ selectBy d (g + Z.of_nat (length l1)) l2.
Proof.
  induction l1 as [|x l1 IH]; intros g; simpl.
  - by rewrite Z.add_0_r.
  - rewrite IH. replace (g + 1 + Z.of_nat (length l1))
      with (g + Z.pos (Pos.of_succ_nat (length l1))) by lia.
    by destruct (d g x).
Qed.

Lemma selectBy_fmap {A B} (f : A -> B) (d : Z -> B -> bool) (l : list A) :
  forall g, selectBy d g (f <$> l) = f <$> selectBy (fun g x => d g (f x)) g l.
Proof.
  induction l as [|x l IH]; intros g; simpl; [done|].
  rewrite IH. by destruct (d g (f x)).
Qed.

Lemma selectBy_length {A} (d : Z -> A -> bool) (l : list A) : forall g,
  (length (selectBy d g l) <= length l)%nat.
Proof.
  induction l as [|x l IH]; intros g; simpl; [lia|].
  specialize (IH (g + 1)). destruct (d g x); simpl; lia.
Qed.

Lemma budget_length {A} L e (l : list A) :
  (length (budget L e l) <= length l)%nat.
Proof. unfold budget. destruct (L <? 0); [lia|]. rewrite length_take. lia. Qed.

Lemma conf_limitReached b ty k L :
  conf b ty k L -> limitReached b = false -> L < 0 \/ emitCount b < L.
Proof. intros (_ & _ & <-) H. by apply limitReached_false. Qed.

(** One row of a box that is not time-based, when no write fails. *)
Lemma processItem_selected t w ty k L b it G :
  conf b ty k L -> ty <> TimeBasedSampling ->
  (ty = CountBasedSampling -> 0 < k /\ genCount b = G) ->
  0 <= emitCount b <= G -> G < int64_max ->
  limitReached b = false -> item_werr it = None ->
  exists b',
    processItem b t (Some w) it =
      (b', emit1 t w <$> (if shouldWrite ty k G it then [it] else []),
       if limitReached b' then ItemBreak else ItemNext)
    /\ conf b' ty k L /\ removeMe b' = removeMe b
    /\ (ty = CountBasedSampling -> genCount b' = G + 1)
    /\ emitCount b' = emitCount b + (if shouldWrite ty k G it then 1 else 0).
Proof.
  intros (Hty & Hk & HL) Hnt Hc He HG Hl Hw.
  assert (wrap64 (emitCount b + 1) = emitCount b + 1) as Hwrap.
  { apply wrap64_id. unfold in_int64, int64_min, int64_max in *. lia. }
  unfold processItem. rewrite Hty. destruct ty; try done.
  - (* unspecified *)
    unfold writeAndCount. rewrite Hw, Hwrap. simpl.
    eexists. split; [reflexivity|]. simpl. repeat split; try done; lia.
  - (* count-based *)
    destruct (Hc eq_refl) as [Hk0 Hg]. rewrite Hk, Hg.
    destruct (k =? 0) eqn:Hz; [lia|].
    assert (wrap64 (G + 1) = G + 1) as HwG.
    { apply wrap64_id. unfold in_int64, int64_min, int64_max in *. lia. }
    rewrite HwG. rewrite Z.rem_mod_nonneg by lia. simpl.
    unfold writeAndCount. destruct (G mod k =? 0) eqn:Hm; simpl.
    + rewrite Hw, Hwrap. eexists. split; [reflexivity|]. simpl.
      repeat split; try done; lia.
    + eexists. split; [reflexivity|]. simpl. repeat split; try done; lia.
  - (* randomized *)
    rewrite Hk. unfold writeAndCount. simpl.
    destruct (item_rand it <? k) eqn:Hr.
    + rewrite Hw, Hwrap. eexists. split; [reflexivity|]. simpl.
      repeat split; try done; lia.
    + eexists. split; [reflexivity|]. simpl. repeat split; try done; lia.
Qed.

Lemma budget_cons {A} L e (x : A) l :
  L < 0 \/ e + 1 <= L -> 0 <= e ->
  budget L e (x :: l) = x :: budget L (e + 1) l.
Proof.
  intros HL He. unfold budget. destruct (L <? 0) eqn:Hn; [done|].
  apply Z.ltb_ge in Hn.
  replace (Z.to_nat (L - e)) with (S (Z.to_nat (L - (e + 1)))) by lia. done.
Qed.

Lemma budget_full {A} L e (l : list A) :
  L < 0 \/ e + Z.of_nat (length l) <= L -> budget L e l = l.
Proof.
  intros HL. unfold budget. destruct (L <? 0) eqn:Hn; [done|].
  apply Z.ltb_ge in Hn. apply take_ge. lia.
Qed.

Lemma budget_app_full {A} L e (l1 l2 : list A) :
  L < 0 \/ e + Z.of_nat (length l1) <= L -> 0 <= e ->
  budget L e (l1 ++ l2) = l1 ++ budget L (e + Z.of_nat (length l1)) l2.
Proof.
  intros HL He. unfold budget. destruct (L <? 0) eqn:Hn; [done|].
  apply Z.ltb_ge in Hn. rewrite take_app_ge by lia. f_equal. f_equal. lia.
Qed.

Lemma budget_app_cut {A} L e (l1 l2 : list A) :
  0 <= L -> e + Z.of_nat (length (budget L e l1)) = L ->
  budget L e (l1 ++ l2) = budget L e l1.
Proof.
  intros HL Hlen. unfold budget in *. destruct (L <? 0) eqn:Hn; [lia|].
  rewrite length_take in Hlen. rewrite take_app_le by lia. done.
Qed.

Lemma budget_fmap {A B} (f : A -> B) L e (l : list A) :
  budget L e (f <$> l) = f <$> budget L e l.
Proof. unfold budget. destruct (L <? 0); [done|]. by rewrite fmap_take. Qed.

Lemma processLoop_selected t w ty k L items : forall b G,
  conf b ty k L -> ty <> TimeBasedSampling ->
  (ty = CountBasedSampling -> 0 < k /\ genCount b = G) ->
  0 <= emitCount b <= G -> G + Z.of_nat (length items) <= int64_max ->
  limitReached b = false ->
  Forall (fun it => item_werr it = None) items ->
  exists b' o,
    processLoop b t (Some w) items =
      (b', emit1 t w <$> budget L (emitCount b)
                           (selectBy (shouldWrite ty k) G items), o)
    /\ conf b' ty k L /\ removeMe b' = removeMe b
    /\ emitCount b' = emitCount b +
         Z.of_nat (length (budget L (emitCount b)
                             (selectBy (shouldWrite ty k) G items)))
    /\ ((o = ItemNext /\ limitReached b' = false /\
         (ty = CountBasedSampling ->
          genCount b' = G + Z.of_nat (length items)) /\
         budget L (emitCount b) (selectBy (shouldWrite ty k) G items)
         = selectBy (shouldWrite ty k) G items)
        \/ (o = ItemBreak /\ limitReached b' = true)).
Proof.
  induction items as [|it items IH]; intros b G Hconf Hnt Hc He HG Hl Hw.
  { exists b, ItemNext. simpl. unfold budget. destruct (L <? 0); rewrite ?take_nil; simpl.
    all: split; [done|]; split; [done|]; split; [done|]; split; [lia|]; left.
    all: repeat split; try done; intros Hty; destruct (Hc Hty); lia. }
  apply Forall_cons in Hw as [Hw1 Hw].
  rewrite length_cons in HG.
  destruct (processItem_selected t w ty k L b it G Hconf Hnt Hc He ltac:(lia) Hl Hw1)
    as (b1 & Hp & Hconf1 & Hrm1 & Hg1 & He1).
  pose proof (conf_limitReached _ _ _ _ Hconf Hl) as HLb.
  cbn [processLoop selectBy]. rewrite Hp.
  destruct (limitReached b1) eqn:Hl1.
  - (* the limit is reached by this row *)
    apply limitReached_true in Hl1. destruct Hconf1 as (? & ? & HL1).
    rewrite HL1 in Hl1.
    destruct (shouldWrite ty k G it) eqn:Hsw; [|lia].
    assert (budget L (emitCount b)
              (it :: selectBy (shouldWrite ty k) (G + 1) items) = [it]) as ->.
    { unfold budget. destruct (L <? 0) eqn:Hn; [lia|].
      replace (Z.to_nat (L - emitCount b)) with 1%nat by lia. done. }
    exists b1, ItemBreak. split; [done|]. split; [done|]. split; [done|].
    split; [simpl; lia|]. right. split; [done|].
    apply limitReached_true. rewrite HL1. lia.
  - destruct (IH b1 (G + 1) Hconf1 Hnt) as (b2 & o & Hloop & Hconf2 & Hrm2 & He2 & Hend).
    { intros Hty. split; [by destruct (Hc Hty)|by apply Hg1]. }
    { destruct (shouldWrite ty k G it); lia. }
    { lia. }
    { done. }
    { done. }
    pose proof (conf_limitReached _ _ _ _ Hconf1 Hl1) as HLb1.
    rewrite Hloop.
    assert (budget L (emitCount b)
              (if shouldWrite ty k G it
               then it :: selectBy (shouldWrite ty k) (G + 1) items
               else selectBy (shouldWrite ty k) (G + 1) items)
            = (if shouldWrite ty k G it then [it] else []) ++
              budget L (emitCount b1) (selectBy (shouldWrite ty k) (G + 1) items))
      as Hbud.
    { rewrite He1. destruct (shouldWrite ty k G it).
      - rewrite budget_cons by lia. done.
      - by rewrite Z.add_0_r. }
    exists b2, o. rewrite Hbud, fmap_app. split; [by destruct o|].
    split; [done|]. split; [congruence|]. split.
    { rewrite He2, He1, length_app. destruct (shouldWrite ty k G it); simpl; lia. }
    destruct Hend as [(-> & Hl2 & Hg2 & Hfull)|(-> & Hl2)]; [left|right; done].
    split; [done|]. split; [done|]. split.
    { intros Hty. rewrite (Hg2 Hty), length_cons. lia. }
    rewrite Hfull. by destruct (shouldWrite ty k G it).
Qed.

Lemma removals_emit1 t w (l : list genItem) : removals (emit1 t w <$> l) = [].
Proof. induction l as [|x l IH]; [done|]. simpl. exact IH. Qed.

Lemma runProcess_limit_reached calls : forall b,
  limitReached b = true -> runProcess b calls = (b, []).
Proof.
  induction calls as [|[[t items] w] calls IH]; intros b Hl; [done|].
  simpl. unfold Process. rewrite Hl. by rewrite IH.
Qed.

Lemma emission_rows t w (l : list genItem) :
  emission <$> ((fun it => (t, w, it)) <$> l) = emit1 t w <$> l.
Proof. rewrite <- list_fmap_compose. done. Qed.

Lemma runProcess_selected ty k L calls : forall b G,
  conf b ty k L -> ty <> TimeBasedSampling ->
  (ty = CountBasedSampling -> 0 < k /\ genCount b = G) ->
  0 <= emitCount b <= G ->
  G + Z.of_nat (length (rowsOf calls)) <= int64_max ->
  limitReached b = false ->
  Forall (fun r => item_werr r.2 = None) (rowsOf calls) ->
  exists b' evs,
    runProcess b calls = (b', evs)
    /\ write_calls evs =
         emission <$> budget L (emitCount b)
                        (selectBy (fun g r => shouldWrite ty k g r.2) G
                           (rowsOf calls))
    /\ conf b' ty k L
    /\ emitCount b' = emitCount b + Z.of_nat (length (write_calls evs))
    /\ removals evs = (if limitReached b' then fired (removeMe b) else [])
    /\ removeMe b' = (if limitReached b' then None else removeMe b).
Proof.
  induction calls as [|[[t items] w] calls IH]; intros b G Hconf Hnt Hc He HG Hl Hw.
  { exists b, []. simpl. rewrite Hl. unfold budget.
    change (write_calls []) with (@nil event).
    destruct (L <? 0); rewrite ?take_nil; simpl;
      (split; [done|]); (split; [done|]); (split; [done|]); (split; [lia|]); done. }
  rewrite rowsOf_cons in *. rewrite length_app, length_fmap in HG.
  apply Forall_app in Hw as [Hw1 Hw]. apply Forall_fmap in Hw1.
  destruct (processLoop_selected t w ty k L items b G Hconf Hnt Hc He ltac:(lia) Hl)
    as (b1 & o & Hloop & Hconf1 & Hrm1 & He1 & Hend).
  { eapply Forall_impl; [exact Hw1|]. done. }
  set (sel1 := selectBy (shouldWrite ty k) G items) in *.
  assert (selectBy (fun g r => shouldWrite ty k g r.2) G
            ((fun it => (t, w, it)) <$> items)
          = (fun it => (t, w, it)) <$> sel1) as Hsel1
    by (by rewrite selectBy_fmap).
  rewrite selectBy_app, Hsel1, length_fmap.
  cbn [runProcess]. unfold Process. rewrite Hl, Hloop.
  destruct Hend as [(-> & Hl1 & Hg1 & Hfull)|(-> & Hl1)].
  - (* the limit is not reached by this call *)
    unfold processFinish. rewrite Hl1. rewrite Hfull in *.
    pose proof (conf_limitReached _ _ _ _ Hconf1 Hl1) as HLb1.
    pose proof (selectBy_length (shouldWrite ty k) items G) as Hlen. fold sel1 in Hlen.
    destruct (IH b1 (G + Z.of_nat (length items))) as (b' & evs & Hrun & Hwc & Hconf' & He' & Hrm' & Hcb');
      try done.
    { intros Hty. split; [by destruct (Hc Hty)|by apply Hg1]. }
    { lia. }
    { lia. }
    rewrite Hrun. exists b', (((emit1 t w <$> sel1) ++ []) ++ evs).
    split; [done|]. rewrite app_nil_r, write_calls_app, write_calls_emit1.
    split.
    { rewrite budget_app_full by (rewrite ?length_fmap; lia).
      rewrite fmap_app, emission_rows, length_fmap, <- He1, Hwc. done. }
    split; [done|]. split.
    { rewrite length_app, length_fmap, He', He1. lia. }
    rewrite removals_app, removals_emit1, Hrm', Hcb', Hrm1. done.
  - (* the limit is reached in this call *)
    assert (0 <= L /\ L <= emitCount b1) as [HL0 HLe].
    { apply limitReached_true in Hl1. destruct Hconf1 as (_ & _ & <-). done. }
    assert (emitCount b + Z.of_nat (length (budget L (emitCount b) sel1)) = L) as Hcut.
    { pose proof (conf_limitReached _ _ _ _ Hconf Hl).
      unfold budget in *. destruct (L <? 0) eqn:Hn; [lia|].
      rewrite length_take in *. lia. }
    assert (budget L (emitCount b)
              (((fun it => (t, w, it)) <$> sel1) ++
               selectBy (fun g r => shouldWrite ty k g r.2)
                 (G + Z.of_nat (length items)) (rowsOf calls))
            = (fun it => (t, w, it)) <$> budget L (emitCount b) sel1) as Hbud.
    { rewrite budget_app_cut;
        [apply budget_fmap|done|by rewrite budget_fmap, length_fmap]. }
    rewrite Hbud, emission_rows.
    destruct (processFinish b1) as [b2 ev2] eqn:Hfin.
    assert (limitReached b2 = true /\ conf b2 ty k L /\ emitCount b2 = emitCount b1 /\
            ev2 = fired (removeMe b1) /\ removeMe b2 = None) as (Hl2 & Hconf2 & He2 & Hev2 & Hrm2).
    { unfold processFinish in Hfin. rewrite Hl1 in Hfin.
      destruct (removeMe b1) as [cb|] eqn:Hcb; injection Hfin as <- <-; done. }
    rewrite (runProcess_limit_reached calls b2 Hl2).
    eexists b2, _. split; [done|].
    rewrite app_nil_r, write_calls_app, write_calls_emit1.
    assert (write_calls ev2 = []) as -> by (rewrite Hev2; by destruct (removeMe b1)).
    rewrite app_nil_r. split; [done|]. split; [done|]. split.
    { rewrite He2, He1, length_fmap. done. }
    rewrite Hl2, removals_app, removals_emit1, Hev2, Hrm1. simpl.
    split; [|done]. by destruct (removeMe b).
Qed.

(** From a freshly initialised box. *)
Lemma boot_selected cb ap ctx calls :
  EmitterSamplingType_ ap <> TimeBasedSampling ->
  (EmitterSamplingType_ ap = CountBasedSampling -> 0 < EmitterSampling ap) ->
  Z.of_nat (length (rowsOf calls)) <= int64_max ->
  Forall (fun r => item_werr r.2 = None) (rowsOf calls) ->
  exists b' evs,
    runProcess (box (boot cb ap ctx)) calls = (b', evs)
    /\ write_calls evs =
         emission <$> budget (EmitterLimit ap) 0
                        (selectBy (fun g r => shouldWrite (EmitterSamplingType_ ap)
                                                (EmitterSampling ap) g r.2) 0
                           (rowsOf calls))
    /\ emitterLimit b' = EmitterLimit ap
    /\ emitCount b' = Z.of_nat (length (write_calls evs))
    /\ (EmitterLimit ap = 0 -> evs = [] /\ removeMe b' = cb)
    /\ (EmitterLimit ap <> 0 ->
        removals evs = (if limitReached b' then fired cb else []) /\
        removeMe b' = (if limitReached b' then None else cb)).
Proof.
  intros Hnt Hk Hn Hw. set (b0 := box (boot cb ap ctx)).
  assert (conf b0 (EmitterSamplingType_ ap) (EmitterSampling ap) (EmitterLimit ap))
    as Hconf by done.
  assert (emitCount b0 = 0 /\ genCount b0 = 0 /\ removeMe b0 = cb)
    as (He0 & Hg0 & Hcb0) by done.
  destruct (limitReached b0) eqn:Hl.
  - (* LIMIT 0 *)
    assert (EmitterLimit ap = 0) as HL0.
    { apply limitReached_true in Hl. change (emitterLimit b0) with (EmitterLimit ap) in Hl.
      lia. }
    rewrite (runProcess_limit_reached calls b0 Hl). exists b0, [].
    split; [done|]. rewrite HL0. unfold budget. simpl. done.
  - assert (EmitterLimit ap <> 0) as HL0.
    { apply limitReached_false in Hl. change (emitterLimit b0) with (EmitterLimit ap) in Hl.
      lia. }
    destruct (runProcess_selected _ _ _ calls b0 0 Hconf Hnt) as (b' & evs & Hrun & Hwc & Hconf' & He' & Hrm & Hcb).
    { intros Hty. split; [by apply Hk|done]. }
    { rewrite He0. lia. }
    { lia. }
    { done. }
    { done. }
    exists b', evs. rewrite He0 in *. rewrite Hcb0 in *.
    split; [done|]. split; [done|]. split; [by destruct Hconf' as (_ & _ & ?)|].
    split; [lia|]. done.
Qed.

Lemma budget_length_min {A} L (l : list A) :
  Z.of_nat (length (budget L 0 l)) =
  if L <? 0 then Z.of_nat (length l) else Z.min L (Z.of_nat (length l)).
Proof.
  unfold budget. destruct (L <? 0) eqn:Hn; [done|]. apply Z.ltb_ge in Hn.
  rewrite length_take. lia.
Qed.

(** The limit keeps the first selected rows.  A box that is not time-based
    is fed the rows of a sequence of [Process] calls, and no write fails.
    The tuples it writes are those of the rows its sampling selects (every
    row, every row whose generation count is a multiple of [k], every row
    whose random number is below [k]), in order, cut after the first [L] of
    them when the limit [L] is not negative; [emitCount] ends at their
    number, which is the minimum of [L] and the number of selected rows. *)
Theorem limit_keeps_first_selected_rows cb ap ctx calls :
  EmitterSamplingType_ ap <> TimeBasedSampling ->
  (EmitterSamplingType_ ap = CountBasedSampling -> 0 < EmitterSampling ap) ->
  Z.of_nat (length (rowsOf calls)) <= int64_max ->
  Forall (fun r => item_werr r.2 = None) (rowsOf calls) ->
  let sel := selectBy (fun g r => shouldWrite (EmitterSamplingType_ ap)
                                    (EmitterSampling ap) g r.2) 0 (rowsOf calls) in
  exists b' evs,
    runProcess (box (boot cb ap ctx)) calls = (b', evs)
    /\ write_calls evs = emission <$> budget (EmitterLimit ap) 0 sel
    /\ emitCount b' = Z.of_nat (length (write_calls evs))
    /\ Z.of_nat (length (write_calls evs)) =
         (if EmitterLimit ap <? 0 then Z.of_nat (length sel)
          else Z.min (EmitterLimit ap) (Z.of_nat (length sel))).
Proof.
  intros Hnt Hk Hn Hw sel.
  destruct (boot_selected cb ap ctx calls Hnt Hk Hn Hw)
    as (b' & evs & Hrun & Hwc & _ & He & _).
  exists b', evs. fold sel in Hwc. split; [done|]. split; [done|]. split; [done|].
  rewrite Hwc, length_fmap. apply budget_length_min.
Qed.

(** When [removeMe] fires.  Under the same conditions, [removeMe] is called
    (once, and the field is nil afterwards) exactly if the limit is positive
    and at least that many rows are selected; with the limit 0 [Process]
    returns before it looks at the field, and [removeMe] is never called. *)
Theorem removeMe_fires_when_limit_is_reached cb ap ctx calls :
  EmitterSamplingType_ ap <> TimeBasedSampling ->
  (EmitterSamplingType_ ap = CountBasedSampling -> 0 < EmitterSampling ap) ->
  Z.of_nat (length (rowsOf calls)) <= int64_max ->
  Forall (fun r => item_werr r.2 = None) (rowsOf calls) ->
  let sel := selectBy (fun g r => shouldWrite (EmitterSamplingType_ ap)
                                    (EmitterSampling ap) g r.2) 0 (rowsOf calls) in
  let reached := (0 <? EmitterLimit ap)
                 && (EmitterLimit ap <=? Z.of_nat (length sel)) in
  exists b' evs,
    runProcess (box (boot cb ap ctx)) calls = (b', evs)
    /\ removals evs = (if reached then fired cb else [])
    /\ removeMe b' = (if reached then None else cb).
Proof.
  intros Hnt Hk Hn Hw sel reached.
  destruct (boot_selected cb ap ctx calls Hnt Hk Hn Hw)
    as (b' & evs & Hrun & Hwc & HL & He & H0 & H1).
  exists b', evs. split; [done|]. fold sel in Hwc.
  destruct (decide (EmitterLimit ap = 0)) as [Hz|Hnz].
  - destruct (H0 Hz) as [-> ->]. unfold reached. rewrite Hz. done.
  - destruct (H1 Hnz) as [-> ->].
    assert (limitReached b' = reached) as ->; [|done].
    unfold limitReached, reached. rewrite HL, He, Hwc, length_fmap, budget_length_min.
    destruct (EmitterLimit ap <? 0) eqn:Hn0.
    + apply Z.ltb_lt in Hn0.
      rewrite (proj2 (Z.leb_gt _ _)) by lia. rewrite (proj2 (Z.ltb_ge _ _)) by lia. done.
    + apply Z.ltb_ge in Hn0.
      rewrite (proj2 (Z.leb_le 0 _)) by lia. rewrite (proj2 (Z.ltb_lt 0 _)) by lia.
      simpl. destruct (EmitterLimit ap <=? Z.of_nat (length sel)) eqn:Hc.
      * apply Z.leb_le in Hc. apply Z.leb_le. lia.
      * apply Z.leb_gt in Hc. apply Z.leb_gt. lia.
Qed.

Lemma selectBy_all {A} (d : Z -> A -> bool) (l : list A) : forall g,
  Forall (fun x => forall g', d g' x = true) l -> selectBy d g l = l.
Proof.
  induction l as [|x l IH]; intros g Hall; [done|].
  apply Forall_cons in Hall as [Hx Hall]. simpl. rewrite Hx. by rewrite IH.
Qed.

Lemma selectBy_none {A} (d : Z -> A -> bool) (l : list A) : forall g,
  Forall (fun x => forall g', d g' x = false) l -> selectBy d g l = [].
Proof.
  induction l as [|x l IH]; intros g Hall; [done|].
  apply Forall_cons in Hall as [Hx Hall]. simpl. rewrite Hx. by rewrite IH.
Qed.

(** The ends of randomized sampling.  With random numbers in [0, 100), as
    [rand.Int63n(100)] returns them, a randomized box with a rate of 100 or
    more writes every row (up to the limit), and one with a rate of 0 or
    less writes none. *)
Theorem randomized_sampling_bounds cb ap ctx calls :
  EmitterSamplingType_ ap = RandomizedSampling ->
  Z.of_nat (length (rowsOf calls)) <= int64_max ->
  Forall (fun r => item_werr r.2 = None) (rowsOf calls) ->
  Forall (fun r => 0 <= item_rand r.2 < 100) (rowsOf calls) ->
  exists b' evs,
    runProcess (box (boot cb ap ctx)) calls = (b', evs)
    /\ (100 <= EmitterSampling ap ->
        write_calls evs = emission <$> budget (EmitterLimit ap) 0 (rowsOf calls))
    /\ (EmitterSampling ap <= 0 -> write_calls evs = []).
Proof.
  intros Hty Hn Hw Hr.
  destruct (boot_selected cb ap ctx calls) as (b' & evs & Hrun & Hwc & _);
    [congruence|congruence|done|done|].
  exists b', evs. split; [done|]. rewrite Hty in Hwc. split; intros Hk.
  - rewrite Hwc, selectBy_all; [done|].
    eapply Forall_impl; [exact Hr|]. intros r Hrr g. simpl in *. apply Z.ltb_lt. lia.
  - rewrite Hwc, selectBy_none.
    + unfold budget. destruct (_ <? 0); by rewrite ?take_nil.
    + eapply Forall_impl; [exact Hr|]. intros r Hrr g. simpl in *. apply Z.ltb_ge. lia.
Qed.

(** *** A write that fails *)
Lemma processItem_outcome b t w it b' evs o :
  processItem b t (Some w) it = (b', evs, o) ->
  removeMe b' = removeMe b /\
  match o with
  | ItemReturn err =>
      evs = [EvWrite w (mkTuple t (item_data it)) (Some err)] /\
      item_werr it = Some err
  | ItemNext | ItemBreak => Forall (fun e => is_written e = true) evs
  | ItemPanic => evs = []
  end.
Proof.
  intros H. split; [by apply processItem_removeMe in H as (? & _)|].
  unfold processItem, writeAndCount in H.
  destruct (emitterSamplingType b);
    repeat match type of H with
    | context [if ?c then _ else _] => destruct c
    | context [match item_werr it with _ => _ end] => destruct (item_werr it)
    end; injection H as <- <- <-; repeat constructor.
Qed.

Lemma processLoop_write_error t w items : forall b b' evs err,
  processLoop b t (Some w) items = (b', evs, ItemReturn err) ->
  exists pre it rest ws,
    items = pre ++ it :: rest /\ item_werr it = Some err /\
    evs = ws ++ [EvWrite w (mkTuple t (item_data it)) (Some err)] /\
    Forall (fun e => is_written e = true) ws /\
    removeMe b' = removeMe b /\
    processLoop b t (Some w) (pre ++ [it]) = (b', evs, ItemReturn err).
Proof.
  induction items as [|it0 items IH]; intros b b' evs err H; [done|].
  cbn [processLoop] in H.
  destruct (processItem b t (Some w) it0) as [[b1 ev1] o1] eqn:Hp.
  pose proof (processItem_outcome _ _ _ _ _ _ _ Hp) as [Hrm Ho].
  destruct o1 as [| |err1|]; try done.
  - destruct (processLoop b1 t (Some w) items) as [[b2 ev2] o2] eqn:Hl.
    injection H as <- <- ->.
    destruct (IH _ _ _ _ Hl) as (pre & it & rest & ws & -> & Hw & -> & Hws & Hrm2 & Hl2).
    exists (it0 :: pre), it, rest, (ev1 ++ ws).
    split; [done|]. split; [done|]. split; [by rewrite app_assoc|].
    split; [by apply Forall_app|]. split; [congruence|].
    cbn [app processLoop]. rewrite Hp, Hl2. by rewrite app_assoc.
  - injection H as <- <- <-. destruct Ho as [-> Hw].
    exists [], it0, items, []. repeat split; try done.
    cbn [app processLoop]. by rewrite Hp.
Qed.

(** [Process] stops at the first write that fails.  When [Process] returns
    an error for a plan that succeeded, the error is the one a [Write]
    returned for some row; every write before it succeeded, it is the last
    event of the call, [removeMe] was not called, and the rows after it
    were not looked at: the call is the same without them. *)
Theorem Process_stops_at_failed_write b t items w b' evs err :
  Process b t (inl items) (Some w) = (b', evs, RetErr err) ->
  exists pre it rest ws,
    items = pre ++ it :: rest /\ item_werr it = Some err /\
    evs = ws ++ [EvWrite w (mkTuple t (item_data it)) (Some err)] /\
    Forall (fun e => is_written e = true) ws /\
    removals evs = [] /\ removeMe b' = removeMe b /\
    Process b t (inl (pre ++ [it])) (Some w) = (b', evs, RetErr err).
Proof.
  unfold Process. destruct (limitReached b); [done|].
  destruct (processLoop b t (Some w) items) as [[b1 ev1] o] eqn:Hl.
  destruct o as [| |err1|];
    try (destruct (processFinish b1) as [b2 ev2]; done).
  intros [= <- <- <-].
  destruct (processLoop_write_error _ _ _ _ _ _ _ Hl)
    as (pre & it & rest & ws & -> & Hw & -> & Hws & Hrm & Hl2).
  exists pre, it, rest, ws. rewrite Hl2. repeat split; try done.
  rewrite removals_app. simpl.
  assert (removals ws = []) as ->; [|done].
  clear -Hws. induction Hws as [|e ws He _ IH]; [done|].
  destruct e as [? ? [?|]| |]; try done.
Qed.

(** *** What is written *)

Lemma processItem_writes b t w it b' evs o :
  processItem b t (Some w) it = (b', evs, o) ->
  evs = [] \/ evs = [writeOf t w it].
Proof.
  intros H. unfold processItem, writeAndCount in H. unfold writeOf.
  destruct (emitterSamplingType b);
    repeat match type of H with
    | context [if ?c then _ else _] => destruct c
    | context [match item_werr it with _ => _ end] => destruct (item_werr it) eqn:?
    end; injection H as <- <- <-; auto.
Qed.

Lemma processLoop_writes t w items : forall b b' evs o,
  processLoop b t (Some w) items = (b', evs, o) ->
  write_calls evs = evs /\ evs `sublist_of` (writeOf t w <$> items).
Proof.
  induction items as [|it items IH]; intros b b' evs o H.
  { injection H as <- <- <-. done. }
  cbn [processLoop] in H.
  destruct (processItem b t (Some w) it) as [[b1 ev1] o1] eqn:Hp.
  apply processItem_writes in Hp.
  assert (write_calls ev1 = ev1 /\ ev1 `sublist_of` [writeOf t w it]) as [Hw1 Hs1].
  { destruct Hp as [-> | ->]; [split; [done|apply sublist_nil_l]|done]. }
  assert (ev1 `sublist_of` (writeOf t w <$> it :: items)) as Hstop.
  { rewrite fmap_cons. change (writeOf t w it :: (writeOf t w <$> items))
      with ([writeOf t w it] ++ (writeOf t w <$> items)).
    by apply sublist_inserts_r. }
  destruct o1; try (by injection H as <- <- <-).
  destruct (processLoop b1 t (Some w) items) as [[b2 ev2] o2] eqn:Hl.
  injection H as <- <- <-. apply IH in Hl as [Hw2 Hs2]. split.
  - by rewrite write_calls_app, Hw1, Hw2.
  - rewrite fmap_cons. change (writeOf t w it :: (writeOf t w <$> items))
      with ([writeOf t w it] ++ (writeOf t w <$> items)).
    by apply sublist_app.
Qed.

(** [Process] writes rows of its own call, in order.  Whatever the box, the
    calls of [Write] of one [Process] call are, in the order of the rows and
    each at most once, calls on the writer of the call with the tuple built
    from a row of the call: its data and the timestamps, batch id and trace
    of the input tuple. *)
Theorem Process_writes_rows_in_order b t items w b' evs r :
  Process b t (inl items) (Some w) = (b', evs, r) ->
  write_calls evs `sublist_of` (writeOf t w <$> items).
Proof.
  unfold Process. destruct (limitReached b).
  { intros [= <- <- <-]. apply sublist_nil_l. }
  destruct (processLoop b t (Some w) items) as [[b1 ev1] o] eqn:Hl.
  apply processLoop_writes in Hl as [Hw1 Hs1].
  destruct o.
  1,2: destruct (processFinish b1) as [b2 ev2] eqn:Hf;
       apply processFinish_spec in Hf as (_ & _ & _ & _ & _ & _ & Hw2 & _);
       intros [= <- <- <-]; by rewrite write_calls_app, Hw1, Hw2, app_nil_r.
  all: intros [= <- <- <-]; by rewrite Hw1.
Qed.

(** *** [Process] and the [stopped] flag *)
Lemma processItem_stopped b v t s it :
  processItem (set_stopped b v) t s it =
  (let '(b', evs, o) := processItem b t s it in (set_stopped b' v, evs, o)).
Proof.
  unfold processItem, writeAndCount. cbn [set_stopped emitterSamplingType emitterSampling genCount].
  destruct (emitterSamplingType b); try done.
  - destruct s; [|done]. destruct (item_werr it); [done|].
    unfold limitReached. simpl. by destruct (_ && _).
  - destruct (emitterSampling b =? 0); [done|].
    destruct (Z.rem _ _ =? 0).
    + destruct s; [|done]. destruct (item_werr it); [done|].
      unfold limitReached. simpl. by destruct (_ && _).
    + unfold limitReached. simpl. by destruct (_ && _).
  - destruct (item_rand it <? _).
    + destruct s; [|done]. destruct (item_werr it); [done|].
      unfold limitReached. simpl. by destruct (_ && _).
    + unfold limitReached. simpl. by destruct (_ && _).
Qed.

Lemma processLoop_stopped v t s items : forall b,
  processLoop (set_stopped b v) t s items =
  (let '(b', evs, o) := processLoop b t s items in (set_stopped b' v, evs, o)).
Proof.
  induction items as [|it items IH]; intros b; [done|].
  cbn [processLoop]. rewrite processItem_stopped.
  destruct (processItem b t s it) as [[b1 ev1] o1].
  destruct o1; try done. rewrite IH.
  by destruct (processLoop b1 t s items) as [[b2 ev2] o2].
Qed.

Lemma processFinish_stopped b v :
  processFinish (set_stopped b v) =
  (let '(b', evs) := processFinish b in (set_stopped b' v, evs)).
Proof.
  unfold processFinish.
  change (limitReached (set_stopped b v)) with (limitReached b).
  destruct (limitReached b); [|done]. simpl. by destruct (removeMe b).
Qed.

(** [Process] neither reads nor writes [stopped]: a call on a box whose flag
    is set to [v] does what it does on the box itself and leaves the flag at
    [v].  So [Terminate] does not keep a box that is not time-based from
    writing. *)
Theorem Process_ignores_stopped b v t plan s :
  Process (set_stopped b v) t plan s =
  (let '(b', evs, r) := Process b t plan s in (set_stopped b' v, evs, r)).
Proof.
  unfold Process. change (limitReached (set_stopped b v)) with (limitReached b).
  destruct (limitReached b); [done|]. destruct plan as [items|err]; [|done].
  rewrite processLoop_stopped.
  destruct (processLoop b t s items) as [[b1 ev1] o].
  destruct o; try done; rewrite processFinish_stopped;
    by destruct (processFinish b1).
Qed.

(** *** The time emitter *)
(** The time emitter writes the latest tuple, once.  On a time-based box
    that is not stopped and below its limit, a [Process] call that
    generates rows writes nothing; the next tick writes the tuple of the
    last row to the writer of that call, whether or not the write fails
    (a failure is logged when there is a context), counts it in
    [emitCount], and on reaching the limit stops the emitter and calls
    [removeMe]; a further tick writes nothing. *)
Theorem timeEmitter_writes_latest_tuple_once c b t items it w werr :
  emitterSamplingType b = TimeBasedSampling ->
  stopped b = false -> limitReached b = false ->
  exists b1 b2,
    Process b t (inl (items ++ [it])) (Some w) = (b1, [], RetNil) /\
    timeEmitterTick c b1 werr =
      (b2, EvWrite w (mkTuple t (item_data it)) werr ::
           match werr with
           | Some err => if c then [EvErrLog err w] else []
           | None => []
           end ++ (if limitReached b2 then fired (removeMe b) else [])) /\
    emitCount b2 = wrap64 (emitCount b + 1) /\
    stopped b2 = limitReached b2 /\
    (forall werr', timeEmitterTick c b2 werr' = (b2, [])).
Proof.
  intros Hty Hs Hl.
  set (b1 := set_lastWriter
               (set_lastTuple b (Some (mkTuple t (item_data it)))) (Some w)).
  assert (Process b t (inl (items ++ [it])) (Some w) = (b1, [], RetNil)) as HP.
  { unfold Process. rewrite Hl, processLoop_time by done. rewrite last_snoc.
    fold b1. unfold processFinish.
    change (limitReached b1) with (limitReached b). by rewrite Hl. }
  destruct (timeEmitterTick c b1 werr) as [b2 evs] eqn:Ht.
  exists b1, b2. split; [done|]. rewrite Ht.
  unfold timeEmitterTick in Ht. change (stopped b1) with (stopped b) in Ht.
  rewrite Hs in Ht. cbn [b1 lastTuple lastWriter set_lastWriter set_lastTuple] in Ht.
  match type of Ht with context [limitReached ?x] => set (b' := x) in * end.
  destruct (limitReached b') eqn:Hl'.
  - destruct (removeMe (set_stopped b' true)) as [cb|] eqn:Hcb;
      injection Ht as <- <-.
    + change (removeMe b = Some cb) in Hcb.
      change (limitReached (set_removeMe (set_stopped b' true) None))
        with (limitReached b'). rewrite Hl', Hcb. simpl.
      split; [done|]. split; [done|]. split; [done|].
      intros werr'. done.
    + change (removeMe b = None) in Hcb.
      change (limitReached (set_stopped b' true)) with (limitReached b').
      rewrite Hl', Hcb. simpl. rewrite app_nil_r.
      split; [done|]. split; [done|]. split; [done|]. intros werr'. done.
  - injection Ht as <- <-. rewrite Hl'. rewrite app_nil_r.
    split; [done|]. split; [done|]. split; [done|].
    intros werr'. unfold timeEmitterTick. simpl. by rewrite Hs.
Qed.

(** *** The theorems at example boxes *)

(** [limit_keeps_first_selected_rows] at a box with LIMIT 2 that is fed ten rows. *)
Lemma limit_keeps_first_selected_rows_witness :
  exists b' evs,
    runProcess (box (boot None ap_limit2 true)) calls10 = (b', evs) /\
    write_calls evs = emission <$> [ (t0, w0, row "0"); (t0, w0, row "1") ] /\
    emitCount b' = 2.
Proof.
  destruct (limit_keeps_first_selected_rows None ap_limit2 true calls10)
    as (b' & evs & Hrun & Hw & He & Hn).
  - discriminate.
  - discriminate.
  - vm_compute. discriminate.
  - simpl. repeat constructor.
  - exists b', evs. split; [exact Hrun|]. split; [exact Hw|].
    rewrite He, Hn. reflexivity.
Defined.

(** [removeMe_fires_when_limit_is_reached] at a box with LIMIT 2 and a callback that is fed ten rows. *)
Lemma removeMe_fires_when_limit_is_reached_witness :
  exists b' evs,
    runProcess (box (boot (Some cb7) ap_limit2 true)) calls10 = (b', evs) /\
    removals evs = [EvRemoveMe cb7] /\ removeMe b' = None.
Proof.
  destruct (removeMe_fires_when_limit_is_reached (Some cb7) ap_limit2 true calls10)
    as (b' & evs & Hrun & Hr & Hc).
  - discriminate.
  - discriminate.
  - vm_compute. discriminate.
  - simpl. repeat constructor.
  - exists b', evs. split; [exact Hrun|]. split; [exact Hr|exact Hc].
Defined.

(** [randomized_sampling_bounds] at a box that samples 100 percent. *)
Lemma randomized_sampling_bounds_witness :
  exists b' evs,
    runProcess (box (boot None ap_random100 true)) calls10 = (b', evs) /\
    write_calls evs = emission <$> rowsOf calls10.
Proof.
  destruct (randomized_sampling_bounds None ap_random100 true calls10)
    as (b' & evs & Hrun & Hall & _).
  - reflexivity.
  - vm_compute. discriminate.
  - simpl. repeat constructor.
  - simpl. repeat constructor; simpl; lia.
  - exists b', evs. split; [exact Hrun|]. apply Hall. simpl. lia.
Defined.

(** [Process_stops_at_failed_write] at three rows of which the second cannot be written. *)
Lemma Process_stops_at_failed_write_witness :
  exists pre it rest ws,
    rows_fail = pre ++ it :: rest /\ item_werr it = Some "disk full" /\
    snd (fst (Process b_plain t0 (inl rows_fail) (Some w0)))
    = ws ++ [EvWrite w0 (mkTuple t0 (item_data it)) (Some "disk full")] /\
    Forall (fun e => is_written e = true) ws.
Proof.
  destruct (Process b_plain t0 (inl rows_fail) (Some w0)) as [[b' evs] r] eqn:HP.
  assert (r = RetErr "disk full") as -> by (vm_compute in HP; congruence).
  destruct (Process_stops_at_failed_write _ _ _ _ _ _ _ HP)
    as (pre & it & rest & ws & H1 & H2 & H3 & H4 & _).
  exists pre, it, rest, ws. auto.
Defined.

(** [Process_writes_rows_in_order] at three rows of which the second cannot be written. *)
Lemma Process_writes_rows_in_order_witness :
  write_calls (snd (fst (Process b_plain t0 (inl rows_fail) (Some w0))))
  `sublist_of` (writeOf t0 w0 <$> rows_fail).
Proof.
  destruct (Process b_plain t0 (inl rows_fail) (Some w0)) as [[b' evs] r] eqn:HP.
  exact (Process_writes_rows_in_order _ _ _ _ _ _ _ HP).
Defined.

(** [timeEmitter_writes_latest_tuple_once] at a time-based box and a call that generates two rows. *)
Lemma timeEmitter_writes_latest_tuple_once_witness :
  exists b1 b2,
    Process b_time t0 (inl [row "x"; row "y"]) (Some w0) = (b1, [], RetNil) /\
    timeEmitterTick true b1 None = (b2, [EvWrite w0 (mkTuple t0 "y") None]) /\
    timeEmitterTick true b2 None = (b2, []).
Proof.
  destruct (timeEmitter_writes_latest_tuple_once true b_time t0 [row "x"] (row "y")
              w0 None eq_refl eq_refl eq_refl)
    as (b1 & b2 & HP & Ht & He & Hs & Hagain).
  exists b1, b2. split; [exact HP|]. split; [|apply Hagain].
  rewrite Ht. f_equal. f_equal.
  assert (limitReached b2 = false) as ->; [|reflexivity].
  unfold limitReached.
  assert (emitterLimit b2 = -1) as ->; [|reflexivity].
  vm_compute in HP. injection HP as <-. vm_compute in Ht.
  injection Ht as <-. reflexivity.
Defined.

End BQLFacts.

(** ** The statement-driven topology builder *)

Module BuilderFacts.
Import Builder.

Section builder_facts.
Context {T : Type} `{DynamicTopology T}.

Lemma mkNewRels_None rels : mkNewRels rels = None <-> has_range rels.
Proof.
  unfold has_range. induction rels as [|r rels IH]; simpl.
  - split; [done|]. intros Hx. by apply Exists_nil in Hx.
  - rewrite Exists_cons. case_bool_decide as Hr.
    + split; auto.
    + destruct (mkNewRels rels) as [l|].
      * split; [done|]. intros [?|Hx]; [done|]. by apply IH in Hx.
      * split; [|done]. intros _. right. by apply IH.
Qed.

Lemma mkNewRels_Some rels newRels :
  mkNewRels rels = Some newRels ->
  Forall (fun r => Interval r = {| Value := 1; Unit := Tuples |}) newRels /\
  Name <$> newRels = Name <$> rels /\ Alias <$> newRels = Alias <$> rels.
Proof.
  revert newRels. induction rels as [|r rels IH]; intros newRels; simpl.
  - by intros [= <-].
  - case_bool_decide; [done|]. destruct (mkNewRels rels) as [l|]; [|done].
    intros [= <-]. destruct (IH l eq_refl) as (H1 & H2 & H3).
    split; [by constructor|]. rewrite !fmap_cons, H2, H3. done.
Qed.

Lemma desugared_eq (stmt : InsertIntoSelectStmt) (tb : TopologyBuilder T) newRels :
  mkNewRels (ii_Relations stmt) = Some newRels ->
  tmpStmtOf stmt (tmpNameOf (wrap64 (topologyBuilderTemporaryID tb + 1))) newRels
  = desugared stmt tb.
Proof. intros Hrels. unfold desugared. by rewrite Hrels. Qed.

(** The INSERT INTO case once the sink is found and the statement has
    neither RANGE clause nor emitter: the CREATE STREAM case on the
    temporary statement, and then the input of the sink. *)
Lemma addInsertIntoSelect_desugared (stmt : InsertIntoSelectStmt)
  (tb : TopologyBuilder T) :
  topo_Sink (ii_Sink stmt) (topology tb) = None ->
  ~ has_range (ii_Relations stmt) ->
  EmitterType (ii_EmitterAST stmt) = UnspecifiedEmitter ->
  let id := wrap64 (topologyBuilderTemporaryID tb + 1) in
  let tb1 := {| topology := topology tb; topologyBuilderTemporaryID := id |} in
  let tmpName := tmpNameOf id in
  AddStmt (InsertIntoSelect stmt) tb
  = match addCreateStreamAsSelect (desugared stmt tb) (topology tb) with
    | (inr err, t1) => (inr err, set_topology tb1 t1)
    | (inl box, t1) =>
        match topo_Input (ii_Sink stmt) tmpName None
                (topo_StopOnDisconnect box t1) with
        | (Some err, t3) =>
            (inr err, set_topology tb1 (snd (topo_Remove tmpName t3)))
        | (None, t3) => (inl box, set_topology tb1 t3)
        end
    end.
Proof.
  intros Hsink Hnr Hem id tb1 tmpName.
  destruct (mkNewRels (ii_Relations stmt)) as [newRels|] eqn:Hrels;
    [|by apply mkNewRels_None in Hrels].
  simpl. unfold addInsertIntoSelect. rewrite Hsink, Hrels.
  rewrite bool_decide_eq_false_2 by (intros Hx; by apply Hx).
  by rewrite (desugared_eq stmt tb newRels Hrels).
Qed.

(** C8, amended.  For every INSERT INTO statement passed to [AddStmt]:
    when the lookup of the named sink fails, [AddStmt] returns that error
    and changes nothing.  When the sink is found and a relation has a RANGE
    clause or the statement has an emitter, [AddStmt] returns an error and
    leaves the topology as it was.  When the sink is found and the
    statement has neither, [AddStmt] passes to itself the CREATE STREAM
    statement of a temporary stream, which is named [sensorbee_tmp_<id>]
    after the next temporary id and has the RSTREAM emitter and RANGE 1
    TUPLES on every relation, over the same relations.  When that call
    fails, [AddStmt] returns its error.  When it succeeds, its result is
    the temporary stream, and [AddStmt] calls [Input] of the sink with it:
    when that succeeds, [AddStmt] returns the temporary stream, connected
    as an input of the named sink; when it fails, [AddStmt] calls [Remove]
    for the temporary stream and returns the error of [Input].  So when
    the topology accepts the box, its inputs and the input of the sink,
    [AddStmt] returns the temporary stream, connected to the sink. *)
Theorem InsertIntoSelect_desugars (stmt : InsertIntoSelectStmt)
  (tb : TopologyBuilder T) :
  let id := wrap64 (topologyBuilderTemporaryID tb + 1) in
  let tb1 := {| topology := topology tb; topologyBuilderTemporaryID := id |} in
  let tmpName := tmpNameOf id in
  let tmpStmt := desugared stmt tb in
  (* the sink is not found: the error of the lookup, and nothing changes *)
  (forall err,
     topo_Sink (ii_Sink stmt) (topology tb) = Some err ->
     AddStmt (InsertIntoSelect stmt) tb = (inr err, tb))
  /\
  (* a RANGE clause or an emitter: an error, and the topology is untouched *)
  (topo_Sink (ii_Sink stmt) (topology tb) = None ->
   has_range (ii_Relations stmt) \/
   EmitterType (ii_EmitterAST stmt) <> UnspecifiedEmitter ->
   exists err, AddStmt (InsertIntoSelect stmt) tb = (inr err, tb1))
  /\
  (* otherwise: the temporary stream and the connection to the sink *)
  (topo_Sink (ii_Sink stmt) (topology tb) = None ->
   ~ has_range (ii_Relations stmt) ->
   EmitterType (ii_EmitterAST stmt) = UnspecifiedEmitter ->
   (cs_Name tmpStmt = tmpName /\
    EmitterType (cs_EmitterAST tmpStmt) = Rstream /\
    Forall (fun r => Interval r = {| Value := 1; Unit := Tuples |})
      (cs_Relations tmpStmt) /\
    Name <$> cs_Relations tmpStmt = Name <$> ii_Relations stmt) /\
   (* the call on the temporary statement fails *)
   (forall err tb2,
      AddStmt (CreateStreamAsSelect tmpStmt) tb1 = (inr err, tb2) ->
      AddStmt (InsertIntoSelect stmt) tb = (inr err, tb2)) /\
   (* it succeeds: the input of the sink *)
   (forall box tb2,
      AddStmt (CreateStreamAsSelect tmpStmt) tb1 = (inl box, tb2) ->
      box = tmpName /\
      (forall t3,
         topo_Input (ii_Sink stmt) tmpName None
           (topo_StopOnDisconnect tmpName (topology tb2)) = (None, t3) ->
         AddStmt (InsertIntoSelect stmt) tb
         = (inl tmpName, {| topology := t3; topologyBuilderTemporaryID := id |})) /\
      (forall err t3,
         topo_Input (ii_Sink stmt) tmpName None
           (topo_StopOnDisconnect tmpName (topology tb2)) = (Some err, t3) ->
         AddStmt (InsertIntoSelect stmt) tb
         = (inr err, {| topology := snd (topo_Remove tmpName t3);
                        topologyBuilderTemporaryID := id |}))) /\
   (* the topology accepts the box, its inputs and the input of the sink *)
   (forall t1 t2,
      topo_AddBox tmpName tmpStmt (topology tb) = (None, t1) ->
      connectInputs tmpName (cs_Relations tmpStmt) t1 = (None, t2) ->
      let t3 := topo_StopOnDisconnect tmpName (topo_StopOnDisconnect tmpName t2) in
      forall t4,
        topo_Input (ii_Sink stmt) tmpName None t3 = (None, t4) ->
        AddStmt (InsertIntoSelect stmt) tb =
          (inl tmpName,
           {| topology := t4; topologyBuilderTemporaryID := id |}))).
Proof.
  intros id tb1 tmpName tmpStmt. split; [|split].
  - intros err Hsink. simpl. unfold addInsertIntoSelect. by rewrite Hsink.
  - intros Hsink Hbad. simpl. unfold addInsertIntoSelect. rewrite Hsink.
    destruct (mkNewRels (ii_Relations stmt)) as [newRels|] eqn:Hrels.
    + destruct Hbad as [Hr|He].
      { apply mkNewRels_None in Hr. congruence. }
      rewrite bool_decide_eq_true_2 by done. eauto.
    + eauto.
  - intros Hsink Hnr Hem.
    pose proof (addInsertIntoSelect_desugared stmt tb Hsink Hnr Hem) as Hrun.
    cbv zeta in Hrun. fold id tmpName tmpStmt in Hrun. fold tb1 in Hrun.
    destruct (mkNewRels (ii_Relations stmt)) as [newRels|] eqn:Hrels;
      [|by apply mkNewRels_None in Hrels].
    destruct (mkNewRels_Some _ _ Hrels) as (H1 & H2 & _).
    assert (cs_Relations tmpStmt = newRels) as Hrel
      by (unfold tmpStmt, desugared; by rewrite Hrels).
    assert (forall box t1,
              addCreateStreamAsSelect tmpStmt (topology tb) = (inl box, t1) ->
              box = tmpName) as Hbox.
    { intros box t1. unfold addCreateStreamAsSelect.
      destruct (topo_AddBox _ _ _) as [[e|] t]; [done|].
      destruct (connectInputs _ _ _) as [[e|] t']; [done|]. by intros [= <- _]. }
    split; [|split; [|split]].
    + rewrite Hrel. done.
    + intros err tb2 Hcs. rewrite Hrun. cbn [AddStmt] in Hcs.
      change (topology tb1) with (topology tb) in Hcs.
      destruct (addCreateStreamAsSelect tmpStmt (topology tb)) as [[box|e] t1];
        simpl in Hcs; [done|]. by injection Hcs as <- <-.
    + intros box tb2 Hcs. rewrite Hrun. cbn [AddStmt] in Hcs.
      change (topology tb1) with (topology tb) in Hcs.
      destruct (addCreateStreamAsSelect tmpStmt (topology tb)) as [[box'|e] t1] eqn:Hbx;
        simpl in Hcs; [|done].
      injection Hcs as <- <-. pose proof (Hbox _ _ eq_refl) as ->. simpl.
      split; [done|]. split.
      * intros t3 ->. done.
      * intros err t3 ->. done.
    + intros t1 t2 Hadd Hconn t3 t4 Hin. rewrite Hrun.
      unfold addCreateStreamAsSelect.
      change (cs_Name tmpStmt) with tmpName. rewrite Hadd, Hconn.
      fold t3. by rewrite Hin.
Qed.


End builder_facts.



Lemma insert_k_plain :
  ~ has_range (ii_Relations insert_k) /\
  EmitterType (ii_EmitterAST insert_k) = UnspecifiedEmitter.
Proof.
  split; [|done].
  intros Hr. apply Exists_cons in Hr as [Hr|Hr]; [by apply Hr|].
  by apply Exists_nil in Hr.
Defined.

Lemma insert_nowhere_plain :
  ~ has_range (ii_Relations insert_nowhere) /\
  EmitterType (ii_EmitterAST insert_nowhere) = UnspecifiedEmitter.
Proof.
  split; [|done].
  intros Hr. apply Exists_cons in Hr as [Hr|Hr]; [by apply Hr|].
  by apply Exists_nil in Hr.
Defined.

Example insert_k_edges :
  mt_edges (topology (snd (AddStmt (InsertIntoSelect insert_k) (builder_of topo_ck))))
  = [("c", "sensorbee_tmp_1", "c"); ("sensorbee_tmp_1", "k", "*")].
Proof. vm_compute. reflexivity. Qed.

(** [InsertIntoSelect_desugars] at INSERT INTO k SELECT a, b FROM c WHERE d:
    in a topology with the source c and the sink k the statement gives the
    temporary stream [sensorbee_tmp_1]; in a topology without the sink k
    it gives the error of the lookup, and the builder is as it was.  With
    RANGE 2 SECONDS on the relation c the statement gives an error, and
    the topology is as it was. *)
Lemma InsertIntoSelect_desugars_witness :
  fst (AddStmt (InsertIntoSelect insert_k) (builder_of topo_ck))
  = inl "sensorbee_tmp_1" /\
  AddStmt (InsertIntoSelect insert_k) (builder_of topo_c)
  = (inr (ErrTopology "no such sink"), builder_of topo_c) /\
  exists err,
    AddStmt (InsertIntoSelect insert_range) (builder_of topo_ck)
    = (inr err, {| topology := topo_ck; topologyBuilderTemporaryID := 1 |}).
Proof.
  assert (topo_Sink "k" (topology (builder_of topo_ck)) = None)
    as Hsink by (vm_compute; reflexivity).
  split; [|split].
  - destruct (InsertIntoSelect_desugars insert_k (builder_of topo_ck))
      as (_ & _ & Hok).
    destruct (Hok Hsink (proj1 insert_k_plain) (proj2 insert_k_plain))
      as (_ & _ & _ & Hrun).
    erewrite Hrun; [reflexivity|vm_compute; reflexivity..].
  - destruct (InsertIntoSelect_desugars insert_k (builder_of topo_c))
      as (Hmiss & _).
    apply Hmiss. vm_compute. reflexivity.
  - destruct (InsertIntoSelect_desugars insert_range (builder_of topo_ck))
      as (_ & Hbad & _).
    apply (Hbad Hsink). left. apply Exists_cons_hd. done.
Defined.

(** C8 as stated fails at three inputs, each a statement with neither
    RANGE clause nor emitter.  Where the sink does not exist, [AddStmt]
    returns an error and creates nothing.  Where the sink exists and the
    relation of the statement does not, [AddStmt] returns an error, and
    the topology has no temporary stream and no edge.  Where the sink
    exists and has stopped, so that its [Input] fails, [AddStmt] returns
    an error, and the topology has no temporary stream and no edge. *)
Lemma InsertIntoSelect_missing_sink :
  (~ has_range (ii_Relations insert_k) /\
   EmitterType (ii_EmitterAST insert_k) = UnspecifiedEmitter /\
   exists err,
     AddStmt (InsertIntoSelect insert_k) (builder_of topo_c)
     = (inr err, builder_of topo_c)) /\
  (~ has_range (ii_Relations insert_nowhere) /\
   EmitterType (ii_EmitterAST insert_nowhere) = UnspecifiedEmitter /\
   topo_Sink (ii_Sink insert_nowhere) (topology (builder_of topo_ck)) = None /\
   exists err,
     AddStmt (InsertIntoSelect insert_nowhere) (builder_of topo_ck)
     = (inr err, {| topology := topo_ck; topologyBuilderTemporaryID := 1 |})) /\
  (~ has_range (ii_Relations insert_k) /\
   EmitterType (ii_EmitterAST insert_k) = UnspecifiedEmitter /\
   topo_Sink (ii_Sink insert_k) (topology stopped_builder) = None /\
   exists err,
     AddStmt (InsertIntoSelect insert_k) stopped_builder
     = (inr err, {| topology := topo_ck_stopped;
                    topologyBuilderTemporaryID := 1 |})).
Proof.
  split; [|split].
  - split; [apply insert_k_plain|]. split; [done|].
    eexists. vm_compute. reflexivity.
  - split; [apply insert_nowhere_plain|]. split; [done|].
    split; [vm_compute; reflexivity|]. eexists. vm_compute. reflexivity.
  - split; [apply insert_k_plain|]. split; [done|].
    split; [vm_compute; reflexivity|]. eexists. vm_compute. reflexivity.
Qed.


(** *** The parameters of a source or a sink *)

Section params.
Context {V : Type}.
Implicit Types params : list (SourceSinkParamAST V).

Lemma mkParamsMap_foldl params : forall (m : gmap string V) k,
  foldl (fun paramsMap kv => <[Key kv := ParamValue kv]> paramsMap) m params !! k
  = match last (filter (fun kv => Key kv = k) params) with
    | Some kv => Some (ParamValue kv)
    | None => m !! k
    end.
Proof.
  induction params as [|kv params IH] using rev_ind; intros m k; [done|].
  rewrite foldl_app, filter_app. simpl. rewrite filter_cons, filter_nil.
  destruct (decide (Key kv = k)) as [<-|Hne].
  - rewrite lookup_insert_eq, last_snoc. done.
  - rewrite lookup_insert_ne by done. rewrite app_nil_r. apply IH.
Qed.

(** The last parameter with a key wins.  The map [mkParamsMap] builds has,
    under every key, the value of the last parameter with that key, and no
    entry for a key that no parameter has. *)
Theorem mkParamsMap_last_wins params k :
  mkParamsMap params !! k
  = ParamValue <$> last (filter (fun kv => Key kv = k) params).
Proof.
  unfold mkParamsMap. rewrite mkParamsMap_foldl, lookup_empty.
  by destruct (last _).
Qed.
End params.

End BuilderFacts.

(** ** The queries of a request *)

Module ServerFacts.
Import Builder Server.

(** *** [parseQueries] *)

Section parseQueries_facts.
Context {V : Type}.
Variable AsString : V -> string + string.
Variable ParseStmt : string -> (Statement * string) + string.
Hypothesis Hconsuming : consuming ParseStmt.

Lemma lastDataReturning_snoc stmts idx stmt :
  lastDataReturning stmts idx ->
  lastDataReturning (stmts ++ [stmt])
    (if isDataReturning stmt then Z.of_nat (length stmts) else idx).
Proof.
  intros HI. destruct (isDataReturning stmt) eqn:Hd.
  - right. exists stmts, stmt, []. repeat split; try done.
  - destruct HI as [[-> Hall]|(l1 & s & l2 & -> & -> & Hs & Hall)].
    + left. split; [done|]. apply Forall_app. split; [done|]. by constructor.
    + right. exists l1, s, (l2 ++ [stmt]). rewrite <- app_assoc. simpl.
      repeat split; try done. apply Forall_app. split; [done|]. by constructor.
Qed.

Lemma parseLoop_spec fuel : forall queries acc idx,
  (String.length queries < fuel)%nat ->
  lastDataReturning acc idx ->
  exists r, parseLoop ParseStmt fuel queries acc idx = Some r /\
    match r with
    | inl (stmts, idx') =>
        exists new, stmts = acc ++ new /\
          parsed ParseStmt queries new EmptyString /\
          lastDataReturning stmts idx'
    | inr (ErrParse err rest) =>
        exists new, parsed ParseStmt queries new rest /\
          rest <> EmptyString /\ ParseStmt rest = inr err
    | inr _ => False
    end.
Proof.
  induction fuel as [|fuel IH]; intros queries acc idx Hfuel HI; [lia|].
  cbn [parseLoop]. destruct (decide (queries = EmptyString)) as [->|Hne].
  { eexists. split; [done|]. exists []. rewrite app_nil_r.
    split; [done|]. split; [constructor|done]. }
  destruct (ParseStmt queries) as [[stmt rest]|err] eqn:Hp.
  - destruct (IH rest (acc ++ [stmt])
                (if isDataReturning stmt then Z.of_nat (length acc) else idx))
      as (r & Hr & Hspec).
    { apply Hconsuming in Hp. lia. }
    { by apply lastDataReturning_snoc. }
    exists r. split; [done|]. destruct r as [[stmts idx']|e].
    + destruct Hspec as (new & -> & Hparsed & HI').
      exists (stmt :: new). rewrite <- app_assoc. split; [done|].
      split; [|by rewrite <- app_assoc in HI'].
      by eapply parsed_cons.
    + destruct e as [|?|err' rest'|?]; try done.
      destruct Hspec as (new & Hparsed & Hne' & Herr).
      exists (stmt :: new). split; [|done]. by eapply parsed_cons.
  - eexists. split; [done|]. exists []. split; [constructor|done].
Qed.

(** A SELECT or EVAL statement is issued alone.  With a parser that
    consumes input with every statement, [parseQueries] returns for every
    request whose [queries] field is a string.  When it returns statements,
    they are the statements the text parses into, in order, and a
    statement that returns data (SELECT, SELECT UNION, EVAL) is the only
    one.  Otherwise it returns the parse error together with the text that
    was left, or, when the text parses into two or more statements of which
    one returns data, the error that names the last such statement. *)
Theorem parseQueries_select_alone (form : gmap string V) v queries :
  form !! "queries" = Some v -> AsString v = inl queries ->
  exists r,
    parseQueries AsString ParseStmt (S (String.length queries)) form = Some r /\
    match r with
    | inl stmts =>
        parsed ParseStmt queries stmts EmptyString /\
        (forall s, s ∈ stmts -> isDataReturning s = true -> stmts = [s])
    | inr (ErrMixed s) =>
        exists stmts,
          parsed ParseStmt queries stmts EmptyString /\
          (2 <= length stmts)%nat /\
          last (filter (fun s => isDataReturning s = true) stmts) = Some s
    | inr (ErrParse err rest) =>
        exists stmts, parsed ParseStmt queries stmts rest /\
          rest <> EmptyString /\ ParseStmt rest = inr err
    | inr _ => False
    end.
Proof.
  intros Hform Hstr. unfold parseQueries. rewrite Hform, Hstr.
  destruct (parseLoop_spec (S (String.length queries)) queries [] (-1))
    as (r & -> & Hspec); [lia|left; by split|].
  destruct r as [[stmts idx]|e];
    [|exists (inr e); split; [done|]; by destruct e].
  destruct Hspec as (new & -> & Hparsed & HI). simpl in *.
  destruct HI as [[-> Hall]|(l1 & s & l2 & -> & -> & Hs & Hall)].
  - simpl. eexists. split; [done|]. split; [done|].
    intros s Hin Hd. rewrite Forall_forall in Hall. specialize (Hall s Hin).
    congruence.
  - rewrite (proj2 (Z.leb_le 0 _)) by lia. rewrite Nat2Z.id.
    rewrite list_lookup_middle by done. simpl.
    destruct (length (l1 ++ s :: l2) =? 1)%nat eqn:Hlen; simpl.
    + apply Nat.eqb_eq in Hlen. rewrite length_app in Hlen. simpl in Hlen.
      destruct l1; [|simpl in Hlen; lia]. destruct l2; [|simpl in Hlen; lia].
      eexists. split; [done|]. split; [done|].
      intros s' Hin _. apply list_elem_of_singleton in Hin as ->. done.
    + apply Nat.eqb_neq in Hlen. eexists. split; [done|].
      exists (l1 ++ s :: l2). split; [done|]. split.
      { rewrite length_app in *. simpl in *. lia. }
      rewrite filter_app, filter_cons_True by done.
      assert (filter (fun s => isDataReturning s = true) l2 = []) as ->.
      { clear -Hall. induction Hall as [|x l Hx _ IH]; [done|].
        rewrite filter_cons_False by congruence. done. }
      by rewrite last_snoc.
Qed.
End parseQueries_facts.

Lemma toyParseStmt_consuming : consuming toyParseStmt.
Proof.
  intros [|a q] stmt rest Hp; simpl in Hp; [done|].
  repeat match type of Hp with
  | context [if ?c then _ else _] => destruct c
  end; try done; injection Hp as <- <-; simpl; lia.
Qed.

(** [parseQueries_select_alone] at a request with a statement for the
    topology followed by a SELECT. *)
Lemma parseQueries_select_alone_witness :
  parseQueries toyAsString toyParseStmt 3 form_cs
  = Some (inr (ErrMixed (SelectStmt "s"))) /\
  exists stmts, parsed toyParseStmt "cs" stmts EmptyString /\
                (2 <= length stmts)%nat.
Proof.
  destruct (parseQueries_select_alone toyAsString toyParseStmt
              toyParseStmt_consuming form_cs (inl "cs") "cs" eq_refl eq_refl)
    as (r & Hr & Hspec).
  assert (r = inr (ErrMixed (SelectStmt "s"))) as ->
    by (vm_compute in Hr; congruence).
  split; [exact Hr|]. destruct Hspec as (stmts & Hp & Hlen & _). eauto.
Defined.

(** *** The loop over the statements *)

Section Queries_facts.
Context {T : Type} `{DynamicTopology T}.

Lemma tmpNameOf_inj : Inj (=) (=) tmpNameOf.
Proof.
  intros a b Hab. unfold tmpNameOf in Hab.
  apply (inj pretty). by apply (inj (String.app "sensorbee_tmp_")) in Hab.
Qed.

Lemma AddStmt_counter stmt tb :
  let tb' := snd (AddStmt stmt tb) in
  (topologyBuilderTemporaryID tb' = topologyBuilderTemporaryID tb \/
   topologyBuilderTemporaryID tb' = wrap64 (topologyBuilderTemporaryID tb + 1)) /\
  (forall s node, stmt = InsertIntoSelect s -> fst (AddStmt stmt tb) = inl node ->
     topologyBuilderTemporaryID tb' = wrap64 (topologyBuilderTemporaryID tb + 1) /\
     node = tmpNameOf (topologyBuilderTemporaryID tb')).
Proof.
  destruct stmt as [cs|ii|ty]; simpl.
  - destruct (addCreateStreamAsSelect cs (topology tb)) as [r t]. simpl.
    split; [by left|]. done.
  - unfold addInsertIntoSelect.
    destruct (topo_Sink _ _); [simpl; split; [by left|done]|].
    destruct (mkNewRels _); [|simpl; split; [by right|done]].
    case_bool_decide; [simpl; split; [by right|done]|].
    set (id := wrap64 (topologyBuilderTemporaryID tb + 1)).
    destruct (addCreateStreamAsSelect _ _) as [[box|err] t1] eqn:Hadd;
      [|simpl; split; [by right|done]].
    assert (box = tmpNameOf id) as ->.
    { unfold addCreateStreamAsSelect in Hadd. simpl in Hadd.
      destruct (topo_AddBox _ _ _) as [[e|] ?]; [done|].
      destruct (connectInputs _ _ _) as [[e|] ?]; [done|]. by injection Hadd as <- _. }
    destruct (topo_Input _ _ _ _) as [[err|] t3]; simpl; (split; [by right|]).
    + done.
    + intros s node _ [= <-]. done.
  - split; [by left|done].
Qed.

Lemma tmpNodes_nil_r stmts : tmpNodes stmts [] = [].
Proof. destruct stmts as [|[] ?]; done. Qed.

Lemma AddStmts_tmpNodes stmts : forall (tb : TopologyBuilder T),
  int64_min <= topologyBuilderTemporaryID tb ->
  topologyBuilderTemporaryID tb + Z.of_nat (length stmts) <= int64_max ->
  let r := AddStmts stmts tb in
  topologyBuilderTemporaryID tb <= topologyBuilderTemporaryID (snd r)
    <= topologyBuilderTemporaryID tb + Z.of_nat (length stmts) /\
  Forall (fun node => exists id,
            topologyBuilderTemporaryID tb < id
              <= topologyBuilderTemporaryID (snd r) /\
            node = tmpNameOf id)
    (tmpNodes stmts (fst r)) /\
  NoDup (tmpNodes stmts (fst r)).
Proof.
  induction stmts as [|stmt stmts IH]; intros tb Hmin Hmax.
  { simpl. split; [lia|]. split; constructor. }
  rewrite length_cons in Hmax. cbn [AddStmts].
  assert (wrap64 (topologyBuilderTemporaryID tb + 1)
          = topologyBuilderTemporaryID tb + 1) as Hwrap.
  { apply wrap64_id. unfold in_int64. lia. }
  pose proof (AddStmt_counter stmt tb) as [Hc Hnode]. rewrite Hwrap in *.
  destruct (AddStmt stmt tb) as [[node|err] tb1] eqn:Hadd; simpl in Hc, Hnode.
  - destruct (IH tb1) as (Hc' & Hall & Hnd); [lia|lia|].
    destruct (AddStmts stmts tb1) as [rs tb2] eqn:Hrest. simpl in *.
    split; [lia|].
    assert (Forall (fun node => exists id,
              topologyBuilderTemporaryID tb < id
                <= topologyBuilderTemporaryID tb2 /\ node = tmpNameOf id)
              (tmpNodes stmts rs)) as Hall'.
    { eapply Forall_impl; [exact Hall|]. intros n (id & Hid & ->).
      exists id. split; [lia|done]. }
    destruct stmt as [cs|ii|ty]; simpl; try done.
    destruct (Hnode ii node eq_refl eq_refl) as [Hc1 ->].
    split.
    + constructor; [|done]. eexists. split; [|done]. lia.
    + constructor; [|done]. intros Hin.
      rewrite Forall_forall in Hall. destruct (Hall _ Hin) as (id & Hid & Heq).
      apply tmpNameOf_inj in Heq. lia.
  - simpl. split; [lia|].
    destruct stmt; simpl; rewrite tmpNodes_nil_r; split; constructor.
Qed.

(** Temporary streams get distinct names.  While the counter of temporary
    ids does not overflow, the temporary streams that the INSERT INTO
    statements of one request create have pairwise distinct names, each
    [sensorbee_tmp_<id>] for an id above the counter before the request and
    at most the counter after it. *)
Theorem temporary_names_are_distinct stmts (tb : TopologyBuilder T) :
  int64_min <= topologyBuilderTemporaryID tb ->
  topologyBuilderTemporaryID tb + Z.of_nat (length stmts) <= int64_max ->
  NoDup (tmpNodes stmts (fst (AddStmts stmts tb))) /\
  Forall (fun node => exists id,
            topologyBuilderTemporaryID tb < id
              <= topologyBuilderTemporaryID (snd (AddStmts stmts tb)) /\
            node = tmpNameOf id)
    (tmpNodes stmts (fst (AddStmts stmts tb))).
Proof.
  intros Hmin Hmax.
  destruct (AddStmts_tmpNodes stmts tb Hmin Hmax) as (_ & Hall & Hnd). done.
Qed.

(** The loop over the statements stops at the first error and undoes
    nothing.  Only the last call of [AddStmt] can have failed; when fewer
    calls were made than there are statements, the last one failed; and
    the builder is the one that the statements up to and including the
    failing one leave: the statements before it stay added, the statements
    after it are not looked at. *)
Theorem AddStmts_stops_at_first_error stmts : forall (tb : TopologyBuilder T),
  let rs := fst (AddStmts stmts tb) in
  (length rs <= length stmts)%nat /\
  (forall i err, rs !! i = Some (inr err) -> S i = length rs) /\
  ((length rs < length stmts)%nat -> exists err, last rs = Some (inr err)) /\
  AddStmts (take (length rs) stmts) tb = AddStmts stmts tb.
Proof.
  induction stmts as [|stmt stmts IH]; intros tb; [simpl; repeat split; try done; lia|].
  cbn [AddStmts]. destruct (AddStmt stmt tb) as [[node|err] tb1] eqn:Hadd.
  - specialize (IH tb1). destruct (AddStmts stmts tb1) as [rs tb2] eqn:Hrest.
    simpl in IH. destruct IH as (H1 & H2 & H3 & H4). simpl.
    split; [lia|]. split; [|split].
    + intros [|i] err Hi; [done|]. simpl in Hi. f_equal. by eapply H2.
    + intros Hlt. destruct H3 as (err & Hlast); [lia|].
      exists err. destruct rs; [done|]. done.
    + rewrite Hadd, H4. done.
  - simpl. split; [lia|]. split; [|split].
    + intros [|i] e Hi; [done|]. done.
    + intros _. by exists err.
    + cbn [take AddStmts]. by rewrite Hadd.
Qed.
End Queries_facts.

Example two_inserts_nodes :
  tmpNodes two_inserts (fst (AddStmts two_inserts (builder_of topo_ck)))
  = ["sensorbee_tmp_1"; "sensorbee_tmp_2"].
Proof. vm_compute. reflexivity. Qed.

(** [temporary_names_are_distinct] at two INSERT INTO statements. *)
Lemma temporary_names_are_distinct_witness :
  NoDup (tmpNodes two_inserts (fst (AddStmts two_inserts (builder_of topo_ck)))).
Proof.
  apply (temporary_names_are_distinct two_inserts (builder_of topo_ck)).
  - vm_compute. discriminate.
  - vm_compute. discriminate.
Defined.

End ServerFacts.

(** ** The registry of UDSF creators *)

Module UDFFacts.
Import UDF.

Lemma List_copies r : List r = (creators r, None).
Proof.
  unfold List. f_equal.
  apply (map_fold_weak_ind (fun m' m => m' = m)); [done|].
  intros t c m m' _ ->. done.
Qed.

(** [Register] and [Lookup].  Registering a creator under a name that is
    free succeeds; afterwards [Lookup] of the name returns that creator for
    every arity the creator accepts and the arity error for the others,
    every other name is looked up as before, a second [Register] under the
    name fails with the already-registered error and changes nothing, and
    [List] has the new entry besides the old ones. *)
Theorem Register_then_Lookup r typeName c :
  creators r !! typeName = None ->
  snd (Register r typeName c) = None /\
  (forall arity,
     Lookup (fst (Register r typeName c)) typeName arity
     = if Accept c arity then inl c else inr (ErrArity typeName arity)) /\
  (forall t arity, t <> typeName ->
     Lookup (fst (Register r typeName c)) t arity = Lookup r t arity) /\
  (forall c',
     Register (fst (Register r typeName c)) typeName c'
     = (fst (Register r typeName c), Some (ErrAlreadyRegistered typeName))) /\
  fst (List (fst (Register r typeName c))) = <[typeName := c]> (fst (List r)).
Proof.
  intros Hfree.
  assert (Register r typeName c
          = ({| creators := <[typeName := c]> (creators r) |}, None)) as ->
    by (unfold Register; by rewrite Hfree).
  cbn [fst snd]. split; [done|]. split; [|split; [|split]].
  - intros arity. unfold Lookup. simpl. rewrite lookup_insert_eq.
    by destruct (Accept c arity).
  - intros t arity Hne. unfold Lookup. simpl. by rewrite lookup_insert_ne.
  - intros c'. unfold Register. simpl. by rewrite lookup_insert_eq.
  - by rewrite !List_copies.
Qed.

(** [Unregister] frees the name.  [Unregister] never fails; afterwards
    [Lookup] of the name fails with the not-registered error, every other
    name is looked up as before, and the name can be registered again.
    Unregistering twice is unregistering once, unregistering a name that is
    not registered changes nothing, and unregistering a name right after
    registering it gives the registry back. *)
Theorem Unregister_frees_name r typeName :
  snd (Unregister r typeName) = None /\
  (forall arity,
     Lookup (fst (Unregister r typeName)) typeName arity
     = inr (ErrNotRegistered typeName)) /\
  (forall t arity, t <> typeName ->
     Lookup (fst (Unregister r typeName)) t arity = Lookup r t arity) /\
  Unregister (fst (Unregister r typeName)) typeName
  = (fst (Unregister r typeName), None) /\
  (creators r !! typeName = None -> fst (Unregister r typeName) = r) /\
  (forall c, snd (Register (fst (Unregister r typeName)) typeName c) = None) /\
  (forall c, creators r !! typeName = None ->
     fst (Unregister (fst (Register r typeName c)) typeName) = r).
Proof.
  split; [done|]. split; [|split; [|split; [|split; [|split]]]].
  - intros arity. unfold Lookup. simpl. by rewrite lookup_delete_eq.
  - intros t arity Hne. unfold Lookup. simpl. by rewrite lookup_delete_ne.
  - unfold Unregister. simpl. f_equal. f_equal. by rewrite delete_delete_eq.
  - intros Hfree. destruct r as [m]. unfold Unregister. simpl in *. f_equal.
    by apply delete_id.
  - intros c. unfold Register. simpl. by rewrite lookup_delete_eq.
  - intros c Hfree. unfold Register. rewrite Hfree. simpl. destruct r as [m].
    unfold Unregister. simpl in *. f_equal. by apply delete_insert_id.
Qed.

Lemma registerAll_spec order : forall r,
  NoDup order.*1 ->
  (forall t, t ∈ order.*1 -> creators r !! t = None) ->
  registerAll r order = inl {| creators := list_to_map order ∪ creators r |}.
Proof.
  induction order as [|[t c] order IH]; intros r Hnd Hfree.
  { simpl. destruct r as [m]. simpl. by rewrite (left_id_L ∅ (∪)). }
  apply NoDup_cons in Hnd as [Hnin Hnd]. cbn [registerAll].
  unfold Register. rewrite Hfree by (simpl; apply elem_of_cons; auto).
  rewrite IH; [|done|].
  - simpl. f_equal. f_equal.
    rewrite <- insert_union_r by (by apply not_elem_of_list_to_map_1).
    by rewrite insert_union_l.
  - intros t' Hin. simpl. rewrite lookup_insert_ne by (intros ->; done).
    apply Hfree. simpl. apply elem_of_cons. auto.
Qed.

(** The copy of the global registry.  In whatever order the creators of
    the global registry are ranged over, [CopyGlobalUDSFCreatorRegistry]
    returns no error and a registry with exactly the creators of the global
    one. *)
Theorem CopyGlobalUDSFCreatorRegistry_copies global order :
  order ≡ₚ map_to_list (creators global) ->
  CopyGlobalUDSFCreatorRegistry global order = inl global.
Proof.
  intros Hperm. unfold CopyGlobalUDSFCreatorRegistry. rewrite List_copies.
  assert (NoDup order.*1) as Hnd.
  { rewrite Hperm. apply NoDup_fst_map_to_list. }
  rewrite registerAll_spec; [|done|by intros].
  simpl. rewrite (right_id_L ∅ (∪)).
  rewrite (list_to_map_proper order (map_to_list (creators global))) by done.
  rewrite list_to_map_to_list. by destruct global.
Qed.

(** [Register_then_Lookup] at a registry with two creators. *)
Lemma Register_then_Lookup_witness :
  Lookup (fst (Register reg2 "window" unary)) "window" 1 = inl unary /\
  Lookup (fst (Register reg2 "window" unary)) "window" 2
    = inr (ErrArity "window" 2) /\
  Lookup (fst (Register reg2 "window" unary)) "union" 5 = inl variadic.
Proof.
  assert (creators reg2 !! "window" = None) as Hfree by (vm_compute; reflexivity).
  destruct (Register_then_Lookup reg2 "window" unary Hfree) as (_ & H1 & H2 & _).
  split; [exact (H1 1)|]. split; [exact (H1 2)|].
  rewrite H2 by discriminate. vm_compute. reflexivity.
Defined.

(** [CopyGlobalUDSFCreatorRegistry_copies] at a registry with two creators,
    ranged over in reverse order. *)
Lemma CopyGlobalUDSFCreatorRegistry_copies_witness :
  CopyGlobalUDSFCreatorRegistry reg2 [("union", variadic); ("duplicate", unary)]
  = inl reg2.
Proof.
  apply CopyGlobalUDSFCreatorRegistry_copies.
  assert (map_to_list (creators reg2) ≡ₚ [("duplicate", unary); ("union", variadic)]) as ->.
  { unfold reg2. simpl. rewrite map_to_list_insert by (vm_compute; reflexivity).
    rewrite map_to_list_singleton. done. }
  apply Permutation_swap.
Defined.

End UDFFacts.
